(** * VCurve: freehand stroke fitting (VGeometry/VCurve.cpp)

    A shallow embedding of [VGeometry::VCurve] and the verification of its
    documented behaviour.  The C++ code computes over [double]; the embedding
    is written once over an interface [Scalar] listing the operations on
    [double] the code uses, and is instantiated twice:

    - [Binary64], IEEE 754 binary64 through Rocq's primitive floats: the
      definitions run, and give what the program computes;
    - [RealNum], the real numbers: the arithmetic the comments of the source
      reason in ("distance between consecutive knots > eps").

    Structural properties are proved for every [Scalar]; properties that
    depend on arithmetic laws are proved over [RealNum] (and, where the
    computation is finite, over [Binary64] too). *)

From Stdlib Require Import List Arith PeanoNat Lia Bool ZArith.
From Stdlib Require Import Reals Lra Rgeom R_Ifp.
From Stdlib Require Import Floats.
From Stdlib Require Uint63.
Set Warnings "-inexact-float".
Import ListNotations.

Set Implicit Arguments.

(** ** The operations of [double] *)

Declare Scope D_scope.
Delimit Scope D_scope with D.

Class Scalar : Type := {
  D : Type;
  dadd : D -> D -> D;
  dsub : D -> D -> D;
  dmul : D -> D -> D;
  ddiv : D -> D -> D;
  dneg : D -> D;
  dsqrt : D -> D;                (* std::sqrt, through glm::length *)
  dabs : D -> D;                 (* std::abs *)
  dlt : D -> D -> bool;          (* a < b *)
  d_of_nat : nat -> D;           (* (double) k, and integer literals *)
  d_floor_uint : D -> nat;       (* unsigned int na = std::floor(x) *)
  (* the literals of the source that are not integers *)
  lit_0_1 : D;                   (* 0.1 *)
  lit_0_67 : D;                  (* 0.67 *)
  lit_0_33 : D;                  (* 0.33 *)
  lit_0_25 : D;                  (* 0.25 *)
  lit_0_50 : D;                  (* 0.50 *)
  lit_1em10 : D;                 (* 1e-10 *)
  M_PI : D
}.

Infix "+" := dadd : D_scope.
Infix "-" := dsub : D_scope.
Infix "*" := dmul : D_scope.
Infix "/" := ddiv : D_scope.
Notation "- x" := (dneg x) : D_scope.
Notation "a <? b" := (dlt a b) : D_scope.
Notation "a >? b" := (dlt b a) : D_scope.

Section ScalarOps.
Context {Sc : Scalar}.

Definition d0 : D := d_of_nat 0.
Definition d1 : D := d_of_nat 1.

(** [std::max(a, b)] is [(a < b) ? b : a]. *)
Definition std_max (a b : D) : D := if (a <? b)%D then b else a.
End ScalarOps.

(** ** glm::dvec2 *)

Module glm.
Section Vec.
Context {Sc : Scalar}.

Record dvec2 : Type := vec2 { x : D; y : D }.

Definition sub (a b : dvec2) : dvec2 := vec2 (x a - x b)%D (y a - y b)%D.
Definition add (a b : dvec2) : dvec2 := vec2 (x a + x b)%D (y a + y b)%D.
(** [s * v] *)
Definition scale (s : D) (v : dvec2) : dvec2 := vec2 (s * x v)%D (s * y v)%D.
(** [v / s] *)
Definition divs (v : dvec2) (s : D) : dvec2 := vec2 (x v / s)%D (y v / s)%D.
(** [glm::length(v)] is [sqrt(dot(v, v))]. *)
Definition length (v : dvec2) : D := dsqrt (x v * x v + y v * y v)%D.
End Vec.
End glm.

(** ** Vectors and failure *)

(** What can go wrong in the C++ code: an [assert] that fails, the exception
    [std::out_of_range] of [std::vector::at], and an unchecked [operator[]]
    outside the vector (undefined behaviour). *)
Inductive Err : Type :=
| AssertionFailed
| OutOfRange
| Undefined.

Inductive Res (A : Type) : Type :=
| Ok (a : A)
| Fail (e : Err).
Arguments Fail {A} e.

Definition bind {A B} (m : Res A) (k : A -> Res B) : Res B :=
  match m with
  | Ok a => k a
  | Fail e => Fail e
  end.

Notation "x <- m ;; k" := (bind m (fun x => k))
  (at level 61, m at next level, right associativity).
Notation "' pat <- m ;; k" := (bind m (fun x => match x with pat => k end))
  (at level 61, pat pattern, m at next level, right associativity).
Notation "'assert' b ;; k" := (if b then k else Fail AssertionFailed)
  (at level 61, b at next level, right associativity).

Section Vectors.
Context {A : Type}.

(** [v.at(i)] *)
Definition at_ (v : list A) (i : nat) : Res A :=
  match nth_error v i with
  | Some a => Ok a
  | None => Fail OutOfRange
  end.

(** [v[i]], checked: used where the index depends on the data. *)
Definition idx (v : list A) (i : nat) : Res A :=
  match nth_error v i with
  | Some a => Ok a
  | None => Fail Undefined
  end.

(** [v[i] = a]; the code only assigns inside the vector. *)
Fixpoint vset (i : nat) (a : A) (v : list A) : list A :=
  match v, i with
  | [], _ => []
  | _ :: t, 0 => a :: t
  | h :: t, S j => h :: vset j a t
  end.

(** [v.resize(n)], new elements being [a]. *)
Definition resize (n : nat) (a : A) (v : list A) : list A :=
  firstn n v ++ repeat a (n - Datatypes.length v).

(** [v.back()] *)
Definition back (a : A) (v : list A) : A := last v a.
End Vectors.

(** ** The data of a curve *)

Section Model.
Context {Sc : Scalar}.

(** VCurveInputSample *)
Record VCurveInputSample : Type := {
  in_position : glm.dvec2;
  in_width : D;
  in_resolution : D
}.

(** VCurveKnot *)
Record VCurveKnot : Type := {
  k_position : glm.dvec2;
  k_width : D;
  k_angle : D;
  k_isCorner : bool
}.

(** VCurveSample (VCurveSample.h) *)
Record VCurveSample : Type := {
  position : glm.dvec2;
  width : D;
  tangent : glm.dvec2;
  normal : glm.dvec2;
  arclength : D;
  angle : D
}.

(** VCurveParams: the two options the code reads. *)
Record VCurveParams : Type := {
  maxSmoothKnotAngle : D;
  maxSampleAngle : D
}.
End Model.

(** ** Collaborators

    Functions the curve code calls and that live outside VCurve.cpp:
    [fitQuadratic] and [CubicCurve::pos] (CubicCurve.h),
    [computeSupplementaryAngle] and [interpolateUsingDynLevin]
    (Algorithms.h), and [std::atan2], [std::cos], [std::sin]. *)

Class Collaborators {Sc : Scalar} : Type := {
  CubicCurve : Type;
  CubicCurve_init : CubicCurve;          (* a default-constructed curve *)
  fitQuadratic : list glm.dvec2 -> CubicCurve;
  pos : CubicCurve -> D -> glm.dvec2;
  computeSupplementaryAngle : glm.dvec2 -> glm.dvec2 -> glm.dvec2 -> D;
  interpolateUsingDynLevin_vec :
    glm.dvec2 -> glm.dvec2 -> glm.dvec2 -> glm.dvec2 -> D -> glm.dvec2;
  interpolateUsingDynLevin :
    D -> D -> D -> D -> D -> D;
  atan2 : D -> D -> D;
  cos : D -> D;
  sin : D -> D
}.

(** ** VCurve *)

Section VCurve.
Context {Sc : Scalar} {Co : Collaborators}.

Local Open Scope D_scope.

(** The members of the class. *)
Record VCurve : Type := {
  params_ : VCurveParams;
  inputSamples_ : list VCurveInputSample;
  regFits_ : list CubicCurve;
  regPositions_ : list glm.dvec2;
  regWidths_ : list D;
  knots_ : list VCurveKnot;
  samples_ : list VCurveSample
}.

(** Values of elements that were created and not assigned yet.  Every
    element the code reads has been assigned before. *)
Definition zero2 : glm.dvec2 := glm.vec2 d0 d0.
Definition VCurveInputSample_init : VCurveInputSample :=
  {| in_position := zero2; in_width := d0; in_resolution := d0 |}.
Definition VCurveKnot_init : VCurveKnot :=
  {| k_position := zero2; k_width := d0; k_angle := d0; k_isCorner := false |}.
Definition VCurveSample_init : VCurveSample :=
  {| position := zero2; width := d0; tangent := zero2; normal := zero2;
     arclength := d0; angle := d0 |}.

(** VCurve::VCurve(params) *)
Definition VCurve_new (params : VCurveParams) : VCurve :=
  {| params_ := params; inputSamples_ := []; regFits_ := [];
     regPositions_ := []; regWidths_ := []; knots_ := []; samples_ := [] |}.

(** VCurve::clear *)
Definition clear (c : VCurve) : VCurve :=
  {| params_ := params_ c;
     inputSamples_ := [];
     regFits_ := [];
     regPositions_ := [];
     regWidths_ := [];
     knots_ := knots_ c;
     samples_ := [] |}.

(** VCurve::beginFit *)
Definition beginFit (c : VCurve) : VCurve := clear c.


(** VCurve::numKnots, knot, knots, numSamples, sample, samples *)
Definition numKnots (c : VCurve) : nat := length (knots_ c).
Definition knot (c : VCurve) (i : nat) : Res VCurveKnot := at_ (knots_ c) i.
Definition knots (c : VCurve) : list VCurveKnot := knots_ c.
Definition numSamples (c : VCurve) : nat := length (samples_ c).
Definition sample (c : VCurve) (i : nat) : Res VCurveSample := at_ (samples_ c) i.
Definition samples (c : VCurve) : list VCurveSample := samples_ c.

(** VCurve::length *)
Definition VCurve_length (c : VCurve) : D :=
  if numSamples c =? 0 then d0
  else arclength (back VCurveSample_init (samples_ c)).

(** VCurve::appendInputSample_, on the input history. *)
Definition appendInputSample_ (inputSample : VCurveInputSample)
    (inputSamples : list VCurveInputSample) : list VCurveInputSample :=
  let n := length inputSamples in
  if n =? 0 then
    inputSamples ++ [inputSample]
  else
    let s0 := nth (n - 1) inputSamples VCurveInputSample_init in
    let s1 := inputSample in
    let ds := glm.length (glm.sub (in_position s1) (in_position s0)) in
    if ds >? lit_0_1 * in_resolution inputSample then
      inputSamples ++ [inputSample]
    else
      inputSamples.

(** VCurve::computeRegWidths_ *)
Definition computeRegWidths_ (inputSamples : list VCurveInputSample)
    (regWidths : list D) : Res (list D) :=
  let n := length inputSamples in
  let w i := in_width (nth i inputSamples VCurveInputSample_init) in
  assert (0 <? n)%nat ;;
  let regWidths := resize n d0 regWidths in
  let regWidths :=
    if (1 <? n)%nat then
      let rw := vset 0 (lit_0_67 * w 0%nat + lit_0_33 * w 1%nat) regWidths in
      vset (n - 1) (lit_0_67 * w (n - 1)%nat + lit_0_33 * w (n - 2)%nat) rw
    else
      let rw := vset 0 (w 0%nat) regWidths in
      vset (n - 1) (w (n - 1)%nat) rw in
  let regWidths :=
    fold_left
      (fun rw i =>
         vset i (lit_0_25 * w (i - 1)%nat + lit_0_50 * w i
                 + lit_0_25 * w (i + 1)%nat) rw)
      (seq 1 (n - 1 - 1)) regWidths in
  assert (length regWidths =? n) ;;
  Ok regWidths.

(** VCurve::computeRegFits_ *)
Definition computeRegFits_ (inputSamples : list VCurveInputSample)
    (regFits : list CubicCurve) : Res (list CubicCurve) :=
  let n := length inputSamples in
  assert (0 <? n)%nat ;;
  let maxNumSamplesPerFit := 5%nat in
  let numSamplesPerFit := Nat.min maxNumSamplesPerFit n in
  let numFits := (n - numSamplesPerFit + 1)%nat in
  let regFits := resize numFits CubicCurve_init regFits in
  let regFits :=
    fold_left
      (fun rf i =>
         let samplesToFit :=
           map (fun j => in_position (nth (i + j) inputSamples
                                          VCurveInputSample_init))
               (seq 0 numSamplesPerFit) in
         vset i (fitQuadratic samplesToFit) rf)
      (seq 0 numFits) regFits in
  assert (0 <? length regFits)%nat ;;
  assert (length regFits <=? n)%nat ;;
  assert ((3 <=? n - length regFits + 1)%nat || (n <=? 2)%nat) ;;
  Ok regFits.

(** The bell-shaped weight [w_]. *)
Definition w_ (u : D) : D := u * u * (d1 - u) * (d1 - u).

(** The inner loop of VCurve::averageRegFits_ for the sample of index [i]:
    the pair [(pos, sumW)] when the loop ends. *)
Definition averageRegFits_acc (regFits : list CubicCurve)
    (numSamplesPerFit numFits i : nat) : glm.dvec2 * D :=
  fold_left
    (fun (acc : glm.dvec2 * D) j =>
       let '(pos_acc, sumW) := acc in
       let k := (Z.of_nat i - Z.of_nat j)%Z in
       if ((0 <=? k)%Z && (k <? Z.of_nat numFits)%Z)%bool then
         let cubicFit := nth (Z.to_nat k) regFits CubicCurve_init in
         let uj := d_of_nat j / d_of_nat (numSamplesPerFit - 1) in
         let posj := pos cubicFit uj in
         let wj := w_ uj in
         (glm.add pos_acc (glm.scale wj posj), sumW + wj)
       else acc)
    (seq 1 (numSamplesPerFit - 1 - 1))
    (glm.vec2 d0 d0, d0).

(** VCurve::averageRegFits_ *)
Definition averageRegFits_ (inputSamples : list VCurveInputSample)
    (regFits : list CubicCurve) (regPositions : list glm.dvec2)
    : Res (list glm.dvec2) :=
  let n := length inputSamples in
  let numFits := length regFits in
  let numSamplesPerFit := (n - numFits + 1)%nat in
  let p i := in_position (nth i inputSamples VCurveInputSample_init) in
  assert (0 <? n)%nat ;;
  assert (0 <? numFits)%nat ;;
  assert (numFits <=? n)%nat ;;
  assert ((3 <=? numSamplesPerFit)%nat || (n <=? 2)%nat) ;;
  let regPositions := resize n zero2 regPositions in
  let regPositions := vset 0 (p 0%nat) regPositions in
  let regPositions :=
    fold_left
      (fun rp i =>
         let '(pos_acc, sumW) :=
           averageRegFits_acc regFits numSamplesPerFit numFits i in
         vset i (glm.scale (d1 / sumW) pos_acc) rp)
      (seq 1 (n - 1 - 1)) regPositions in
  let regPositions := vset (n - 1) (p (n - 1)%nat) regPositions in
  assert (length regPositions =? n) ;;
  Ok regPositions.

(** Assignments to one field of a knot. *)
Definition set_k_angle (a : D) (k : VCurveKnot) : VCurveKnot :=
  {| k_position := k_position k; k_width := k_width k;
     k_angle := a; k_isCorner := k_isCorner k |}.
Definition set_k_isCorner (b : bool) (k : VCurveKnot) : VCurveKnot :=
  {| k_position := k_position k; k_width := k_width k;
     k_angle := k_angle k; k_isCorner := b |}.
Definition set_k_position_width (p : glm.dvec2) (w : D) (k : VCurveKnot)
    : VCurveKnot :=
  {| k_position := p; k_width := w;
     k_angle := k_angle k; k_isCorner := k_isCorner k |}.

(** *** VCurve::computeKnots_, in its phases *)

(** "Set knot positions and widths (removing duplicates)": the first knot
    and the loop over the other smoothed positions.  Returns [knots_] and
    the distances [d] between consecutive knots. *)
Definition removeDuplicates (resolution : D) (n : nat)
    (regPositions : list glm.dvec2) (regWidths : list D)
    : list VCurveKnot * list D :=
  let knot :=
    set_k_position_width (nth 0 regPositions zero2) (nth 0 regWidths d0)
                         VCurveKnot_init in
  let '(_, knots, d) :=
    fold_left
      (fun (st : VCurveKnot * list VCurveKnot * list D) i =>
         let '(knot, knots, d) := st in
         let p0 := k_position knot in
         let p1 := nth i regPositions zero2 in
         let ds := glm.length (glm.sub p1 p0) in
         if ds >? resolution then
           let knot := set_k_position_width p1 (nth i regWidths d0) knot in
           (knot, knots ++ [knot], d ++ [ds])
         else st)
      (seq 1 (n - 1))
      (knot, [knot], []) in
  (knots, d).

(** "Compute knot angles": 0 at both ends, the supplementary angle
    elsewhere. *)
Definition computeAngles (knots : list VCurveKnot) : list VCurveKnot :=
  let m := length knots in
  let kn ks i := nth i ks VCurveKnot_init in
  let knots := vset 0 (set_k_angle d0 (kn knots 0%nat)) knots in
  let knots :=
    fold_left
      (fun ks i =>
         let k0 := kn ks (i - 1)%nat in
         let k1 := kn ks i in
         let k2 := kn ks (i + 1)%nat in
         vset i (set_k_angle
                   (computeSupplementaryAngle (k_position k0) (k_position k1)
                                              (k_position k2)) k1) ks)
      (seq 1 (m - 1 - 1)) knots in
  vset (m - 1) (set_k_angle d0 (kn knots (m - 1)%nat)) knots.

(** "Merge knots in-place": the loop [while (i1+3 < m)].  The state is
    the vector and the two indices; [fuel] bounds the number of
    iterations ([m] is enough, see [mergeLoop_exit]). *)
Definition r : D := d_of_nat 4.

Fixpoint mergeLoop (fuel : nat) (d : list D) (m : nat)
    (knots : list VCurveKnot) (i1 i2 : nat)
    : list VCurveKnot * nat * nat :=
  match fuel with
  | O => (knots, i1, i2)
  | S fuel =>
    if (i1 + 3 <? m)%nat then
      let i1 := (i1 + 1)%nat in
      let i2 := (i2 + 1)%nat in
      let B := nth i1 knots VCurveKnot_init in
      let C := nth (i1 + 1) knots VCurveKnot_init in
      let AB := nth (i1 - 1) d d0 in
      let BC := nth i1 d d0 in
      let CD := nth (i1 + 1) d d0 in
      if ((r * BC <? AB) && (r * BC <? CD))%bool then
        let angleB := k_angle B in
        let angleC := k_angle C in
        if angleB <? angleC then
          mergeLoop fuel d m (vset i2 C knots) (i1 + 1) i2
        else
          mergeLoop fuel d m (vset i2 B knots) (i1 + 1) i2
      else
        mergeLoop fuel d m (vset i2 B knots) i1 i2
    else (knots, i1, i2)
  end.

(** "copy the last knot, or the last two knots": [while (i1+1 < m)]. *)
Fixpoint copyLoop (fuel : nat) (m : nat)
    (knots : list VCurveKnot) (i1 i2 : nat)
    : list VCurveKnot * nat * nat :=
  match fuel with
  | O => (knots, i1, i2)
  | S fuel =>
    if (i1 + 1 <? m)%nat then
      let i1 := (i1 + 1)%nat in
      let i2 := (i2 + 1)%nat in
      copyLoop fuel m (vset i2 (nth i1 knots VCurveKnot_init) knots) i1 i2
    else (knots, i1, i2)
  end.

(** The whole merge pass, from the knots with their angles and the
    distances [d] to the shorter vector. *)
Definition mergeKnots (d : list D) (knots : list VCurveKnot)
    : list VCurveKnot :=
  let m := length knots in
  let '(knots, i1, i2) := mergeLoop m d m knots 0 0 in
  let '(knots, _, i2) := copyLoop m m knots i1 i2 in
  resize (i2 + 1) VCurveKnot_init knots.

(** "Decide which knots are corner knots". *)
Definition decideCorners (maxSmoothKnotAngle : D)
    (knots : list VCurveKnot) : list VCurveKnot :=
  let p := length knots in
  let kn ks i := nth i ks VCurveKnot_init in
  let knots := vset 0 (set_k_isCorner true (kn knots 0%nat)) knots in
  let knots :=
    fold_left
      (fun ks i =>
         let k1 := kn ks i in
         vset i (set_k_isCorner (k_angle k1 >? maxSmoothKnotAngle) k1) ks)
      (seq 1 (p - 1 - 1)) knots in
  vset (p - 1) (set_k_isCorner true (kn knots (p - 1)%nat)) knots.

(** VCurve::computeKnots_ *)
Definition eps : D := lit_1em10.

Definition computeKnots_ (params : VCurveParams)
    (inputSamples : list VCurveInputSample)
    (regPositions : list glm.dvec2) (regWidths : list D)
    : Res (list VCurveKnot) :=
  let n := length inputSamples in
  let np := length regPositions in
  let nw := length regWidths in
  assert (0 <? n)%nat ;;
  assert (np =? n) ;;
  assert (nw =? n) ;;
  let resolution :=
    std_max (d_of_nat 10 * eps)
            (in_resolution (nth 0 inputSamples VCurveInputSample_init)) in
  let '(knots, d) := removeDuplicates resolution n regPositions regWidths in
  let m := length knots in
  assert (0 <? m)%nat ;;
  let knots := computeAngles knots in
  let knots := mergeKnots d knots in
  let p := length knots in
  assert (0 <? p)%nat ;;
  assert (p <=? m)%nat ;;
  let knots := computeAngles knots in
  let knots := decideCorners (maxSmoothKnotAngle params) knots in
  Ok knots.

(** *** VCurve::computeSamples_, in its phases *)

Definition numSubdivisionSteps : nat := 3.
(** The tension parameter [w] of the 4-point scheme. *)
Definition tension : D := d1 / d_of_nat 16.

(** [i - 1] on [unsigned int]: at [i = 0] it wraps to [UINT_MAX], an index
    no vector reaches, so that the read that follows is out of bounds. *)
Definition dec (i : nat) : Res nat :=
  match i with
  | O => Fail Undefined
  | S j => Ok j
  end.

(** [v.back()] of a vector that may be empty. *)
Definition back_ {A} (v : list A) : Res A :=
  match v with
  | [] => Fail Undefined
  | a :: t => Ok (last t a)
  end.

(** The six knots A, B, C, D, E, F around the segment [i], "saturating
    at corner knots". *)
Definition controlKnots (knots : list VCurveKnot) (i : nat)
    : Res (VCurveKnot * VCurveKnot * VCurveKnot * VCurveKnot
           * VCurveKnot * VCurveKnot) :=
  let iC := i in
  let iD := (i + 1)%nat in
  C <- idx knots iC ;;
  D_ <- idx knots iD ;;
  iB <- (if k_isCorner C then Ok iC else dec iC) ;;
  B <- idx knots iB ;;
  iA <- (if k_isCorner B then Ok iB else dec iB) ;;
  A <- idx knots iA ;;
  let iE := if k_isCorner D_ then iD else (iD + 1)%nat in
  E <- idx knots iE ;;
  let iF := if k_isCorner E then iE else (iE + 1)%nat in
  F <- idx knots iF ;;
  Ok (A, B, C, D_, E, F).

(** One subdivision step (the body of the loop over [j]), for positions
    and for widths alike: [interp] is [interpolateUsingDynLevin] at the
    element type, [z] the value of a fresh element. *)
Definition subdivisionStep {T} (interp : T -> T -> T -> T -> D -> T) (z : T)
    (values : list T) : list T :=
  let p := (length values - 4)%nat in
  let newValues := repeat z (2 * p - 1) in
  let newValues :=
    fold_left (fun nv k => vset (2 * k) (nth (k + 2) values z) nv)
              (seq 0 p) newValues in
  fold_left
    (fun nv k =>
       let k1 := (2 * k)%nat in
       let k2 := (k1 + 2)%nat in
       let k25 := (k1 + 3)%nat in
       let k3 := (k1 + 4)%nat in
       let k4 := (k1 + 6)%nat in
       vset k25 (interp (nth k1 nv z) (nth k2 nv z) (nth k3 nv z)
                        (nth k4 nv z) tension) nv)
    (seq 0 (p - 3)) newValues.

Definition subdivide {T} (interp : T -> T -> T -> T -> D -> T) (z : T)
    (values : list T) : list T :=
  Nat.iter numSubdivisionSteps (subdivisionStep interp z) values.

(** A sample with its position, width and arclength assigned.  No
    statement of VCurve.cpp assigns the field [angle] of a sample: the
    model leaves there the value of [VCurveSample_init], and no theorem
    says anything of it. *)
Definition mkSample (p : glm.dvec2) (w a : D) : VCurveSample :=
  {| position := p; width := w;
     tangent := tangent VCurveSample_init;
     normal := normal VCurveSample_init;
     arclength := a; angle := angle VCurveSample_init |}.

(** "Remove duplicates and compute samples' arclength": the local vector
    [samples] of the segment [i], from the subdivided values. *)
Definition segmentSamples (i : nat) (samples_ : list VCurveSample)
    (positions : list glm.dvec2) (widths : list D)
    : Res (list VCurveSample) :=
  let P k := nth k positions zero2 in
  let W k := nth k widths d0 in
  arclengthC <-
    (if i =? 0 then Ok d0
     else
       s0 <- back_ samples_ ;;
       let dp := glm.sub (P 4%nat) (position s0) in
       let ds := glm.length dp in
       Ok (arclength s0 + ds)) ;;
  let sC := mkSample (P 4%nat) (W 4%nat) arclengthC in
  let samples := [sC] in
  let samples :=
    fold_left
      (fun samples k =>
         let s0 := back VCurveSample_init samples in
         let p1 := P k in
         let w1 := W k in
         let dp := glm.sub p1 (position s0) in
         let ds := glm.length dp in
         if ds >? eps then
           samples ++ [mkSample p1 w1 (arclength s0 + ds)]
         else samples)
      (seq 5 (length positions - 4 - 5)) samples in
  let samples :=
    if length samples =? 1 then
      let k := (length positions - 5)%nat in
      let p := P k in
      samples ++
        [mkSample p (W k)
           (glm.length
              (glm.sub p (position (nth 0 samples VCurveSample_init))))]
    else samples in
  assert (2 <=? length samples)%nat ;;
  Ok samples.

(** The tangent along [dp], of length [ds]; "Compute normal". *)
Definition tangentOf (dp : glm.dvec2) (ds : D) : glm.dvec2 :=
  if ds >? eps then glm.divs dp ds else glm.vec2 d1 d0.

Definition set_tangent_normal (t : glm.dvec2) (s : VCurveSample)
    : VCurveSample :=
  {| position := position s; width := width s;
     tangent := t;
     normal := glm.vec2 (- glm.y t) (glm.x t);
     arclength := arclength s; angle := angle s |}.

(** "Compute tangents and normals" of the local samples but the last. *)
Definition computeTangents (C : VCurveKnot) (samples_ : list VCurveSample)
    (samples : list VCurveSample) : Res (list VCurveSample) :=
  let sm ss k := nth k ss VCurveSample_init in
  samples <-
    (if k_isCorner C then
       let s0 := sm samples 0%nat in
       let s1 := sm samples 1%nat in
       let dp := glm.sub (position s1) (position s0) in
       let ds := arclength s1 - arclength s0 in
       Ok (vset 0 (set_tangent_normal (tangentOf dp ds) s0) samples)
     else
       s0 <- back_ samples_ ;;
       let s1 := sm samples 0%nat in
       let s2 := sm samples 1%nat in
       let dp := glm.sub (position s2) (position s0) in
       let ds := glm.length dp in
       Ok (vset 0 (set_tangent_normal (tangentOf dp ds) s1) samples)) ;;
  Ok (fold_left
        (fun ss k =>
           let s0 := sm ss (k - 1)%nat in
           let s1 := sm ss k in
           let s2 := sm ss (k + 1)%nat in
           let dp := glm.sub (position s2) (position s0) in
           let ds := glm.length dp in
           vset k (set_tangent_normal (tangentOf dp ds) s1) ss)
        (seq 1 (length samples - 1 - 1)) samples).

(** The two direction angles at a corner: [a1], and [a2] made "equivalent
    to a2, closest to a1". *)
Definition cornerAngles (p0 p1 p2 : glm.dvec2) : D * D :=
  let a1 := atan2 (glm.y p1 - glm.y p0) (glm.x p1 - glm.x p0) in
  let a2 := atan2 (glm.y p2 - glm.y p1) (glm.x p2 - glm.x p1) in
  let a2 :=
    if a2 >? a1 + M_PI then a2 - d_of_nat 2 * M_PI
    else if a2 <? a1 - M_PI then a2 + d_of_nat 2 * M_PI
    else a2 in
  (a1, a2).

(** The number [na] of samples added at a corner:
    [unsigned int na = std::floor(...)].  The conversion is defined in
    C++ when the floor is in [0, 2^32) only; [d_floor_uint] is a total
    function (see the instances), and it is the value of the conversion
    where this one is defined. *)
Definition numCornerSamples (maxSampleAngle a1 a2 : D) : nat :=
  d_floor_uint (dabs (a2 - a1) / maxSampleAngle).

(** "Create samples": the samples added in place at a corner knot. *)
Definition cornerSamples (maxSampleAngle : D) (s0 s1 s2 : VCurveSample)
    : list VCurveSample :=
  let '(a1, a2) := cornerAngles (position s0) (position s1) (position s2) in
  let na := numCornerSamples maxSampleAngle a1 a2 in
  map (fun k =>
         let u := d_of_nat k / d_of_nat na in
         let a := a1 + u * (a2 - a1) in
         let cos_a := cos a in
         let sin_a := sin a in
         {| position := position s1;
            width := width s1;
            tangent := glm.vec2 cos_a sin_a;
            normal := glm.vec2 (- sin_a) cos_a;
            arclength := arclength s1;
            angle := angle VCurveSample_init |})
      (seq 0 na).

(** The body of the loop "Create all but last sample" for the segment
    [i]: the new value of [samples_]. *)
Definition segment (params : VCurveParams) (knots : list VCurveKnot)
    (i : nat) (samples_ : list VCurveSample) : Res (list VCurveSample) :=
  '(A, B, C, D_, E, F) <- controlKnots knots i ;;
  let positions :=
    [zero2; zero2; k_position A; k_position B; k_position C;
     k_position D_; k_position E; k_position F; zero2; zero2] in
  let widths :=
    [d0; d0; k_width A; k_width B; k_width C;
     k_width D_; k_width E; k_width F; d0; d0] in
  let positions := subdivide interpolateUsingDynLevin_vec zero2 positions in
  let widths := subdivide interpolateUsingDynLevin d0 widths in
  samples <- segmentSamples i samples_ positions widths ;;
  samples <- computeTangents C samples_ samples ;;
  samples_ <-
    (if (k_isCorner C && (0 <? i)%nat)%bool then
       assert (1 <=? length samples_)%nat ;;
       s0 <- back_ samples_ ;;
       let s1 := nth 0 samples VCurveSample_init in
       let s2 := nth 1 samples VCurveSample_init in
       Ok (samples_ ++ cornerSamples (maxSampleAngle params) s0 s1 s2)
     else Ok samples_) ;;
  Ok (samples_ ++ firstn (length samples - 1) samples).

(** "Create last sample". *)
Definition lastSample (knots : list VCurveKnot)
    (samples_ : list VCurveSample) : VCurveSample :=
  let n := length knots in
  let kn := nth (n - 1) knots VCurveKnot_init in
  let p := k_position kn in
  let w := k_width kn in
  let '(a, t) :=
    if (0 <? length samples_)%nat then
      let s0 := back VCurveSample_init samples_ in
      let dp := glm.sub p (position s0) in
      let ds := glm.length dp in
      (arclength s0 + ds, tangentOf dp ds)
    else (d0, glm.vec2 d1 d0) in
  set_tangent_normal t (mkSample p w a).

(** The loop over the segments [i = 0 .. n-2]. *)
Fixpoint segments (params : VCurveParams) (knots : list VCurveKnot)
    (segs : list nat) (samples_ : list VCurveSample)
    : Res (list VCurveSample) :=
  match segs with
  | [] => Ok samples_
  | i :: segs =>
    samples_ <- segment params knots i samples_ ;;
    segments params knots segs samples_
  end.

(** VCurve::computeSamples_ *)
Definition computeSamples_ (params : VCurveParams)
    (knots : list VCurveKnot) : Res (list VCurveSample) :=
  let n := length knots in
  assert (0 <? n)%nat ;;
  assert (k_isCorner (nth 0 knots VCurveKnot_init)) ;;
  assert (k_isCorner (nth (n - 1) knots VCurveKnot_init)) ;;
  samples_ <- segments params knots (seq 0 (n - 1)) [] ;;
  let samples_ := samples_ ++ [lastSample knots samples_] in
  assert (0 <? length samples_)%nat ;;
  Ok samples_.

(** VCurve::computeRegPositions_ and VCurve::continueFit *)
Definition continueFit (inputSample : VCurveInputSample) (c : VCurve)
    : Res VCurve :=
  let inputSamples := appendInputSample_ inputSample (inputSamples_ c) in
  assert (0 <? length inputSamples)%nat ;;
  regFits <- computeRegFits_ inputSamples (regFits_ c) ;;
  regPositions <- averageRegFits_ inputSamples regFits (regPositions_ c) ;;
  regWidths <- computeRegWidths_ inputSamples (regWidths_ c) ;;
  knots <- computeKnots_ (params_ c) inputSamples regPositions regWidths ;;
  samples <- computeSamples_ (params_ c) knots ;;
  Ok {| params_ := params_ c;
        inputSamples_ := inputSamples;
        regFits_ := regFits;
        regPositions_ := regPositions;
        regWidths_ := regWidths;
        knots_ := knots;
        samples_ := samples |}.

End VCurve.

(** ** Notions the statements use *)

Section Notions.
Context {Sc : Scalar}.

Local Open Scope D_scope.

(** The distance from [p] to [q], as the code computes it:
    [glm::length(q - p)]. *)
Definition dist (p q : glm.dvec2) : D := glm.length (glm.sub q p).

(** The distances between the consecutive knots of a vector. *)
Fixpoint gaps (ks : list VCurveKnot) : list D :=
  match ks with
  | [] => []
  | a :: t =>
    match t with
    | [] => []
    | b :: _ => dist (k_position a) (k_position b) :: gaps t
    end
  end.

(** Each sample but the first has the arclength of the sample before it
    plus the distance between the two. *)
Fixpoint chained (ss : list VCurveSample) : Prop :=
  match ss with
  | [] => True
  | a :: t =>
    match t with
    | [] => True
    | b :: _ =>
      arclength b = arclength a + dist (position a) (position b)
      /\ chained t
    end
  end.

(** [unsigned int na = std::floor(q)] is defined: [q] is not below some
    [n < 2^32] and is below [n + 1], for the comparison of [double].  This
    leaves out a NaN, an infinite and a negative [q]. *)
Definition floorDefined (q : D) : Prop :=
  exists n : nat,
    (Z.of_nat n < 4294967296)%Z
    /\ (q <? d_of_nat n) = false
    /\ (q <? d_of_nat (n + 1)) = true.
End Notions.

(** ** The two instances of [Scalar] *)

(** IEEE 754 binary64, the [double] of the C++ code. *)
Module Binary64.

(** [(double) k] for a count [k]. *)
Definition of_nat (n : nat) : float :=
  PrimFloat.of_uint63 (Uint63.of_Z (Z.of_nat n)).

(** [std::floor(x)] converted to [unsigned int].  The conversion is
    defined for [0 <= floor x < 2^32] only; the model gives 0 for a
    negative, infinite or NaN argument. *)
Definition floor_uint (x : float) : nat :=
  match Prim2SF x with
  | S754_finite false m e =>
      Z.to_nat (if (0 <=? e)%Z then Z.pos m * 2 ^ e
                else Z.pos m / 2 ^ (- e))
  | _ => 0%nat
  end.

#[export] Instance scalar : Scalar := {|
  D := float;
  dadd := PrimFloat.add;
  dsub := PrimFloat.sub;
  dmul := PrimFloat.mul;
  ddiv := PrimFloat.div;
  dneg := PrimFloat.opp;
  dsqrt := PrimFloat.sqrt;
  dabs := PrimFloat.abs;
  dlt := PrimFloat.ltb;
  d_of_nat := of_nat;
  d_floor_uint := floor_uint;
  lit_0_1 := 0.1%float;
  lit_0_67 := 0.67%float;
  lit_0_33 := 0.33%float;
  lit_0_25 := 0.25%float;
  lit_0_50 := 0.5%float;
  lit_1em10 := 1e-10%float;
  M_PI := 3.14159265358979323846%float
|}.

End Binary64.

(** The real numbers. *)
Module RealNum.

Definition ltb (a b : R) : bool := if Rlt_dec a b then true else false.

(** [std::floor(x)] converted to [unsigned int]. *)
Definition floor_uint (x : R) : nat := Z.to_nat (Int_part x).

#[export] Instance scalar : Scalar := {|
  D := R;
  dadd := Rplus;
  dsub := Rminus;
  dmul := Rmult;
  ddiv := Rdiv;
  dneg := Ropp;
  dsqrt := R_sqrt.sqrt;
  dabs := Rabs;
  dlt := ltb;
  d_of_nat := INR;
  d_floor_uint := floor_uint;
  lit_0_1 := (1 / 10)%R;
  lit_0_67 := (67 / 100)%R;
  lit_0_33 := (33 / 100)%R;
  lit_0_25 := (25 / 100)%R;
  lit_0_50 := (50 / 100)%R;
  lit_1em10 := (1 / 10000000000)%R;
  M_PI := PI
|}.

(** [std::atan2(y, x)] on the reals: the angle of the point [(x, y)],
    in the interval (-PI, PI]. *)
Definition arg2 (y x : R) : R :=
  if Rlt_dec 0 x then atan (y / x)
  else if Rlt_dec x 0 then
    if Rle_dec 0 y then (atan (y / x) + PI)%R else (atan (y / x) - PI)%R
  else if Rlt_dec 0 y then (PI / 2)%R
  else if Rlt_dec y 0 then (- PI / 2)%R
  else 0%R.

(** An instance of the collaborators over the reals, to run the theorems
    on concrete inputs: the 4-point stencil
    [-w a + (1/2 + w) b + (1/2 + w) c - w d]; the supplementary angle as
    the turn between the two directions; a "fit" that keeps the points it
    is given and is evaluated at its middle point. *)
Definition stencil (a b c d w : R) : R :=
  (- w * a + (1 / 2 + w) * b + (1 / 2 + w) * c - w * d)%R.

Definition stencil_vec (a b c d : glm.dvec2) (w : R) : glm.dvec2 :=
  glm.vec2 (stencil (glm.x a) (glm.x b) (glm.x c) (glm.x d) w)
           (stencil (glm.y a) (glm.y b) (glm.y c) (glm.y d) w).

Definition turn (p0 p1 p2 : glm.dvec2) : R :=
  let a1 := arg2 (glm.y p1 - glm.y p0) (glm.x p1 - glm.x p0) in
  let a2 := arg2 (glm.y p2 - glm.y p1) (glm.x p2 - glm.x p1) in
  Rmin (Rabs (a2 - a1)) (2 * PI - Rabs (a2 - a1)).

#[export] Instance collaborators : Collaborators := {|
  CubicCurve := list glm.dvec2;
  CubicCurve_init := [];
  fitQuadratic := fun pts => pts;
  pos := fun c _ => nth (length c / 2) c (glm.vec2 0%R 0%R);
  computeSupplementaryAngle := turn;
  interpolateUsingDynLevin_vec := stencil_vec;
  interpolateUsingDynLevin := stencil;
  atan2 := arg2;
  cos := Rtrigo_def.cos;
  sin := Rtrigo_def.sin
|}.

End RealNum.

(** * Verification *)

Unset Implicit Arguments.

(** ** Vectors *)

Section VectorFacts.
Context {A : Type}.
Implicit Types (v : list A) (a z : A) (i j n : nat).

Lemma vset_length i a v : length (vset i a v) = length v.
Proof.
  revert i; induction v as [|h t IH]; intros [|i]; simpl; auto.
Qed.

Lemma nth_vset_eq i a v z : i < length v -> nth i (vset i a v) z = a.
Proof.
  revert i; induction v as [|h t IH]; intros [|i]; simpl; intros H;
    try lia; auto.
  apply IH; lia.
Qed.

Lemma nth_vset_neq i j a v z : i <> j -> nth j (vset i a v) z = nth j v z.
Proof.
  revert i j; induction v as [|h t IH]; intros [|i] [|j]; simpl; intros H;
    try lia; auto.
Qed.

Lemma nth_vset i j a v z :
  nth j (vset i a v) z =
  if (i =? j) && (i <? length v) then a else nth j v z.
Proof.
  destruct (Nat.eqb_spec i j) as [->|Hne]; simpl.
  - destruct (Nat.ltb_spec j (length v)) as [Hlt|Hge].
    + now apply nth_vset_eq.
    + rewrite !nth_overflow; auto. now rewrite vset_length.
  - now apply nth_vset_neq.
Qed.

Lemma vset_same i v z : vset i (nth i v z) v = v.
Proof.
  revert i; induction v as [|h t IH]; intros [|i]; simpl; auto.
  now rewrite IH.
Qed.

Lemma firstn_vset_ge n i a v : n <= i -> firstn n (vset i a v) = firstn n v.
Proof.
  revert n i; induction v as [|h t IH]; intros [|n] [|i]; simpl; intros H;
    try lia; auto.
  rewrite IH; auto; lia.
Qed.

Lemma resize_length n z v : length (resize n z v) = n.
Proof.
  unfold resize. rewrite length_app, length_firstn, repeat_length. lia.
Qed.

Lemma resize_shrink n z v : n <= length v -> resize n z v = firstn n v.
Proof.
  intros H. unfold resize.
  replace (n - length v) with 0 by lia. simpl. now rewrite app_nil_r.
Qed.

(** A loop of assignments keeps the size. *)
Lemma fold_vset_length {I : Type} (f : list A -> I -> A) (g : I -> nat)
    (l : list I) v :
  length (fold_left (fun w (x : I) => vset (g x) (f w x) w) l v) = length v.
Proof.
  revert v; induction l as [|x l IH]; intros v; simpl; auto.
  now rewrite IH, vset_length.
Qed.

Lemma back_last z v : back z v = last v z.
Proof. reflexivity. Qed.

Lemma last_nth z v : last v z = nth (length v - 1) v z.
Proof.
  induction v as [|h [|h' t] IH]; simpl in *; auto.
  rewrite IH. now rewrite Nat.sub_0_r.
Qed.

Lemma at_Ok v i a : at_ v i = Ok a <-> nth_error v i = Some a.
Proof.
  unfold at_. destruct (nth_error v i); split; intros H;
    inversion H; auto.
Qed.
End VectorFacts.

Lemma bind_Ok {A B} (m : Res A) (k : A -> Res B) b :
  bind m k = Ok b <-> exists a, m = Ok a /\ k a = Ok b.
Proof.
  destruct m; simpl; split.
  - eauto.
  - now intros (a' & [= ->] & H).
  - discriminate.
  - now intros (a' & [=] & _).
Qed.

(** ** Input filter, read access, reset and the first sample *)

Section Basic.
Context {Sc : Scalar} {Co : Collaborators}.

Local Open Scope D_scope.

(** The condition under which [appendInputSample_] keeps a further sample:
    it is farther from the last accepted one than [0.1 * resolution]. *)
Definition farEnough (s : VCurveInputSample)
    (h : list VCurveInputSample) : bool :=
  glm.length (glm.sub (in_position s)
                      (in_position (last h VCurveInputSample_init)))
  >? lit_0_1 * in_resolution s.

Lemma app_one_neq {A} (l : list A) (a : A) : l ++ [a] <> l.
Proof.
  intros H. apply (f_equal (@length A)) in H.
  rewrite length_app in H. simpl in H. lia.
Qed.

Lemma appendInputSample_cases (s : VCurveInputSample)
    (h : list VCurveInputSample) :
  appendInputSample_ s h =
  match h with
  | [] => [s]
  | _ :: _ => if farEnough s h then h ++ [s] else h
  end.
Proof.
  unfold appendInputSample_, farEnough.
  destruct h as [|a t]; [reflexivity|].
  change (length (a :: t) =? 0)%nat with false. cbv iota.
  now rewrite <- last_nth.
Qed.

Lemma appendInputSample_nonempty (s : VCurveInputSample)
    (h : list VCurveInputSample) :
  appendInputSample_ s h <> [].
Proof.
  rewrite appendInputSample_cases.
  destruct h as [|a t]; [discriminate|].
  destruct (farEnough s (a :: t)); [|discriminate].
  intros E. apply app_eq_nil in E. destruct E; discriminate.
Qed.

(** C8.  [appendInputSample_] appends the sample to the input history
    exactly when the history is empty or the distance from the last
    accepted sample exceeds [0.1 * resolution] of the new sample; otherwise
    it leaves the history as it is.  It is a total function, and the
    history it returns is never empty. *)
Theorem appendInputSample_iff (s : VCurveInputSample)
    (h : list VCurveInputSample) :
  (appendInputSample_ s h = h ++ [s] <-> h = [] \/ farEnough s h = true)
  /\ (appendInputSample_ s h = h <-> ~ (h = [] \/ farEnough s h = true))
  /\ appendInputSample_ s h <> [].
Proof.
  rewrite appendInputSample_cases.
  destruct h as [|a t].
  - simpl. repeat split; auto; try discriminate.
    intros H; exfalso; apply H; now left.
  - destruct (farEnough s (a :: t)) eqn:E.
    + repeat split; auto.
      * intros H. exfalso. revert H. apply app_one_neq.
      * intros H. exfalso. apply H. now right.
      * discriminate.
    + repeat split; try discriminate.
      * intros H. exfalso. symmetry in H. revert H. apply app_one_neq.
      * intros [H|H]; discriminate.
      * intros _ [H|H]; discriminate.
Qed.

(** C9.  [knot(i)] and [sample(i)] fail with [std::out_of_range] exactly
    when [i] is not below the count; below it they return the element of
    index [i].  They are functions of the curve: no state changes. *)
Theorem knot_sample_range (c : VCurve) (i : nat) :
  (knot c i = Fail OutOfRange <-> numKnots c <= i)
  /\ (forall k, knot c i = Ok k <->
                i < numKnots c /\ nth_error (knots c) i = Some k)
  /\ (sample c i = Fail OutOfRange <-> numSamples c <= i)
  /\ (forall s, sample c i = Ok s <->
                i < numSamples c /\ nth_error (samples c) i = Some s).
Proof.
  unfold knot, sample, numKnots, numSamples, knots, samples, at_.
  repeat split.
  - destruct (nth_error (knots_ c) i) eqn:E; [discriminate|].
    intros _. now apply nth_error_None.
  - intros H. apply nth_error_None in H. now rewrite H.
  - destruct (nth_error (knots_ c) i) eqn:E; [|discriminate].
    apply nth_error_Some. congruence.
  - destruct (nth_error (knots_ c) i); congruence.
  - intros [_ ->]. reflexivity.
  - destruct (nth_error (samples_ c) i) eqn:E; [discriminate|].
    intros _. now apply nth_error_None.
  - intros H. apply nth_error_None in H. now rewrite H.
  - destruct (nth_error (samples_ c) i) eqn:E; [|discriminate].
    apply nth_error_Some. congruence.
  - destruct (nth_error (samples_ c) i); congruence.
  - intros [_ ->]. reflexivity.
Qed.

(** The curve after [beginFit] and one [continueFit]. *)
Definition firstKnot (s : VCurveInputSample) : VCurveKnot :=
  {| k_position := in_position s; k_width := in_width s;
     k_angle := d0; k_isCorner := true |}.

Definition firstSample (s : VCurveInputSample) : VCurveSample :=
  {| position := in_position s; width := in_width s;
     tangent := glm.vec2 d1 d0;
     normal := glm.vec2 (- d0) d1;
     arclength := d0;
     angle := angle VCurveSample_init |}.

Lemma continueFit_first (s : VCurveInputSample) (c : VCurve) :
  exists c1,
    continueFit s (beginFit c) = Ok c1
    /\ inputSamples_ c1 = [s]
    /\ knots_ c1 = [firstKnot s]
    /\ samples_ c1 = [firstSample s].
Proof.
  eexists. split; [reflexivity|]. repeat split.
Qed.
End Basic.

(** ** The merge pass: the loop in place against the scan it performs *)

Section Merge.
Context {Sc : Scalar}.

Local Open Scope D_scope.

(** The merge criterion on the three distances around [B] and [C]. *)
Definition mergeCriterion (AB BC CD : D) : bool :=
  ((r * BC <? AB) && (r * BC <? CD))%bool.

(** The knot that stands for [B] and [C] after a merge: [C] when
    [angleB < angleC], [B] otherwise. *)
Definition merged (B C : VCurveKnot) : VCurveKnot :=
  if k_angle B <? k_angle C then C else B.

(** The scan over the windows A, B, C, D as a function on lists: [ks] are
    the knots that follow A, and [i] is the index of A in the vector the
    pass started from, so that [nth i d], [nth (i+1) d] and [nth (i+2) d]
    are AB, BC and CD "before merging". *)
Fixpoint mergeFrom (d : list D) (i : nat) (ks : list VCurveKnot)
    : list VCurveKnot :=
  match ks with
  | [] => []
  | B :: tl =>
    match tl with
    | [] => ks
    | C :: tl2 =>
      match tl2 with
      | [] => ks
      | _ :: _ =>
        if mergeCriterion (nth i d d0) (nth (i + 1) d d0) (nth (i + 2) d d0)
        then merged B C :: mergeFrom d (i + 2) tl2
        else B :: mergeFrom d (i + 1) tl
      end
    end
  end.

Definition mergeScan (d : list D) (knots : list VCurveKnot)
    : list VCurveKnot :=
  match knots with
  | [] => []
  | A :: ks => A :: mergeFrom d 0 ks
  end.

Lemma vset_app_mid {A} (out tail : list A) (x a : A) :
  vset (length out) a (out ++ x :: tail) = out ++ a :: tail.
Proof. induction out as [|h t IH]; simpl; auto. now rewrite IH. Qed.

Lemma nth_app_mid {A} (out tail : list A) (x z : A) :
  nth (length out) (out ++ x :: tail) z = x.
Proof. induction out as [|h t IH]; simpl; auto. Qed.

(** What is left to do once the first loop stops: copy, then shrink. *)
Definition finish (m : nat) (st : list VCurveKnot * nat * nat)
    : list VCurveKnot :=
  let '(knots, i1, i2) := st in
  let '(knots, _, i2) := copyLoop m m knots i1 i2 in
  resize (i2 + 1) VCurveKnot_init knots.

Local Close Scope D_scope.

(** Overwriting the slot after [out]: the element written follows [out],
    and what was waiting behind keeps its place. *)
Lemma shift_junk {A} (junk rest : list A) (b : A) :
  exists x junk',
    junk ++ b :: rest = x :: junk' ++ rest /\ length junk' = length junk.
Proof.
  destruct junk as [|j js].
  - exists b, []. auto.
  - exists j, (js ++ [b]). rewrite <- app_assoc. simpl.
    rewrite length_app. simpl. split; auto. lia.
Qed.

Lemma nth_out_junk {A} (out junk rest : list A) (b z : A) (i : nat) :
  length out + length junk = i ->
  nth i (out ++ junk ++ b :: rest) z = b.
Proof.
  intros <-. rewrite app_assoc, <- length_app. apply nth_app_mid.
Qed.

Lemma copyLoop_spec (fuel m : nat) (out junk rest : list VCurveKnot)
    (i1 i2 : nat) :
  length rest <= fuel ->
  length out = i2 + 1 ->
  length out + length junk = i1 + 1 ->
  m = i1 + 1 + length rest ->
  exists junk',
    copyLoop fuel m (out ++ junk ++ rest) i1 i2
    = ((out ++ rest) ++ junk', i1 + length rest, i2 + length rest).
Proof.
  revert out junk rest i1 i2.
  induction fuel as [|fuel IH]; intros out junk rest i1 i2 Hf Ho Hj Hm.
  - destruct rest; simpl in Hf; [|lia]. simpl.
    exists junk. rewrite !app_nil_r, !Nat.add_0_r. reflexivity.
  - destruct rest as [|B rest].
    + simpl. exists junk. simpl in Hm.
      destruct (Nat.ltb_spec (i1 + 1) m); [lia|].
      rewrite !app_nil_r, !Nat.add_0_r. reflexivity.
    + cbn [copyLoop]. simpl in Hm, Hf.
      destruct (Nat.ltb_spec (i1 + 1) m); [|lia].
      cbv zeta.
      rewrite (nth_out_junk out junk rest B VCurveKnot_init (i1 + 1) Hj).
      destruct (shift_junk junk rest B) as (x & junk' & -> & Hl).
      rewrite <- Ho, vset_app_mid.
      destruct (IH (out ++ [B]) junk' rest (i1 + 1) (length out)) as [j' E];
        try (rewrite ?length_app; simpl; lia).
      rewrite <- !app_assoc in E. simpl in E.
      rewrite Ho in E |- *. rewrite E.
      exists j'. rewrite <- !app_assoc. simpl.
      replace (i1 + S (length rest)) with (i1 + 1 + length rest) by lia.
      replace (i2 + S (length rest)) with (i2 + 1 + length rest) by lia.
      reflexivity.
Qed.

Lemma finish_spec (m : nat) (out junk rest : list VCurveKnot) (i1 i2 : nat) :
  length out = i2 + 1 ->
  length out + length junk = i1 + 1 ->
  m = i1 + 1 + length rest ->
  finish m (out ++ junk ++ rest, i1, i2) = out ++ rest.
Proof.
  intros Ho Hj Hm. unfold finish.
  destruct (copyLoop_spec m m out junk rest i1 i2) as [j' E]; auto; try lia.
  rewrite E. rewrite resize_shrink.
  - rewrite firstn_app.
    replace (i2 + length rest + 1 - length (out ++ rest)) with 0
      by (rewrite length_app; lia).
    rewrite firstn_all2 by (rewrite length_app; lia).
    simpl. now rewrite app_nil_r.
  - rewrite !length_app. lia.
Qed.

Lemma mergeFrom_step (d : list D) (i : nat) (B C X : VCurveKnot)
    (ks : list VCurveKnot) :
  mergeFrom d i (B :: C :: X :: ks) =
  if mergeCriterion (nth i d d0) (nth (i + 1) d d0) (nth (i + 2) d d0)
  then merged B C :: mergeFrom d (i + 2) (X :: ks)
  else B :: mergeFrom d (i + 1) (C :: X :: ks).
Proof. reflexivity. Qed.

Lemma mergeFrom_short (d : list D) (i : nat) (ks : list VCurveKnot) :
  length ks < 3 -> mergeFrom d i ks = ks.
Proof.
  destruct ks as [|B [|C [|X ks]]]; simpl; auto; lia.
Qed.

(** The loop in place computes the scan: the knots it has not read yet are
    never overwritten. *)
Lemma mergeLoop_spec (fuel m : nat) (d : list D)
    (out junk rest : list VCurveKnot) (i1 i2 : nat) :
  length rest <= fuel ->
  length out = i2 + 1 ->
  length out + length junk = i1 + 1 ->
  m = i1 + 1 + length rest ->
  finish m (mergeLoop fuel d m (out ++ junk ++ rest) i1 i2)
  = out ++ mergeFrom d i1 rest.
Proof.
  revert out junk rest i1 i2.
  induction fuel as [|fuel IH]; intros out junk rest i1 i2 Hf Ho Hj Hm.
  - destruct rest; simpl in Hf; [|lia]. simpl mergeLoop. simpl mergeFrom.
    now apply finish_spec.
  - cbn [mergeLoop].
    destruct (Nat.ltb_spec (i1 + 3) m) as [Hlt|Hge].
    + destruct rest as [|B [|C [|X rest]]]; simpl in Hm; try lia.
      cbv zeta.
      rewrite (nth_out_junk out junk (C :: X :: rest) B VCurveKnot_init (i1 + 1) Hj).
      assert (HC : nth (i1 + 1 + 1) (out ++ junk ++ B :: C :: X :: rest)
                       VCurveKnot_init = C).
      { replace (out ++ junk ++ B :: C :: X :: rest)
          with (out ++ (junk ++ [B]) ++ C :: X :: rest)
          by (now rewrite <- app_assoc).
        apply nth_out_junk. rewrite length_app. simpl. lia. }
      rewrite HC.
      replace (i1 + 1 - 1) with i1 by lia.
      rewrite mergeFrom_step.
      fold (mergeCriterion (nth i1 d d0) (nth (i1 + 1) d d0)
                           (nth (i1 + 1 + 1) d d0)).
      replace (i1 + 1 + 1) with (i1 + 2) by lia.
      simpl in Hf.
      destruct (mergeCriterion _ _ _).
      * (* merge *)
        assert (E : forall K,
                   finish m (mergeLoop fuel d m
                               (vset (i2 + 1) K
                                     (out ++ junk ++ B :: C :: X :: rest))
                               (i1 + 2) (i2 + 1))
                   = out ++ K :: mergeFrom d (i1 + 2) (X :: rest)).
        { intros K.
          destruct (shift_junk junk (C :: X :: rest) B) as (x & j1 & -> & Hl).
          rewrite <- Ho, vset_app_mid.
          replace (out ++ K :: j1 ++ C :: X :: rest)
            with ((out ++ [K]) ++ (j1 ++ [C]) ++ X :: rest)
            by (rewrite <- !app_assoc; reflexivity).
          rewrite Ho.
          rewrite IH; try (rewrite ?length_app; simpl; lia).
          now rewrite <- app_assoc. }
        unfold merged.
        replace (i1 + 1 + 1) with (i1 + 2) by lia.
        destruct (dlt (k_angle B) (k_angle C)); apply E.
      * (* no merge *)
        destruct (shift_junk junk (C :: X :: rest) B) as (x & j1 & -> & Hl).
        rewrite <- Ho, vset_app_mid.
        replace (out ++ B :: j1 ++ C :: X :: rest)
          with ((out ++ [B]) ++ j1 ++ C :: X :: rest)
          by (rewrite <- !app_assoc; reflexivity).
        rewrite Ho.
        rewrite IH; try (rewrite ?length_app; simpl; lia).
        now rewrite <- app_assoc.
    + rewrite mergeFrom_short by lia.
      now apply finish_spec.
Qed.

Lemma mergeKnots_scan (d : list D) (knots : list VCurveKnot) :
  knots <> [] -> mergeKnots d knots = mergeScan d knots.
Proof.
  destruct knots as [|A ks]; [congruence|]. intros _.
  unfold mergeKnots, mergeScan.
  pose proof (mergeLoop_spec (length (A :: ks)) (length (A :: ks))
                              d [A] [] ks 0 0) as H.
  unfold finish in H. simpl app in H.
  apply H; simpl; lia.
Qed.
End Merge.

(** ** Distances between knots, over the reals *)

Section RealSpacing.
Local Existing Instance RealNum.scalar.

Local Open Scope R_scope.

Lemma ltb_true (a b : R) : RealNum.ltb a b = true <-> a < b.
Proof. unfold RealNum.ltb. destruct (Rlt_dec a b); split; auto; discriminate. Qed.

Lemma ltb_false (a b : R) : RealNum.ltb a b = false <-> b <= a.
Proof.
  unfold RealNum.ltb. destruct (Rlt_dec a b); split; auto; try discriminate;
    lra.
Qed.

Lemma dist_euc_eq (p q : glm.dvec2) :
  dist p q = dist_euc (glm.x q) (glm.y q) (glm.x p) (glm.y p).
Proof. reflexivity. Qed.

Lemma dist_nonneg (p q : glm.dvec2) : 0 <= dist p q.
Proof. apply sqrt_pos. Qed.

Lemma dist_sym (p q : glm.dvec2) : dist p q = dist q p.
Proof. rewrite !dist_euc_eq. apply distance_symm. Qed.

Lemma dist_refl (p : glm.dvec2) : dist p p = 0.
Proof. rewrite dist_euc_eq. apply distance_refl. Qed.

Lemma dist_triangle (p q m : glm.dvec2) :
  dist p q <= dist p m + dist m q.
Proof.
  rewrite (dist_sym p q), (dist_sym p m), (dist_sym m q), !dist_euc_eq.
  apply triangle.
Qed.

Lemma gaps_cons (a b : VCurveKnot) (t : list VCurveKnot) :
  gaps (a :: b :: t) = dist (k_position a) (k_position b) :: gaps (b :: t).
Proof. reflexivity. Qed.

Lemma gaps_length (ks : list VCurveKnot) : length (gaps ks) = (length ks - 1)%nat.
Proof.
  induction ks as [|a [|b t] IH]; simpl in *; auto. rewrite IH. lia.
Qed.

Lemma criterion_true (AB BC CD : R) :
  mergeCriterion AB BC CD = true <-> 4 * BC < AB /\ 4 * BC < CD.
Proof.
  unfold mergeCriterion, r. cbn [dlt dmul d_of_nat RealNum.scalar].
  rewrite andb_true_iff, !ltb_true.
  replace (INR 4) with 4 by (simpl; lra). tauto.
Qed.

Section Scan.
(** [G] is a lower bound on distances: it holds of every distance of the
    vector the pass starts from, and of every larger distance. *)
Variable G : R -> Prop.
Hypothesis G_up : forall a b, G a -> a <= b -> G b.

Variable d : list R.

(** The last knot written, [L], against the knot [A] of the vector the
    scan has reached: they are the same point, or [L] is the knot that a
    merge kept in front of [A], at a distance four times smaller than
    the one from [A] to the next knot. *)
Definition lastWritten (L A : VCurveKnot) (next : R) (more : Prop) : Prop :=
  dist (k_position L) (k_position A) = 0
  \/ (G (dist (k_position L) (k_position A))
      /\ 4 * dist (k_position L) (k_position A) < next
      /\ more).

Lemma first_gap (A L B : VCurveKnot) (more : Prop) :
  G (dist (k_position A) (k_position B)) ->
  lastWritten L A (dist (k_position A) (k_position B)) more ->
  G (dist (k_position L) (k_position B)).
Proof.
  intros HG [H0|(Hg & H4 & _)].
  - apply (G_up _ _ HG).
    pose proof (dist_triangle (k_position A) (k_position B) (k_position L)).
    rewrite (dist_sym (k_position A) (k_position L)) in H. lra.
  - apply (G_up _ _ Hg).
    pose proof (dist_triangle (k_position A) (k_position B) (k_position L)).
    pose proof (dist_nonneg (k_position L) (k_position A)).
    rewrite (dist_sym (k_position A) (k_position L)) in H. lra.
Qed.

Lemma second_gap (A L B C : VCurveKnot) (more : Prop) :
  G (dist (k_position B) (k_position C)) ->
  4 * dist (k_position B) (k_position C)
  < dist (k_position A) (k_position B) ->
  lastWritten L A (dist (k_position A) (k_position B)) more ->
  G (dist (k_position L) (k_position C)).
Proof.
  intros HG Hc Hl. apply (G_up _ _ HG).
  pose proof (dist_triangle (k_position A) (k_position B) (k_position L)) as T1.
  pose proof (dist_triangle (k_position L) (k_position B) (k_position C)) as T2.
  pose proof (dist_nonneg (k_position L) (k_position A)).
  pose proof (dist_nonneg (k_position B) (k_position C)).
  rewrite (dist_sym (k_position A) (k_position L)) in T1.
  rewrite (dist_sym (k_position C) (k_position B)) in T2.
  destruct Hl as [Hz|(_ & H4 & _)]; lra.
Qed.

Lemma skipn_next {A} (i : nat) (l t : list A) (x : A) :
  skipn i l = x :: t -> skipn (i + 1) l = t.
Proof.
  revert l; induction i as [|i IH]; intros [|a l]; simpl; try discriminate.
  - now intros [= _ ->].
  - apply IH.
Qed.

Lemma skipn_head (i : nat) (t : list R) (x : R) :
  skipn i d = x :: t -> nth i d 0 = x.
Proof.
  intros H. rewrite <- (Nat.add_0_r i), <- nth_skipn, H. reflexivity.
Qed.

Lemma gaps_mergeFrom (n : nat) :
  forall (ks : list VCurveKnot) (i : nat) (A L : VCurveKnot) (dtl : list R),
    (length ks <= n)%nat ->
    skipn i d = gaps (A :: ks) ++ dtl ->
    Forall G (gaps (A :: ks)) ->
    lastWritten L A (nth i d 0) (ks <> []) ->
    Forall G (gaps (L :: mergeFrom d i ks)).
Proof.
  induction n as [|n IH]; intros ks i A L dtl Hn Hd HG Hl.
  - destruct ks; simpl in Hn; [|lia]. simpl. constructor.
  - destruct ks as [|B ks]; [simpl; constructor|].
    rewrite gaps_cons in Hd, HG. rewrite <- app_comm_cons in Hd.
    pose proof (skipn_head _ _ _ Hd) as HAB.
    pose proof (skipn_next _ _ _ _ Hd) as Hd1.
    rewrite HAB in Hl.
    pose proof (Forall_inv HG) as HG1. pose proof (Forall_inv_tail HG) as HG2.
    assert (GLB : G (dist (k_position L) (k_position B)))
      by (eapply first_gap; eauto).
    destruct ks as [|C ks].
    { simpl. repeat constructor; auto. }
    destruct ks as [|X ks].
    { simpl mergeFrom. rewrite gaps_cons. constructor; auto. }
    rewrite mergeFrom_step.
    rewrite gaps_cons in Hd1, HG2. rewrite <- app_comm_cons in Hd1.
    pose proof (skipn_head _ _ _ Hd1) as HBC.
    pose proof (skipn_next _ _ _ _ Hd1) as Hd2.
    pose proof (Forall_inv HG2) as HG3. pose proof (Forall_inv_tail HG2) as HG4.
    pose proof Hd2 as Hd2'.
    rewrite gaps_cons in Hd2'. rewrite <- app_comm_cons in Hd2'.
    pose proof (skipn_head _ _ _ Hd2') as HCD.
    replace (i + 1 + 1)%nat with (i + 2)%nat in * by lia.
    change (@nth (@D RealNum.scalar) i d d0) with (nth i d 0).
    change (@nth (@D RealNum.scalar) (i + 1) d d0) with (nth (i + 1) d 0).
    change (@nth (@D RealNum.scalar) (i + 2) d d0) with (nth (i + 2) d 0).
    rewrite HAB, HBC, HCD.
    destruct (mergeCriterion _ _ _) eqn:Ec.
    + apply criterion_true in Ec. destruct Ec as [Ec1 Ec2].
      unfold merged. cbn [dlt RealNum.scalar].
      destruct (RealNum.ltb (k_angle B) (k_angle C)).
      * rewrite gaps_cons. constructor.
        -- eapply second_gap; eauto.
        -- apply (IH (X :: ks) (i + 2)%nat C C dtl);
             [simpl in Hn |- *; lia | exact Hd2 | exact HG4 |].
           unfold lastWritten; left. apply dist_refl.
      * rewrite gaps_cons. constructor; auto.
        apply (IH (X :: ks) (i + 2)%nat C B dtl);
          [simpl in Hn |- *; lia | exact Hd2 | exact HG4 |].
        unfold lastWritten; right. rewrite HCD.
        repeat split; auto. discriminate.
    + rewrite gaps_cons. constructor; auto.
      apply (IH (C :: X :: ks) (i + 1)%nat B B dtl);
        [simpl in Hn |- *; lia | exact Hd1 | exact HG2 |].
      unfold lastWritten; left. apply dist_refl.
Qed.

(** Every distance between consecutive knots after the merge pass is
    bounded from below as the distances before it were. *)
Lemma gaps_mergeKnots (knots : list VCurveKnot) :
  knots <> [] ->
  d = gaps knots ->
  Forall G d ->
  Forall G (gaps (mergeKnots d knots)).
Proof.
  intros Hne Hd HG. rewrite mergeKnots_scan by assumption.
  destruct knots as [|A ks]; [congruence|].
  unfold mergeScan.
  apply (gaps_mergeFrom (length ks) ks 0%nat A A []); auto.
  - simpl skipn. now rewrite app_nil_r.
  - now rewrite <- Hd.
  - unfold lastWritten; left. apply dist_refl.
Qed.
End Scan.
End RealSpacing.

(** ** Loops that assign the elements of a vector one by one *)

Section AssignLoops.
Context {A : Type}.
Variable z : A.
Variable f : list A -> nat -> A.

(** [for (i = a; i < a + len; ++i) v[i] = f(v, i);] *)
Definition assignLoop (a len : nat) (v : list A) : list A :=
  fold_left (fun w i => vset i (f w i) w) (seq a len) v.

Lemma assignLoop_length (a len : nat) (v : list A) :
  length (assignLoop a len v) = length v.
Proof.
  unfold assignLoop. revert a v; induction len as [|len IH]; intros a v;
    simpl; auto.
  now rewrite IH, vset_length.
Qed.

Lemma assignLoop_snoc (a len : nat) (v : list A) :
  assignLoop a (S len) v =
  vset (a + len) (f (assignLoop a len v) (a + len)) (assignLoop a len v).
Proof.
  unfold assignLoop. rewrite seq_S, fold_left_app. reflexivity.
Qed.

(** The element of index [j] after the loop is the one assigned at the
    step [j], from the vector as it was just before. *)
Lemma assignLoop_nth (len a : nat) (v : list A) (j : nat) :
  a + len <= length v ->
  nth j (assignLoop a len v) z =
  if (a <=? j) && (j <? a + len)
  then f (assignLoop a (j - a) v) j
  else nth j v z.
Proof.
  induction len as [|len IH]; intros Hlen.
  - simpl. replace (j <? a + 0) with (j <? a) by (f_equal; lia).
    destruct (Nat.leb_spec a j), (Nat.ltb_spec j a); simpl; auto; lia.
  - rewrite assignLoop_snoc, nth_vset, assignLoop_length.
    destruct (Nat.eqb_spec (a + len) j) as [<-|Hne].
    + destruct (Nat.ltb_spec (a + len) (length v)); [|lia]. simpl.
      destruct (Nat.leb_spec a (a + len)); [|lia].
      destruct (Nat.ltb_spec (a + len) (a + S len)); [|lia]. simpl.
      now replace (a + len - a) with len by lia.
    + simpl. rewrite IH by lia.
      destruct (Nat.leb_spec a j); simpl; auto.
      destruct (Nat.ltb_spec j (a + len)), (Nat.ltb_spec j (a + S len));
        auto; lia.
Qed.

(** A field that no assignment changes is the same after the loop. *)
Lemma map_vset_same {B} (p : A -> B) (i : nat) (x : A) (v : list A) :
  p x = p (nth i v z) -> map p (vset i x v) = map p v.
Proof.
  revert i; induction v as [|h t IH]; intros [|i]; simpl; intros H; auto.
  - now rewrite H.
  - now rewrite IH.
Qed.

Lemma assignLoop_map {B} (p : A -> B) (a len : nat) (v : list A) :
  (forall w i, p (f w i) = p (nth i w z)) ->
  map p (assignLoop a len v) = map p v.
Proof.
  intros H. induction len as [|len IH]; [reflexivity|].
  rewrite assignLoop_snoc, map_vset_same; auto.
Qed.
End AssignLoops.

Lemma nth_map_eq {A B} (p : A -> B) (v w : list A) (z : A) (i : nat) :
  map p v = map p w -> p (nth i v z) = p (nth i w z).
Proof.
  intros H. rewrite <- !(map_nth p), H. reflexivity.
Qed.

(** ** The passes of [computeKnots_] *)

Section KnotFacts.
Context {Sc : Scalar} {Co : Collaborators}.

Local Open Scope D_scope.

Local Abbreviation kn ks i := (nth i ks VCurveKnot_init).

(** *** Angles *)

Definition angleAt (ks : list VCurveKnot) (i : nat) : VCurveKnot :=
  set_k_angle
    (computeSupplementaryAngle (k_position (kn ks (i - 1)))
                               (k_position (kn ks i))
                               (k_position (kn ks (i + 1))))
    (kn ks i).

Lemma computeAngles_eq (knots : list VCurveKnot) :
  computeAngles knots =
  let m := length knots in
  let k1 := vset 0 (set_k_angle d0 (kn knots 0)) knots in
  let k2 := assignLoop angleAt 1 (m - 1 - 1) k1 in
  vset (m - 1) (set_k_angle d0 (kn k2 (m - 1))) k2.
Proof. reflexivity. Qed.

Lemma computeAngles_length (knots : list VCurveKnot) :
  length (computeAngles knots) = length knots.
Proof.
  rewrite computeAngles_eq. cbv zeta.
  now rewrite vset_length, assignLoop_length, vset_length.
Qed.

(** The fields other than the angle are left alone. *)
Lemma computeAngles_map {B} (p : VCurveKnot -> B) (knots : list VCurveKnot) :
  (forall a k, p (set_k_angle a k) = p k) ->
  map p (computeAngles knots) = map p knots.
Proof.
  intros Hp. rewrite computeAngles_eq. cbv zeta.
  rewrite (map_vset_same VCurveKnot_init) by apply Hp.
  rewrite (assignLoop_map VCurveKnot_init) by (intros; apply Hp).
  now rewrite (map_vset_same VCurveKnot_init) by apply Hp.
Qed.

Lemma computeAngles_positions (knots : list VCurveKnot) :
  map k_position (computeAngles knots) = map k_position knots.
Proof. now apply computeAngles_map. Qed.

(** The angle of an inner knot is the supplementary angle at the knot. *)
Lemma computeAngles_inner (knots : list VCurveKnot) (i : nat) :
  (1 <= i)%nat -> (i + 1 < length knots)%nat ->
  k_angle (kn (computeAngles knots) i) =
  computeSupplementaryAngle (k_position (kn knots (i - 1)))
                            (k_position (kn knots i))
                            (k_position (kn knots (i + 1))).
Proof.
  intros H1 H2. rewrite computeAngles_eq. cbv zeta.
  rewrite nth_vset_neq by lia.
  rewrite assignLoop_nth by (rewrite vset_length; lia).
  destruct (Nat.leb_spec 1 i); [|lia].
  destruct (Nat.ltb_spec i (1 + (length knots - 1 - 1))); [|lia].
  cbn [andb]. unfold angleAt at 1. cbn [k_angle set_k_angle].
  set (w := assignLoop _ _ _ _).
  assert (Hw : map k_position w = map k_position knots).
  { unfold w. rewrite (assignLoop_map VCurveKnot_init) by reflexivity.
    now rewrite (map_vset_same VCurveKnot_init). }
  now rewrite !(nth_map_eq k_position w knots VCurveKnot_init _ Hw).
Qed.

Lemma computeAngles_ends (knots : list VCurveKnot) :
  knots <> [] ->
  k_angle (kn (computeAngles knots) 0) = d0
  /\ k_angle (kn (computeAngles knots) (length knots - 1)) = d0.
Proof.
  intros Hne. assert (0 < length knots)%nat by (destruct knots; simpl; [congruence|lia]).
  rewrite computeAngles_eq. cbv zeta. split.
  - rewrite nth_vset, assignLoop_length, vset_length.
    destruct (Nat.eqb_spec (length knots - 1) 0) as [E|E].
    + destruct (Nat.ltb_spec (length knots - 1) (length knots)); [|lia].
      reflexivity.
    + cbn [andb]. rewrite assignLoop_nth by (rewrite vset_length; lia).
      cbn [Nat.leb andb]. now rewrite nth_vset_eq.
  - rewrite nth_vset_eq; [reflexivity|].
    rewrite assignLoop_length, vset_length. lia.
Qed.

(** *** Corners *)

Definition cornerAt (maxSmoothKnotAngle : D) (ks : list VCurveKnot)
    (i : nat) : VCurveKnot :=
  set_k_isCorner (k_angle (kn ks i) >? maxSmoothKnotAngle) (kn ks i).

Lemma decideCorners_eq (a : D) (knots : list VCurveKnot) :
  decideCorners a knots =
  let p := length knots in
  let k1 := vset 0 (set_k_isCorner true (kn knots 0)) knots in
  let k2 := assignLoop (cornerAt a) 1 (p - 1 - 1) k1 in
  vset (p - 1) (set_k_isCorner true (kn k2 (p - 1))) k2.
Proof. reflexivity. Qed.

Lemma decideCorners_length (a : D) (knots : list VCurveKnot) :
  length (decideCorners a knots) = length knots.
Proof.
  rewrite decideCorners_eq. cbv zeta.
  now rewrite vset_length, assignLoop_length, vset_length.
Qed.

Lemma decideCorners_map {B} (p : VCurveKnot -> B) (a : D)
    (knots : list VCurveKnot) :
  (forall b k, p (set_k_isCorner b k) = p k) ->
  map p (decideCorners a knots) = map p knots.
Proof.
  intros Hp. rewrite decideCorners_eq. cbv zeta.
  rewrite (map_vset_same VCurveKnot_init) by apply Hp.
  rewrite (assignLoop_map VCurveKnot_init) by (intros; apply Hp).
  now rewrite (map_vset_same VCurveKnot_init) by apply Hp.
Qed.

Lemma decideCorners_ends (a : D) (knots : list VCurveKnot) :
  knots <> [] ->
  k_isCorner (kn (decideCorners a knots) 0) = true
  /\ k_isCorner (kn (decideCorners a knots) (length knots - 1)) = true.
Proof.
  intros Hne. assert (0 < length knots)%nat by (destruct knots; simpl; [congruence|lia]).
  rewrite decideCorners_eq. cbv zeta. split.
  - rewrite nth_vset, assignLoop_length, vset_length.
    destruct (Nat.eqb_spec (length knots - 1) 0) as [E|E].
    + destruct (Nat.ltb_spec (length knots - 1) (length knots)); [|lia].
      reflexivity.
    + cbn [andb]. rewrite assignLoop_nth by (rewrite vset_length; lia).
      cbn [Nat.leb andb]. now rewrite nth_vset_eq.
  - rewrite nth_vset_eq; [reflexivity|].
    rewrite assignLoop_length, vset_length. lia.
Qed.

Lemma decideCorners_inner (a : D) (knots : list VCurveKnot) (i : nat) :
  (1 <= i)%nat -> (i + 1 < length knots)%nat ->
  k_isCorner (kn (decideCorners a knots) i)
  = (k_angle (kn (decideCorners a knots) i) >? a).
Proof.
  intros H1 H2.
  rewrite (nth_map_eq k_angle (decideCorners a knots) knots VCurveKnot_init i)
    by (now apply decideCorners_map).
  rewrite decideCorners_eq. cbv zeta.
  rewrite nth_vset_neq by lia.
  rewrite assignLoop_nth by (rewrite vset_length; lia).
  destruct (Nat.leb_spec 1 i); [|lia].
  destruct (Nat.ltb_spec i (1 + (length knots - 1 - 1))); [|lia].
  cbn [andb]. unfold cornerAt at 1. cbn [k_isCorner set_k_isCorner].
  set (w := assignLoop _ _ _ _).
  assert (Hw : map k_angle w = map k_angle knots).
  { unfold w. rewrite (assignLoop_map VCurveKnot_init) by reflexivity.
    now rewrite (map_vset_same VCurveKnot_init). }
  now rewrite (nth_map_eq k_angle w knots VCurveKnot_init _ Hw).
Qed.
End KnotFacts.

(** ** [computeKnots_] returns *)

Section KnotsTotal.
Context {Sc : Scalar} {Co : Collaborators}.

Local Open Scope D_scope.

(** The body of the loop "Other knots". *)
Definition keepFar (resolution : D) (regPositions : list glm.dvec2)
    (regWidths : list D)
    (st : VCurveKnot * list VCurveKnot * list D) (i : nat)
    : VCurveKnot * list VCurveKnot * list D :=
  let '(knot, knots, d) := st in
  let p0 := k_position knot in
  let p1 := nth i regPositions zero2 in
  let ds := glm.length (glm.sub p1 p0) in
  if ds >? resolution then
    let knot := set_k_position_width p1 (nth i regWidths d0) knot in
    (knot, knots ++ [knot], d ++ [ds])
  else st.

Definition knot0 (regPositions : list glm.dvec2) (regWidths : list D)
    : VCurveKnot :=
  set_k_position_width (nth 0 regPositions zero2) (nth 0 regWidths d0)
                       VCurveKnot_init.

Lemma removeDuplicates_eq (resolution : D) (n : nat)
    (regPositions : list glm.dvec2) (regWidths : list D) :
  removeDuplicates resolution n regPositions regWidths =
  let st := fold_left (keepFar resolution regPositions regWidths)
                      (seq 1 (n - 1))
                      (knot0 regPositions regWidths,
                       [knot0 regPositions regWidths], []) in
  (snd (fst st), snd st).
Proof.
  unfold removeDuplicates. fold (knot0 regPositions regWidths).
  change (fun (st : VCurveKnot * list VCurveKnot * list D) (i : nat) => _)
    with (keepFar resolution regPositions regWidths).
  cbv zeta. now destruct (fold_left _ _ _) as [[k ks] d].
Qed.

Lemma fold_left_invariant {S I} (P : S -> Prop) (step : S -> I -> S)
    (l : list I) (s : S) :
  P s -> (forall s i, P s -> P (step s i)) -> P (fold_left step l s).
Proof.
  intros H0 Hstep. revert s H0.
  induction l as [|i l IH]; intros s H0; simpl; auto.
Qed.

(** The knots are never empty: the first smoothed position is a knot; and
    there is one distance less than there are knots. *)
Lemma removeDuplicates_shape (resolution : D) (n : nat)
    (regPositions : list glm.dvec2) (regWidths : list D) :
  let '(knots, d) := removeDuplicates resolution n regPositions regWidths in
  knots <> [] /\ (length d + 1 = length knots)%nat.
Proof.
  rewrite removeDuplicates_eq. cbv zeta.
  apply (fold_left_invariant
           (fun st : VCurveKnot * list VCurveKnot * list D =>
              snd (fst st) <> [] /\
              (length (snd st) + 1 = length (snd (fst st)))%nat)).
  - simpl. split; [discriminate|reflexivity].
  - intros [[k ks] d] i [H1 H2]. unfold keepFar. simpl in *.
    destruct (dlt _ _); simpl; auto.
    split.
    + intros E. apply app_eq_nil in E. destruct E; discriminate.
    + rewrite !length_app. simpl. lia.
Qed.

Lemma mergeFrom_length (d : list D) (ks : list VCurveKnot) :
  forall i, (length (mergeFrom d i ks) <= length ks)%nat.
Proof.
  assert (H : forall n ks i, (length ks <= n)%nat ->
                             (length (mergeFrom d i ks) <= length ks)%nat).
  { induction n as [|n IH]; intros l i Hn.
    - destruct l; simpl in *; lia.
    - destruct l as [|B [|C [|X l]]]; try (simpl; lia).
      rewrite mergeFrom_step. destruct (mergeCriterion _ _ _).
      + pose proof (IH (X :: l) (i + 2)%nat) as H2.
        change (length (B :: C :: X :: l)) with (S (S (length (X :: l)))) in *.
        change (length (merged B C :: mergeFrom d (i + 2) (X :: l)))
          with (S (length (mergeFrom d (i + 2) (X :: l)))).
        specialize (H2 ltac:(lia)). lia.
      + pose proof (IH (C :: X :: l) (i + 1)%nat) as H2.
        change (length (B :: C :: X :: l)) with (S (length (C :: X :: l))) in *.
        change (length (B :: mergeFrom d (i + 1) (C :: X :: l)))
          with (S (length (mergeFrom d (i + 1) (C :: X :: l)))).
        specialize (H2 ltac:(lia)). lia. }
  intros i. now apply (H (length ks)).
Qed.

Lemma mergeKnots_shape (d : list D) (knots : list VCurveKnot) :
  knots <> [] ->
  mergeKnots d knots <> []
  /\ (length (mergeKnots d knots) <= length knots)%nat.
Proof.
  intros Hne. rewrite mergeKnots_scan by assumption.
  destruct knots as [|A ks]; [congruence|]. simpl. split; [discriminate|].
  pose proof (mergeFrom_length d ks 0). lia.
Qed.

(** The knots [computeKnots_] returns, as the composition of its passes. *)
Definition resolutionOf (inputSamples : list VCurveInputSample) : D :=
  std_max (d_of_nat 10 * eps)
          (in_resolution (nth 0 inputSamples VCurveInputSample_init)).

Definition knotsOf (params : VCurveParams)
    (inputSamples : list VCurveInputSample)
    (regPositions : list glm.dvec2) (regWidths : list D)
    : list VCurveKnot :=
  let kd := removeDuplicates (resolutionOf inputSamples)
                             (length inputSamples) regPositions regWidths in
  decideCorners (maxSmoothKnotAngle params)
    (computeAngles (mergeKnots (snd kd) (computeAngles (fst kd)))).

Lemma length_pos {A} (l : list A) : l <> [] -> (0 <? length l)%nat = true.
Proof. destruct l; [congruence|reflexivity]. Qed.

Lemma length_nonempty {A} (l : list A) : (0 < length l)%nat -> l <> [].
Proof. destruct l; simpl; [lia|discriminate]. Qed.

Lemma computeKnots_Ok (params : VCurveParams)
    (inputSamples : list VCurveInputSample)
    (regPositions : list glm.dvec2) (regWidths : list D) :
  inputSamples <> [] ->
  length regPositions = length inputSamples ->
  length regWidths = length inputSamples ->
  computeKnots_ params inputSamples regPositions regWidths
  = Ok (knotsOf params inputSamples regPositions regWidths).
Proof.
  intros Hne Hp Hw. unfold computeKnots_, knotsOf.
  rewrite (length_pos _ Hne), Hp, Hw, Nat.eqb_refl.
  fold (resolutionOf inputSamples).
  pose proof (removeDuplicates_shape (resolutionOf inputSamples)
                (length inputSamples) regPositions regWidths) as Hs.
  destruct (removeDuplicates _ _ _ _) as [ks d]. destruct Hs as [Hk Hd].
  cbn [fst snd].
  rewrite (length_pos _ Hk).
  assert (Hk' : computeAngles ks <> []).
  { apply length_nonempty. rewrite computeAngles_length.
    destruct ks; simpl; [congruence|lia]. }
  destruct (mergeKnots_shape d _ Hk') as [Hm1 Hm2].
  rewrite (length_pos _ Hm1).
  rewrite computeAngles_length in Hm2.
  destruct (Nat.leb_spec (length (mergeKnots d (computeAngles ks)))
                         (length ks)); [reflexivity|lia].
Qed.

Lemma knotsOf_nonempty (params : VCurveParams)
    (inputSamples : list VCurveInputSample)
    (regPositions : list glm.dvec2) (regWidths : list D) :
  knotsOf params inputSamples regPositions regWidths <> [].
Proof.
  unfold knotsOf.
  pose proof (removeDuplicates_shape (resolutionOf inputSamples)
                (length inputSamples) regPositions regWidths) as Hs.
  destruct (removeDuplicates _ _ _ _) as [ks d]. destruct Hs as [Hk Hd].
  cbn [fst snd].
  apply length_nonempty.
  rewrite decideCorners_length, computeAngles_length.
  assert (Hk' : computeAngles ks <> []).
  { apply length_nonempty. rewrite computeAngles_length.
    destruct ks; simpl; [congruence|lia]. }
  destruct (mergeKnots_shape d _ Hk') as [Hm1 _].
  destruct (mergeKnots d (computeAngles ks)); simpl; [congruence|lia].
Qed.
End KnotsTotal.

(** ** [computeSamples_] returns *)

Section SamplesTotal.
Context {Sc : Scalar} {Co : Collaborators}.

Local Open Scope D_scope.

Local Abbreviation kn ks i := (nth i ks VCurveKnot_init).
Local Abbreviation sm ss i := (nth i ss VCurveSample_init).

Lemma idx_Ok {A} (v : list A) (i : nat) (z : A) :
  (i < length v)%nat -> idx v i = Ok (nth i v z).
Proof.
  intros H. unfold idx.
  destruct (nth_error v i) eqn:E.
  - now rewrite (nth_error_nth _ _ z E).
  - apply nth_error_None in E. lia.
Qed.

Lemma last_default {A} (v : list A) (a z : A) :
  v <> [] -> last v a = last v z.
Proof.
  induction v as [|b [|c t] IH]; intros H; [congruence|reflexivity|].
  change (last (c :: t) a = last (c :: t) z). apply IH. discriminate.
Qed.

Lemma back__Ok {A} (v : list A) (z : A) : v <> [] -> back_ v = Ok (last v z).
Proof.
  destruct v as [|a t]; [congruence|]. intros _. unfold back_. f_equal.
  destruct t as [|b t]; [reflexivity|].
  change (last (a :: b :: t) z) with (last (b :: t) z).
  apply last_default. discriminate.
Qed.

(** With corner knots at both ends, the six knots around a segment are
    knots of the vector: no index leaves it. *)
Lemma controlKnots_Ok (knots : list VCurveKnot) (i : nat) :
  (i + 1 < length knots)%nat ->
  k_isCorner (kn knots 0) = true ->
  k_isCorner (kn knots (length knots - 1)) = true ->
  exists A B E F,
    controlKnots knots i = Ok (A, B, kn knots i, kn knots (i + 1), E, F).
Proof.
  intros Hi H0 Hn. unfold controlKnots.
  rewrite (idx_Ok knots i VCurveKnot_init) by lia.
  rewrite (idx_Ok knots (i + 1) VCurveKnot_init) by lia.
  cbn [bind].
  (* B *)
  assert (HB : exists iB, (iB <= i)%nat /\
               (if k_isCorner (kn knots i) then Ok i else dec i) = Ok iB).
  { destruct (k_isCorner (kn knots i)) eqn:EC; [exists i; auto|].
    destruct i as [|j]; [congruence|]. exists j. split; [lia|reflexivity]. }
  destruct HB as (iB & HiB & ->). cbn [bind].
  rewrite (idx_Ok knots iB VCurveKnot_init) by lia. cbn [bind].
  (* A *)
  assert (HA : exists iA, (iA <= iB)%nat /\
               (if k_isCorner (kn knots iB) then Ok iB else dec iB) = Ok iA).
  { destruct (k_isCorner (kn knots iB)) eqn:EB; [exists iB; auto|].
    destruct iB as [|j]; [congruence|]. exists j. split; [lia|reflexivity]. }
  destruct HA as (iA & HiA & ->). cbn [bind].
  rewrite (idx_Ok knots iA VCurveKnot_init) by lia. cbn [bind].
  (* E *)
  set (iE := if k_isCorner (kn knots (i + 1)) then (i + 1)%nat
             else (i + 1 + 1)%nat).
  assert (HE : (iE < length knots)%nat).
  { unfold iE. destruct (k_isCorner (kn knots (i + 1))) eqn:ED; [lia|].
    destruct (Nat.eq_dec (i + 1) (length knots - 1)) as [E|E]; [|lia].
    rewrite E in ED. congruence. }
  rewrite (idx_Ok knots iE VCurveKnot_init) by lia. cbn [bind].
  (* F *)
  set (iF := if k_isCorner (kn knots iE) then iE else (iE + 1)%nat).
  assert (HF : (iF < length knots)%nat).
  { unfold iF. destruct (k_isCorner (kn knots iE)) eqn:EE; [lia|].
    destruct (Nat.eq_dec iE (length knots - 1)) as [E|E]; [|lia].
    rewrite E in EE. congruence. }
  rewrite (idx_Ok knots iF VCurveKnot_init) by lia. cbn [bind].
  now eexists _, _, _, _.
Qed.

(** The body of the loop "Other samples". *)
Definition keepDistinct (positions : list glm.dvec2) (widths : list D)
    (samples : list VCurveSample) (k : nat) : list VCurveSample :=
  let s0 := back VCurveSample_init samples in
  let p1 := nth k positions zero2 in
  let w1 := nth k widths d0 in
  let dp := glm.sub p1 (position s0) in
  let ds := glm.length dp in
  if ds >? eps then samples ++ [mkSample p1 w1 (arclength s0 + ds)]
  else samples.

(** The arclength of the first sample of the segment [i]. *)
Definition arclengthC (i : nat) (samples_ : list VCurveSample)
    (p : glm.dvec2) : D :=
  if i =? 0 then d0
  else
    let s0 := last samples_ VCurveSample_init in
    arclength s0 + glm.length (glm.sub p (position s0)).

Definition distinctSamples (i : nat) (samples_ : list VCurveSample)
    (positions : list glm.dvec2) (widths : list D) : list VCurveSample :=
  fold_left (keepDistinct positions widths)
            (seq 5 (length positions - 4 - 5))
            [mkSample (nth 4 positions zero2) (nth 4 widths d0)
                      (arclengthC i samples_ (nth 4 positions zero2))].

(** The sample that is added when the loop kept none. *)
Definition secondSample (positions : list glm.dvec2) (widths : list D)
    (samples : list VCurveSample) : VCurveSample :=
  let k := (length positions - 5)%nat in
  mkSample (nth k positions zero2) (nth k widths d0)
    (glm.length (glm.sub (nth k positions zero2)
                         (position (sm samples 0)))).

Definition localSamples (i : nat) (samples_ : list VCurveSample)
    (positions : list glm.dvec2) (widths : list D) : list VCurveSample :=
  let samples := distinctSamples i samples_ positions widths in
  if length samples =? 1
  then samples ++ [secondSample positions widths samples]
  else samples.

Lemma keepDistinct_head (positions : list glm.dvec2) (widths : list D)
    (l : list nat) (s : VCurveSample) (t : list VCurveSample) :
  exists t', fold_left (keepDistinct positions widths) l (s :: t) = s :: t'.
Proof.
  revert t; induction l as [|k l IH]; intros t; simpl; [eauto|].
  unfold keepDistinct at 2. destruct (dlt _ _); [|apply IH].
  change ((s :: t) ++ [?x]) with (s :: (t ++ [x])). apply IH.
Qed.

Lemma localSamples_length (i : nat) (samples_ : list VCurveSample)
    (positions : list glm.dvec2) (widths : list D) :
  (2 <= length (localSamples i samples_ positions widths))%nat.
Proof.
  unfold localSamples, distinctSamples.
  destruct (keepDistinct_head positions widths
              (seq 5 (length positions - 4 - 5))
              (mkSample (nth 4 positions zero2) (nth 4 widths d0)
                 (arclengthC i samples_ (nth 4 positions zero2))) [])
    as [t' ->].
  destruct t' as [|a t']; simpl; lia.
Qed.

Lemma segmentSamples_Ok (i : nat) (samples_ : list VCurveSample)
    (positions : list glm.dvec2) (widths : list D) :
  i = 0%nat \/ samples_ <> [] ->
  segmentSamples i samples_ positions widths
  = Ok (localSamples i samples_ positions widths).
Proof.
  intros Hi. unfold segmentSamples.
  assert (E : (if i =? 0 then Ok d0
               else s0 <- back_ samples_ ;;
                    Ok (arclength s0
                        + glm.length (glm.sub (nth 4 positions zero2)
                                              (position s0))))
              = Ok (arclengthC i samples_ (nth 4 positions zero2))).
  { unfold arclengthC. destruct (Nat.eqb_spec i 0); [reflexivity|].
    destruct Hi as [Hi|Hi]; [congruence|].
    now rewrite (back__Ok samples_ VCurveSample_init Hi). }
  rewrite E. cbn [bind].
  change (fun (samples : list VCurveSample) (k : nat) => _)
    with (keepDistinct positions widths).
  fold (distinctSamples i samples_ positions widths).
  pose proof (localSamples_length i samples_ positions widths) as Hl.
  unfold localSamples in *. cbv zeta in *.
  destruct (length (distinctSamples i samples_ positions widths) =? 1);
    match goal with
    | |- (if ?b then _ else _) = _ =>
      replace b with true;
        [reflexivity | symmetry; apply Nat.leb_le; exact Hl]
    end.
Qed.

(** *** Tangents *)

Definition firstTangent (C : VCurveKnot) (samples_ samples : list VCurveSample)
    : VCurveSample :=
  if k_isCorner C then
    let s0 := sm samples 0 in
    let s1 := sm samples 1 in
    set_tangent_normal
      (tangentOf (glm.sub (position s1) (position s0))
                 (arclength s1 - arclength s0)) s0
  else
    let s0 := last samples_ VCurveSample_init in
    let s1 := sm samples 0 in
    let s2 := sm samples 1 in
    let dp := glm.sub (position s2) (position s0) in
    set_tangent_normal (tangentOf dp (glm.length dp)) s1.

Definition tangentAt (ss : list VCurveSample) (k : nat) : VCurveSample :=
  let s0 := sm ss (k - 1) in
  let s1 := sm ss k in
  let s2 := sm ss (k + 1) in
  let dp := glm.sub (position s2) (position s0) in
  set_tangent_normal (tangentOf dp (glm.length dp)) s1.

Definition tangentSamples (C : VCurveKnot)
    (samples_ samples : list VCurveSample) : list VCurveSample :=
  assignLoop tangentAt 1 (length samples - 1 - 1)
             (vset 0 (firstTangent C samples_ samples) samples).

Lemma computeTangents_Ok (C : VCurveKnot)
    (samples_ samples : list VCurveSample) :
  k_isCorner C = true \/ samples_ <> [] ->
  computeTangents C samples_ samples
  = Ok (tangentSamples C samples_ samples).
Proof.
  intros H. unfold computeTangents, tangentSamples, firstTangent.
  destruct (k_isCorner C) eqn:EC.
  - cbn [bind]. now rewrite vset_length.
  - destruct H as [H|H]; [discriminate|].
    rewrite (back__Ok samples_ VCurveSample_init H). cbn [bind].
    now rewrite vset_length.
Qed.

Lemma tangentSamples_length (C : VCurveKnot)
    (samples_ samples : list VCurveSample) :
  length (tangentSamples C samples_ samples) = length samples.
Proof.
  unfold tangentSamples. now rewrite assignLoop_length, vset_length.
Qed.

(** Position, width and arclength are as before. *)
Lemma tangentSamples_map {B} (p : VCurveSample -> B) (C : VCurveKnot)
    (samples_ samples : list VCurveSample) :
  (forall t s, p (set_tangent_normal t s) = p s) ->
  map p (tangentSamples C samples_ samples) = map p samples.
Proof.
  intros Hp. unfold tangentSamples.
  rewrite (assignLoop_map VCurveSample_init) by (intros; apply Hp).
  apply (map_vset_same VCurveSample_init).
  unfold firstTangent. destruct (k_isCorner C); apply Hp.
Qed.

(** *** One segment *)

Local Opaque subdivide.

Definition segmentPositions (A B C D_ E F : VCurveKnot) : list glm.dvec2 :=
  subdivide interpolateUsingDynLevin_vec zero2
    [zero2; zero2; k_position A; k_position B; k_position C;
     k_position D_; k_position E; k_position F; zero2; zero2].

Definition segmentWidths (A B C D_ E F : VCurveKnot) : list D :=
  subdivide interpolateUsingDynLevin d0
    [d0; d0; k_width A; k_width B; k_width C;
     k_width D_; k_width E; k_width F; d0; d0].

(** The local samples of the segment, with their tangents. *)
Definition segmentLocal (A B C D_ E F : VCurveKnot) (i : nat)
    (samples_ : list VCurveSample) : list VCurveSample :=
  tangentSamples C samples_
    (localSamples i samples_ (segmentPositions A B C D_ E F)
                  (segmentWidths A B C D_ E F)).

(** The samples added in place when [C] is a corner and not the first
    knot. *)
Definition segmentFan (params : VCurveParams) (C : VCurveKnot) (i : nat)
    (samples_ loc : list VCurveSample) : list VCurveSample :=
  if (k_isCorner C && (0 <? i)%nat)%bool then
    cornerSamples (maxSampleAngle params)
                  (last samples_ VCurveSample_init) (sm loc 0) (sm loc 1)
  else [].

(** What the segment appends to [samples_]. *)
Definition segmentOut (params : VCurveParams) (A B C D_ E F : VCurveKnot)
    (i : nat) (samples_ : list VCurveSample) : list VCurveSample :=
  let loc := segmentLocal A B C D_ E F i samples_ in
  (samples_ ++ segmentFan params C i samples_ loc)
    ++ firstn (length loc - 1) loc.

Lemma segment_Ok (params : VCurveParams) (knots : list VCurveKnot)
    (i : nat) (samples_ : list VCurveSample) :
  (i + 1 < length knots)%nat ->
  k_isCorner (kn knots 0) = true ->
  k_isCorner (kn knots (length knots - 1)) = true ->
  i = 0%nat \/ samples_ <> [] ->
  exists A B E F,
    controlKnots knots i = Ok (A, B, kn knots i, kn knots (i + 1), E, F)
    /\ segment params knots i samples_
       = Ok (segmentOut params A B (kn knots i) (kn knots (i + 1)) E F
                        i samples_).
Proof.
  intros Hi H0 Hn Hs.
  destruct (controlKnots_Ok knots i Hi H0 Hn) as (A & B & E & F & HC).
  exists A, B, E, F. split; [exact HC|].
  unfold segment. rewrite HC. cbn [bind].
  unfold segmentOut, segmentFan, segmentLocal, segmentPositions,
    segmentWidths.
  rewrite (segmentSamples_Ok _ _ _ _ Hs). cbn [bind].
  rewrite computeTangents_Ok.
  2:{ destruct Hs as [->|Hs]; [left; exact H0|right; exact Hs]. }
  cbn [bind]. cbv zeta.
  destruct (k_isCorner (kn knots i) && (0 <? i)%nat)%bool eqn:EC;
    [|cbn [bind]; now rewrite app_nil_r].
  apply andb_true_iff in EC. destruct EC as [_ EC].
  apply Nat.ltb_lt in EC.
  destruct Hs as [->|Hs]; [lia|].
  assert (Hl : (1 <=? length samples_)%nat = true).
  { apply Nat.leb_le. destruct samples_; simpl; [congruence|lia]. }
  rewrite Hl, (back__Ok samples_ VCurveSample_init Hs). reflexivity.
Qed.

Lemma segmentOut_nonempty (params : VCurveParams)
    (A B C D_ E F : VCurveKnot) (i : nat) (samples_ : list VCurveSample) :
  segmentOut params A B C D_ E F i samples_ <> [].
Proof.
  unfold segmentOut, segmentLocal. cbv zeta.
  set (loc := tangentSamples _ _ _).
  assert (Hl : (2 <= length loc)%nat).
  { unfold loc. rewrite tangentSamples_length. apply localSamples_length. }
  intros E0. apply (f_equal (@length _)) in E0.
  rewrite !length_app, length_firstn in E0. simpl in E0. lia.
Qed.

(** *** All segments *)

Lemma segments_Ok (params : VCurveParams) (knots : list VCurveKnot)
    (len a : nat) (samples_ : list VCurveSample) :
  (a + len + 1 <= length knots)%nat ->
  k_isCorner (kn knots 0) = true ->
  k_isCorner (kn knots (length knots - 1)) = true ->
  a = 0%nat \/ samples_ <> [] ->
  exists out,
    segments params knots (seq a len) samples_ = Ok out
    /\ (len = 0%nat -> out = samples_)
    /\ ((0 < len)%nat -> out <> []).
Proof.
  revert a samples_. induction len as [|len IH]; intros a samples_ Hl H0 Hn Hs.
  - exists samples_. simpl. repeat split; auto. lia.
  - cbn [seq segments].
    destruct (segment_Ok params knots a samples_) as (A & B & E & F & _ & ->);
      auto; try lia.
    cbn [bind].
    destruct (IH (S a) (segmentOut params A B (kn knots a)
                                   (kn knots (a + 1)) E F a samples_))
      as (out & Ho & Ho0 & Ho1); auto; try lia.
    { right. apply segmentOut_nonempty. }
    exists out. split; [exact Ho|]. split; [lia|]. intros _.
    destruct len as [|len'].
    + rewrite Ho0 by reflexivity. apply segmentOut_nonempty.
    + apply Ho1. lia.
Qed.

Lemma computeSamples_Ok (params : VCurveParams) (knots : list VCurveKnot) :
  knots <> [] ->
  k_isCorner (kn knots 0) = true ->
  k_isCorner (kn knots (length knots - 1)) = true ->
  exists segs,
    segments params knots (seq 0 (length knots - 1)) [] = Ok segs
    /\ computeSamples_ params knots = Ok (segs ++ [lastSample knots segs]).
Proof.
  intros Hne H0 Hn. unfold computeSamples_.
  rewrite (length_pos _ Hne), H0, Hn.
  destruct (segments_Ok params knots (length knots - 1) 0 []) as (segs & -> & _);
    auto.
  { destruct knots; simpl in *; [congruence|lia]. }
  exists segs. split; [reflexivity|]. cbn [bind].
  rewrite length_app. simpl.
  destruct (Nat.ltb_spec 0 (length segs + 1)); [reflexivity|lia].
Qed.
End SamplesTotal.

(** ** [continueFit] returns *)

Section Total.
Context {Sc : Scalar} {Co : Collaborators}.

Local Open Scope D_scope.

Lemma computeRegWidths_Ok (inputSamples : list VCurveInputSample)
    (regWidths : list D) :
  inputSamples <> [] ->
  exists rw,
    computeRegWidths_ inputSamples regWidths = Ok rw
    /\ length rw = length inputSamples.
Proof.
  intros Hne. unfold computeRegWidths_. rewrite (length_pos _ Hne).
  cbv zeta.
  match goal with
  | |- context [length ?X =? length inputSamples] =>
    assert (Hl : length X = length inputSamples)
  end.
  { rewrite (fold_vset_length _ (fun i => i)).
    destruct (1 <? length inputSamples)%nat;
      now rewrite !vset_length, resize_length. }
  rewrite Hl, Nat.eqb_refl. eauto.
Qed.

Lemma computeRegFits_Ok (inputSamples : list VCurveInputSample)
    (regFits : list CubicCurve) :
  inputSamples <> [] ->
  exists rf,
    computeRegFits_ inputSamples regFits = Ok rf
    /\ length rf
       = (length inputSamples - Nat.min 5 (length inputSamples) + 1)%nat.
Proof.
  intros Hne. unfold computeRegFits_. rewrite (length_pos _ Hne). cbv zeta.
  set (n := length inputSamples).
  assert (Hn : (0 < n)%nat) by (unfold n; destruct inputSamples; simpl; [congruence|lia]).
  match goal with
  | |- context [length ?X] =>
    assert (Hl : length X = (n - Nat.min 5 n + 1)%nat)
      by (now rewrite (fold_vset_length _ (fun i => i)), resize_length);
    set (rf := X) in *
  end.
  rewrite Hl.
  destruct (Nat.ltb_spec 0 (n - Nat.min 5 n + 1)); [|lia].
  destruct (Nat.leb_spec (n - Nat.min 5 n + 1) n); [|lia].
  destruct (Nat.leb_spec 3 (n - (n - Nat.min 5 n + 1) + 1)),
           (Nat.leb_spec n 2); cbn [orb]; eauto; lia.
Qed.

Lemma averageRegFits_Ok (inputSamples : list VCurveInputSample)
    (regFits : list CubicCurve) (regPositions : list glm.dvec2) :
  inputSamples <> [] ->
  length regFits
  = (length inputSamples - Nat.min 5 (length inputSamples) + 1)%nat ->
  exists rp,
    averageRegFits_ inputSamples regFits regPositions = Ok rp
    /\ length rp = length inputSamples.
Proof.
  intros Hne Hf. unfold averageRegFits_. rewrite (length_pos _ Hne), Hf.
  cbv zeta.
  set (n := length inputSamples) in *.
  assert (Hn : (0 < n)%nat) by (unfold n; destruct inputSamples; simpl; [congruence|lia]).
  destruct (Nat.ltb_spec 0 (n - Nat.min 5 n + 1)); [|lia].
  destruct (Nat.leb_spec (n - Nat.min 5 n + 1) n); [|lia].
  assert (Ha : ((3 <=? n - (n - Nat.min 5 n + 1) + 1)%nat
                || (n <=? 2)%nat)%bool = true).
  { destruct (Nat.leb_spec 3 (n - (n - Nat.min 5 n + 1) + 1)),
             (Nat.leb_spec n 2); cbn [orb]; auto; lia. }
  rewrite Ha.
  match goal with
  | |- context [length ?X =? n] =>
    assert (Hl : length X = n);
      [|rewrite Hl, Nat.eqb_refl; eauto]
  end.
  rewrite vset_length.
  apply (fold_left_invariant (fun v : list glm.dvec2 => length v = n)).
  - now rewrite vset_length, resize_length.
  - intros v i Hv. destruct (averageRegFits_acc _ _ _ _) as [pa sw].
    now rewrite vset_length.
Qed.

Lemma knotsOf_corners (params : VCurveParams)
    (inputSamples : list VCurveInputSample)
    (regPositions : list glm.dvec2) (regWidths : list D) :
  let ks := knotsOf params inputSamples regPositions regWidths in
  k_isCorner (nth 0 ks VCurveKnot_init) = true
  /\ k_isCorner (nth (length ks - 1) ks VCurveKnot_init) = true.
Proof.
  cbv zeta.
  pose proof (knotsOf_nonempty params inputSamples regPositions regWidths)
    as Hne.
  unfold knotsOf in *. cbv zeta in *.
  set (X := computeAngles (mergeKnots _ _)) in *.
  assert (HX : X <> []).
  { intros E. apply Hne. apply length_zero_iff_nil.
    rewrite decideCorners_length, E. reflexivity. }
  rewrite decideCorners_length.
  now apply decideCorners_ends.
Qed.

(** An inner knot carries the supplementary angle at its position, and is a
    corner exactly when this angle exceeds [maxSmoothKnotAngle]. *)
Lemma knotsOf_inner (params : VCurveParams)
    (inputSamples : list VCurveInputSample)
    (regPositions : list glm.dvec2) (regWidths : list D) (i : nat) :
  let ks := knotsOf params inputSamples regPositions regWidths in
  let kn j := nth j ks VCurveKnot_init in
  (1 <= i)%nat -> (i + 1 < length ks)%nat ->
  k_angle (kn i)
  = computeSupplementaryAngle (k_position (kn (i - 1)%nat))
                              (k_position (kn i))
                              (k_position (kn (i + 1)%nat))
  /\ k_isCorner (kn i) = (k_angle (kn i) >? maxSmoothKnotAngle params).
Proof.
  cbv zeta. intros H1 H2. unfold knotsOf in *. cbv zeta in *.
  set (M := mergeKnots _ _) in *.
  rewrite decideCorners_length in H2.
  split.
  - rewrite (nth_map_eq k_angle (decideCorners _ (computeAngles M))
               (computeAngles M) VCurveKnot_init i)
      by (now apply decideCorners_map).
    rewrite computeAngles_length in H2.
    rewrite computeAngles_inner by assumption.
    assert (Hp : map k_position M
                 = map k_position (decideCorners (maxSmoothKnotAngle params)
                                                 (computeAngles M))).
    { rewrite decideCorners_map by reflexivity.
      now rewrite computeAngles_positions. }
    now rewrite !(nth_map_eq k_position _ _ VCurveKnot_init _ Hp).
  - now apply decideCorners_inner.
Qed.

(** [continueFit] always returns: no assertion fails and no index leaves
    its vector, whatever the curve and the sample. *)
Lemma continueFit_Ok (s : VCurveInputSample) (c : VCurve) :
  exists rf rp rw segs,
    let ins := appendInputSample_ s (inputSamples_ c) in
    let ks := knotsOf (params_ c) ins rp rw in
    length rp = length ins
    /\ length rw = length ins
    /\ segments (params_ c) ks (seq 0 (length ks - 1)) [] = Ok segs
    /\ continueFit s c
       = Ok {| params_ := params_ c;
               inputSamples_ := ins;
               regFits_ := rf;
               regPositions_ := rp;
               regWidths_ := rw;
               knots_ := ks;
               samples_ := segs ++ [lastSample ks segs] |}.
Proof.
  pose proof (appendInputSample_nonempty s (inputSamples_ c)) as Hne.
  destruct (computeRegFits_Ok _ (regFits_ c) Hne) as (rf & Hrf & Lrf).
  destruct (averageRegFits_Ok _ rf (regPositions_ c) Hne Lrf)
    as (rp & Hrp & Lrp).
  destruct (computeRegWidths_Ok _ (regWidths_ c) Hne) as (rw & Hrw & Lrw).
  pose proof (computeKnots_Ok (params_ c) _ rp rw Hne Lrp Lrw) as Hk.
  pose proof (knotsOf_nonempty (params_ c)
                (appendInputSample_ s (inputSamples_ c)) rp rw) as Hkn.
  pose proof (knotsOf_corners (params_ c)
                (appendInputSample_ s (inputSamples_ c)) rp rw) as [Hc0 Hc1].
  destruct (computeSamples_Ok (params_ c) _ Hkn Hc0 Hc1) as (segs & Hsg & Hs).
  exists rf, rp, rw, segs. cbv zeta. repeat split; auto.
  unfold continueFit. cbv zeta.
  rewrite (length_pos _ Hne), Hrf. cbn [bind].
  rewrite Hrp. cbn [bind]. rewrite Hrw. cbn [bind].
  rewrite Hk. cbn [bind]. rewrite Hs. reflexivity.
Qed.
End Total.

(** ** The knots, over the reals *)

Section RealKnots.
Local Existing Instance RealNum.scalar.
Context {Co : Collaborators}.

Local Open Scope R_scope.

Lemma gaps_snoc (ks : list VCurveKnot) (k : VCurveKnot) :
  ks <> [] ->
  gaps (ks ++ [k])
  = gaps ks ++ [dist (k_position (last ks VCurveKnot_init)) (k_position k)].
Proof.
  induction ks as [|a [|b t] IH]; intros H; [congruence|reflexivity|].
  change ((a :: b :: t) ++ [k]) with (a :: (b :: t) ++ [k]).
  change ((b :: t) ++ [k]) with (b :: t ++ [k]) at 1.
  rewrite !gaps_cons.
  change (b :: t ++ [k]) with ((b :: t) ++ [k]).
  rewrite IH by discriminate. reflexivity.
Qed.

(** The distances depend on the positions only. *)
Lemma gaps_positions (ks ks' : list VCurveKnot) :
  map k_position ks = map k_position ks' -> gaps ks = gaps ks'.
Proof.
  revert ks'. induction ks as [|a t IH]; intros [|a' t'] H;
    try discriminate; [reflexivity|].
  simpl in H. injection H as Ha Ht.
  destruct t as [|b t], t' as [|b' t']; try discriminate; [reflexivity|].
  rewrite !gaps_cons. rewrite (IH (b' :: t') Ht).
  simpl in Ht. injection Ht as Hb _. now rewrite Ha, Hb.
Qed.

(** After "removing duplicates", [d] holds the distances between the
    consecutive knots, each greater than the resolution. *)
Lemma removeDuplicates_far (resolution : R) (n : nat)
    (regPositions : list glm.dvec2) (regWidths : list R) :
  let kd := removeDuplicates resolution n regPositions regWidths in
  snd kd = gaps (fst kd) /\ Forall (fun g => resolution < g) (snd kd).
Proof.
  cbv zeta. rewrite removeDuplicates_eq. cbv zeta. cbn [fst snd].
  set (P := fun st : VCurveKnot * list VCurveKnot * list (@D RealNum.scalar) =>
              snd (fst st) <> []
              /\ fst (fst st) = last (snd (fst st)) VCurveKnot_init
              /\ snd st = gaps (snd (fst st))
              /\ Forall (fun g => resolution < g) (snd st)).
  assert (H : P (fold_left (keepFar resolution regPositions regWidths)
                           (seq 1 (n - 1))
                           (knot0 regPositions regWidths,
                            [knot0 regPositions regWidths], []))).
  { apply fold_left_invariant.
    - unfold P. simpl. repeat split; auto. discriminate.
    - intros [[k ks] d] i (H1 & H2 & H3 & H4). unfold P, keepFar in *.
      cbn [fst snd] in *.
      destruct (dlt _ _) eqn:E; cbn [fst snd]; [|auto].
      repeat split.
      + intros E0. apply app_eq_nil in E0. destruct E0; discriminate.
      + now rewrite last_last.
      + rewrite gaps_snoc by assumption. rewrite <- H2, H3. reflexivity.
      + apply Forall_app. split; [assumption|].
        constructor; [|constructor].
        apply ltb_true in E. exact E. }
  destruct H as (_ & _ & H3 & H4). auto.
Qed.

Lemma knotsOf_positions (params : VCurveParams)
    (inputSamples : list VCurveInputSample)
    (regPositions : list glm.dvec2) (regWidths : list R) :
  let kd := removeDuplicates (resolutionOf inputSamples)
                             (length inputSamples) regPositions regWidths in
  map k_position (knotsOf params inputSamples regPositions regWidths)
  = map k_position (mergeKnots (snd kd) (computeAngles (fst kd))).
Proof.
  cbv zeta. unfold knotsOf. cbv zeta.
  rewrite decideCorners_map by reflexivity.
  now rewrite computeAngles_positions.
Qed.

(** Consecutive knots are farther apart than the resolution, also after
    the merge pass. *)
Lemma knotsOf_far (params : VCurveParams)
    (inputSamples : list VCurveInputSample)
    (regPositions : list glm.dvec2) (regWidths : list R) :
  Forall (fun g => resolutionOf inputSamples < g)
         (gaps (knotsOf params inputSamples regPositions regWidths)).
Proof.
  rewrite (gaps_positions _ _ (knotsOf_positions params inputSamples
                                 regPositions regWidths)).
  pose proof (removeDuplicates_far (resolutionOf inputSamples)
                (length inputSamples) regPositions regWidths) as [Hd Hf].
  pose proof (removeDuplicates_shape (resolutionOf inputSamples)
                (length inputSamples) regPositions regWidths) as Hs.
  destruct (removeDuplicates _ _ _ _) as [ks d]. cbn [fst snd] in *.
  destruct Hs as [Hk _].
  apply gaps_mergeKnots; auto.
  - intros a b Ha Hab. lra.
  - apply length_nonempty. rewrite computeAngles_length.
    destruct ks; simpl; [congruence|lia].
  - rewrite Hd. apply gaps_positions. now rewrite computeAngles_positions.
Qed.

(** The floor of the resolution: [max(10 * eps, resolution)] of the first
    input sample, with [eps = 1e-10]. *)
Lemma resolutionOf_max (inputSamples : list VCurveInputSample) :
  resolutionOf inputSamples
  = Rmax (10 * (1 / 10000000000))
         (in_resolution (nth 0 inputSamples VCurveInputSample_init)).
Proof.
  unfold resolutionOf, std_max, eps.
  cbn [dlt dmul d_of_nat lit_1em10 RealNum.scalar].
  replace (INR 10) with 10 by (simpl; lra).
  unfold RealNum.ltb, Rmax.
  destruct (Rlt_dec _ _), (Rle_dec _ _); lra.
Qed.
End RealKnots.

(** ** The sum of the weights in [averageRegFits_] *)

Section Blend.
Context {Sc : Scalar} {Co : Collaborators}.

Local Open Scope D_scope.

(** The body of the loop over [j]. *)
Definition addFit (regFits : list CubicCurve)
    (numSamplesPerFit numFits i : nat) (acc : glm.dvec2 * D) (j : nat)
    : glm.dvec2 * D :=
  let '(pos_acc, sumW) := acc in
  let k := (Z.of_nat i - Z.of_nat j)%Z in
  if ((0 <=? k)%Z && (k <? Z.of_nat numFits)%Z)%bool then
    let cubicFit := nth (Z.to_nat k) regFits CubicCurve_init in
    let uj := d_of_nat j / d_of_nat (numSamplesPerFit - 1) in
    let posj := pos cubicFit uj in
    let wj := w_ uj in
    (glm.add pos_acc (glm.scale wj posj), sumW + wj)
  else acc.

(** The fit [i - j] exists: sample [i] is the sample [j] of a fit. *)
Definition covers (numFits i j : nat) : bool :=
  ((0 <=? Z.of_nat i - Z.of_nat j)%Z
   && (Z.of_nat i - Z.of_nat j <? Z.of_nat numFits)%Z)%bool.

Lemma averageRegFits_acc_eq (regFits : list CubicCurve)
    (numSamplesPerFit numFits i : nat) :
  averageRegFits_acc regFits numSamplesPerFit numFits i
  = fold_left (addFit regFits numSamplesPerFit numFits i)
              (seq 1 (numSamplesPerFit - 1 - 1)) (glm.vec2 d0 d0, d0).
Proof. reflexivity. Qed.

Lemma addFit_snd (regFits : list CubicCurve)
    (numSamplesPerFit numFits i : nat) (acc : glm.dvec2 * D) (j : nat) :
  snd (addFit regFits numSamplesPerFit numFits i acc j)
  = if covers numFits i j
    then snd acc + w_ (d_of_nat j / d_of_nat (numSamplesPerFit - 1))
    else snd acc.
Proof.
  unfold addFit, covers. destruct acc as [p s].
  destruct (_ && _)%bool; reflexivity.
Qed.

(** The sum of the weights does not depend on the fits. *)
Fixpoint sumWeights (numSamplesPerFit numFits i : nat) (js : list nat)
    (sumW : D) : D :=
  match js with
  | [] => sumW
  | j :: js =>
    sumWeights numSamplesPerFit numFits i js
      (if covers numFits i j
       then sumW + w_ (d_of_nat j / d_of_nat (numSamplesPerFit - 1))
       else sumW)
  end.

Lemma fold_addFit_snd (regFits : list CubicCurve)
    (numSamplesPerFit numFits i : nat) (js : list nat)
    (acc : glm.dvec2 * D) :
  snd (fold_left (addFit regFits numSamplesPerFit numFits i) js acc)
  = sumWeights numSamplesPerFit numFits i js (snd acc).
Proof.
  revert acc. induction js as [|j js IH]; intros acc; [reflexivity|].
  cbn [fold_left sumWeights]. now rewrite IH, addFit_snd.
Qed.

Lemma sumW_eq (regFits : list CubicCurve)
    (numSamplesPerFit numFits i : nat) :
  snd (averageRegFits_acc regFits numSamplesPerFit numFits i)
  = sumWeights numSamplesPerFit numFits i
               (seq 1 (numSamplesPerFit - 1 - 1)) d0.
Proof. now rewrite averageRegFits_acc_eq, fold_addFit_snd. Qed.

(** An inner sample is an inner sample of some fit. *)
Lemma covered (n i : nat) :
  (1 <= i)%nat -> (i + 2 <= n)%nat ->
  let numFits := (n - Nat.min 5 n + 1)%nat in
  let numSamplesPerFit := (n - numFits + 1)%nat in
  exists j, (1 <= j)%nat /\ (j + 2 <= numSamplesPerFit)%nat
            /\ covers numFits i j = true.
Proof.
  cbv zeta. intros H1 H2.
  exists (Nat.min i (n - (n - Nat.min 5 n + 1) + 1 - 2)).
  repeat split; try lia.
  unfold covers. apply andb_true_iff. split.
  - apply Z.leb_le. lia.
  - apply Z.ltb_lt. lia.
Qed.
End Blend.

Section BlendReal.
Local Existing Instance RealNum.scalar.

Local Open Scope R_scope.

Lemma w_pos (j k : nat) :
  (1 <= j)%nat -> (j + 2 <= k)%nat -> 0 < w_ (INR j / INR (k - 1)).
Proof.
  intros H1 H2. unfold w_, d1. cbn [dmul dsub d_of_nat RealNum.scalar].
  replace (INR 1) with 1 by reflexivity.
  assert (Hj : 0 < INR j) by (apply lt_0_INR; lia).
  assert (Hk : INR j < INR (k - 1)) by (apply lt_INR; lia).
  assert (Hu : 0 < INR j / INR (k - 1) < 1).
  { split.
    - apply Rdiv_lt_0_compat; lra.
    - apply (Rmult_lt_reg_r (INR (k - 1))); [lra|].
      unfold Rdiv. rewrite Rmult_assoc, Rinv_l by lra. lra. }
  set (u := INR j / INR (k - 1)) in *.
  assert (0 < u * u) by nra.
  assert (0 < (1 - u) * (1 - u)) by nra.
  nra.
Qed.

Lemma sumWeights_ge (k numFits i : nat) (js : list nat) (s : R) :
  Forall (fun j => (1 <= j)%nat /\ (j + 2 <= k)%nat) js ->
  s <= sumWeights k numFits i js s.
Proof.
  revert s. induction js as [|j js IH]; intros s H; [simpl; lra|].
  cbn [sumWeights]. inversion H as [|j' js' [Hj1 Hj2] Hjs]; subst.
  pose proof (w_pos j k Hj1 Hj2) as Hw.
  destruct (covers numFits i j).
  - eapply Rle_trans; [|apply IH; assumption].
    cbn [dadd ddiv d_of_nat RealNum.scalar]. lra.
  - now apply IH.
Qed.

Lemma sumWeights_gt (k numFits i : nat) (js : list nat) (s : R) :
  Forall (fun j => (1 <= j)%nat /\ (j + 2 <= k)%nat) js ->
  Exists (fun j => covers numFits i j = true) js ->
  s < sumWeights k numFits i js s.
Proof.
  revert s. induction js as [|j js IH]; intros s H E.
  - inversion E.
  - cbn [sumWeights]. inversion H as [|j' js' [Hj1 Hj2] Hjs]; subst.
    pose proof (w_pos j k Hj1 Hj2) as Hw.
    destruct (covers numFits i j) eqn:Ec.
    + eapply Rlt_le_trans; [|apply sumWeights_ge; assumption].
      cbn [dadd ddiv d_of_nat RealNum.scalar]. lra.
    + apply IH; [assumption|].
      inversion E as [j' js' Hc|j' js' Hc]; subst; [congruence|assumption].
Qed.

Lemma sumW_pos_real (Co : Collaborators) (regFits : list CubicCurve)
    (n i : nat) :
  (1 <= i)%nat -> (i + 2 <= n)%nat ->
  let numFits := (n - Nat.min 5 n + 1)%nat in
  let numSamplesPerFit := (n - numFits + 1)%nat in
  0 < snd (averageRegFits_acc regFits numSamplesPerFit numFits i).
Proof.
  cbv zeta. intros H1 H2. rewrite sumW_eq.
  change (@d0 RealNum.scalar) with 0.
  set (k := (n - (n - Nat.min 5 n + 1) + 1)%nat).
  apply sumWeights_gt.
  - apply Forall_forall. intros j Hj. apply in_seq in Hj. lia.
  - destruct (covered n i H1 H2) as (j & Hj1 & Hj2 & Hc).
    apply Exists_exists. exists j. split; [|exact Hc].
    apply in_seq. fold k in Hj2. lia.
Qed.
End BlendReal.

Section BlendBinary64.
Local Existing Instance Binary64.scalar.

(** In binary64 the sum is one of finitely many sums of at most three
    weights, each computed by the machine operations. *)
Lemma sumW_pos_binary64 (Co : Collaborators) (regFits : list CubicCurve)
    (n i : nat) :
  (1 <= i)%nat -> (i + 2 <= n)%nat ->
  let numFits := (n - Nat.min 5 n + 1)%nat in
  let numSamplesPerFit := (n - numFits + 1)%nat in
  PrimFloat.ltb 0
    (snd (averageRegFits_acc regFits numSamplesPerFit numFits i)) = true.
Proof.
  cbv zeta. intros H1 H2. rewrite sumW_eq.
  destruct (covered n i H1 H2) as (j & Hj1 & Hj2 & Hc). cbv zeta in *.
  assert (Hk : (n - (n - Nat.min 5 n + 1) + 1 = 3
                \/ n - (n - Nat.min 5 n + 1) + 1 = 4
                \/ n - (n - Nat.min 5 n + 1) + 1 = 5)%nat) by lia.
  set (numFits := (n - Nat.min 5 n + 1)%nat) in *.
  destruct Hk as [Hk|[Hk|Hk]]; rewrite Hk in *; cbn [Nat.sub seq sumWeights].
  - assert (j = 1%nat) by lia. subst j. rewrite Hc. reflexivity.
  - assert (Hj : j = 1%nat \/ j = 2%nat) by lia.
    destruct (covers numFits i 1) eqn:E1, (covers numFits i 2) eqn:E2;
      try reflexivity.
    destruct Hj; subst j; congruence.
  - assert (Hj : j = 1%nat \/ j = 2%nat \/ j = 3%nat) by lia.
    destruct (covers numFits i 1) eqn:E1, (covers numFits i 2) eqn:E2,
             (covers numFits i 3) eqn:E3;
      try reflexivity.
    destruct Hj as [Hj|[Hj|Hj]]; subst j; congruence.
Qed.
End BlendBinary64.

(** ** Arclengths along the samples *)

Section Chain.
Context {Sc : Scalar}.

Local Open Scope D_scope.

Local Abbreviation sm ss i := (nth i ss VCurveSample_init).

(** [b] comes after [a]: its arclength is the one of [a] plus the
    distance between them. *)
Definition linked (a b : VCurveSample) : Prop :=
  arclength b = arclength a + dist (position a) (position b).

Lemma chained_cons (a b : VCurveSample) (t : list VCurveSample) :
  chained (a :: b :: t) <-> linked a b /\ chained (b :: t).
Proof. reflexivity. Qed.

Lemma chained_tail (a : VCurveSample) (t : list VCurveSample) :
  chained (a :: t) -> chained t.
Proof. destruct t as [|b t]; [trivial|]. now intros [_ H]. Qed.

Lemma chained_app (l1 l2 : list VCurveSample) (x : VCurveSample) :
  chained l1 -> chained (x :: l2) ->
  l1 = [] \/ linked (last l1 VCurveSample_init) x ->
  chained (l1 ++ x :: l2).
Proof.
  induction l1 as [|a [|b t] IH]; intros H1 H2 H3.
  - exact H2.
  - destruct H3 as [H3|H3]; [discriminate|]. simpl. split; assumption.
  - change ((a :: b :: t) ++ x :: l2) with (a :: b :: (t ++ x :: l2)).
    apply chained_cons in H1. destruct H1 as [Hab H1].
    apply chained_cons. split; [assumption|].
    apply IH; auto. destruct H3 as [H3|H3]; [discriminate|]. right. exact H3.
Qed.

Lemma chained_snoc (l : list VCurveSample) (x : VCurveSample) :
  chained l ->
  l = [] \/ linked (last l VCurveSample_init) x ->
  chained (l ++ [x]).
Proof. intros H1 H2. apply chained_app; simpl; auto. Qed.

Lemma chained_firstn (n : nat) (l : list VCurveSample) :
  chained l -> chained (firstn n l).
Proof.
  revert l. induction n as [|n IH]; intros [|a l] H; simpl; auto.
  destruct l as [|b l]; [now destruct n|].
  apply chained_cons in H. destruct H as [Hab H].
  specialize (IH (b :: l) H). destruct n as [|n]; [exact I|].
  change (firstn (S n) (b :: l)) with (b :: firstn n l) in *.
  apply chained_cons. auto.
Qed.

(** Only the positions and the arclengths count. *)
Lemma chained_ext (l l' : list VCurveSample) :
  map position l = map position l' ->
  map arclength l = map arclength l' ->
  chained l -> chained l'.
Proof.
  revert l'. induction l as [|a t IH]; intros [|a' t'] Hp Ha H;
    try discriminate; [exact I|].
  simpl in Hp, Ha. injection Hp as Hp1 Hp2. injection Ha as Ha1 Ha2.
  destruct t as [|b t], t' as [|b' t']; try discriminate; [exact I|].
  apply chained_cons in H. destruct H as [Hab H].
  apply chained_cons. split; [|now apply IH].
  simpl in Hp2, Ha2. injection Hp2 as Hp2 _. injection Ha2 as Ha2 _.
  unfold linked in *. congruence.
Qed.

(** The samples a segment keeps are chained, the last one apart when it
    is the one added after the loop. *)
Lemma distinctSamples_chained (i : nat) (samples_ : list VCurveSample)
    (positions : list glm.dvec2) (widths : list D) :
  chained (distinctSamples i samples_ positions widths).
Proof.
  unfold distinctSamples.
  apply (fold_left_invariant (fun l => chained l /\ l <> [])).
  - split; [exact I|discriminate].
  - intros l k [Hc Hne]. unfold keepDistinct.
    destruct (dlt _ _); [|auto]. split.
    + apply chained_snoc; [assumption|]. right. reflexivity.
    + intros E. apply app_eq_nil in E. destruct E; discriminate.
Qed.

Lemma localSamples_head (i : nat) (samples_ : list VCurveSample)
    (positions : list glm.dvec2) (widths : list D) :
  exists t,
    localSamples i samples_ positions widths
    = mkSample (nth 4 positions zero2) (nth 4 widths d0)
               (arclengthC i samples_ (nth 4 positions zero2)) :: t.
Proof.
  unfold localSamples, distinctSamples.
  destruct (keepDistinct_head positions widths
              (seq 5 (length positions - 4 - 5))
              (mkSample (nth 4 positions zero2) (nth 4 widths d0)
                 (arclengthC i samples_ (nth 4 positions zero2))) [])
    as [t' ->].
  destruct (length _ =? 1); [|eauto].
  eexists. reflexivity.
Qed.

Lemma localSamples_chained (i : nat) (samples_ : list VCurveSample)
    (positions : list glm.dvec2) (widths : list D) :
  let loc := localSamples i samples_ positions widths in
  chained (firstn (length loc - 1) loc).
Proof.
  cbv zeta. unfold localSamples.
  pose proof (distinctSamples_chained i samples_ positions widths) as H.
  destruct (length (distinctSamples i samples_ positions widths) =? 1) eqn:E.
  - apply Nat.eqb_eq in E. rewrite length_app, E. simpl.
    destruct (distinctSamples i samples_ positions widths) as [|a [|b t]];
      simpl in *; try lia; try exact I.
  - now apply chained_firstn.
Qed.

(** The samples added at a corner are copies of the first sample of the
    segment, tangent and normal apart. *)
Lemma cornerSamples_same {Co : Collaborators} (m : D)
    (s0 s1 s2 : VCurveSample) :
  Forall (fun x => position x = position s1 /\ width x = width s1
                   /\ arclength x = arclength s1)
         (cornerSamples m s0 s1 s2).
Proof.
  unfold cornerSamples. destruct (cornerAngles _ _ _) as [a1 a2].
  apply Forall_forall. intros x Hx. apply in_map_iff in Hx.
  destruct Hx as (k & <- & _). auto.
Qed.
End Chain.

(** ** Arclengths, over the reals *)

Section RealChain.
Local Existing Instance RealNum.scalar.
Context {Co : Collaborators}.

Local Open Scope R_scope.

Local Abbreviation sm ss i := (nth i ss VCurveSample_init).
Local Abbreviation kn ks i := (nth i ks VCurveKnot_init).

Local Opaque subdivide.

Lemma linked_same (a x y : VCurveSample) :
  linked a x -> position y = position x -> arclength y = arclength x ->
  linked a y.
Proof. unfold linked. intros H Hp Ha. now rewrite Hp, Ha. Qed.

Lemma linked_copy (x y : VCurveSample) :
  position y = position x -> arclength y = arclength x -> linked y x.
Proof.
  unfold linked. intros Hp Ha. rewrite Hp, Ha, dist_refl.
  cbn [dadd RealNum.scalar]. lra.
Qed.

(** Copies of [x] in front of [x] keep the chain. *)
Lemma chained_copies (fan rest : list VCurveSample) (x : VCurveSample) :
  Forall (fun y => position y = position x /\ arclength y = arclength x)
         fan ->
  chained (x :: rest) ->
  chained (fan ++ x :: rest).
Proof.
  induction fan as [|y fan IH]; intros Hf Hc; [exact Hc|].
  pose proof (Forall_inv Hf) as [Hp Ha].
  pose proof (Forall_inv_tail Hf) as Hf'.
  specialize (IH Hf' Hc).
  destruct fan as [|z fan].
  - simpl. split; [now apply linked_copy|exact Hc].
  - change ((y :: z :: fan) ++ x :: rest)
      with (y :: z :: (fan ++ x :: rest)).
    apply chained_cons. split; [|exact IH].
    pose proof (Forall_inv Hf') as [Hpz Haz].
    apply linked_copy; congruence.
Qed.

Lemma chained_monotone (l : list VCurveSample) :
  chained l ->
  forall i j, (i <= j)%nat -> (j < length l)%nat ->
              arclength (sm l i) <= arclength (sm l j).
Proof.
  induction l as [|a t IH]; intros Hc i j Hij Hj; [simpl in Hj; lia|].
  destruct j as [|j].
  - replace i with 0%nat by lia. lra.
  - assert (Ha : forall k, (k < length t)%nat ->
                           arclength a <= arclength (sm t k)).
    { intros k Hk. destruct t as [|b t]; [simpl in Hk; lia|].
      apply chained_cons in Hc. destruct Hc as [Hab Hc].
      apply Rle_trans with (arclength b).
      - unfold linked in Hab. rewrite Hab.
        pose proof (dist_nonneg (position a) (position b)).
        cbn [dadd RealNum.scalar]. lra.
      - apply (IH Hc 0%nat k); [lia|exact Hk]. }
    simpl in Hj. destruct i as [|i].
    + apply Ha. lia.
    + apply (IH (chained_tail a t Hc)); lia.
Qed.

(** *** One segment *)

Lemma segmentLocal_parts (A B C D_ E F : VCurveKnot) (i : nat)
    (samples_ : list VCurveSample) :
  let loc := segmentLocal A B C D_ E F i samples_ in
  let P := segmentPositions A B C D_ E F in
  exists x rest,
    firstn (length loc - 1) loc = x :: rest
    /\ x = sm loc 0
    /\ position x = nth 4 P zero2
    /\ arclength x = arclengthC i samples_ (nth 4 P zero2)
    /\ chained (x :: rest).
Proof.
  cbv zeta. unfold segmentLocal.
  set (P := segmentPositions A B C D_ E F).
  set (W := segmentWidths A B C D_ E F).
  set (raw := localSamples i samples_ P W).
  set (loc := tangentSamples C samples_ raw).
  assert (Hl : length loc = length raw) by apply tangentSamples_length.
  assert (Hp : map position loc = map position raw)
    by (now apply tangentSamples_map).
  assert (Ha : map arclength loc = map arclength raw)
    by (now apply tangentSamples_map).
  pose proof (localSamples_length i samples_ P W) as H2. fold raw in H2.
  destruct (localSamples_head i samples_ P W) as [t Ht]. fold raw in Ht.
  assert (Hc : chained (firstn (length loc - 1) loc)).
  { apply (chained_ext (firstn (length raw - 1) raw)).
    - now rewrite Hl, <- !firstn_map, Hp.
    - now rewrite Hl, <- !firstn_map, Ha.
    - apply localSamples_chained. }
  assert (Hx : position (sm loc 0) = nth 4 P zero2
               /\ arclength (sm loc 0)
                  = arclengthC i samples_ (nth 4 P zero2)).
  { rewrite (nth_map_eq position loc raw VCurveSample_init 0 Hp).
    rewrite (nth_map_eq arclength loc raw VCurveSample_init 0 Ha).
    rewrite Ht. split; reflexivity. }
  destruct loc as [|x [|y loc']]; simpl in Hl; try lia.
  exists x, (firstn (length loc') (y :: loc')).
  replace (length (x :: y :: loc') - 1)%nat with (S (length loc'))
    in * by (simpl; lia).
  repeat split; try apply Hx. exact Hc.
Qed.

(** What the samples emitted so far look like before the segment [a]. *)
Definition emitted (a : nat) (samples_ : list VCurveSample) : Prop :=
  chained samples_
  /\ ((a = 0%nat /\ samples_ = [])
      \/ (a <> 0%nat /\ samples_ <> [] /\ arclength (sm samples_ 0) = 0)).

Lemma segmentOut_emitted (params : VCurveParams)
    (A B C D_ E F : VCurveKnot) (i : nat) (samples_ : list VCurveSample) :
  emitted i samples_ ->
  emitted (S i) (segmentOut params A B C D_ E F i samples_).
Proof.
  intros [Hc Hs]. unfold segmentOut. cbv zeta.
  destruct (segmentLocal_parts A B C D_ E F i samples_)
    as (x & rest & -> & Hx & Hpx & Hax & Hcx).
  set (loc := segmentLocal A B C D_ E F i samples_) in *.
  set (fan := segmentFan params C i samples_ loc).
  assert (Hfan : Forall (fun y => position y = position x
                                  /\ arclength y = arclength x) fan).
  { unfold fan, segmentFan.
    destruct (_ && _)%bool; [|constructor].
    eapply Forall_impl; [|apply cornerSamples_same].
    cbv beta. intros y (H1 & _ & H3). rewrite Hx. auto. }
  pose proof (chained_copies fan rest x Hfan Hcx) as Hrun.
  rewrite <- app_assoc.
  destruct Hs as [[-> ->]|(Hi & Hne & H0)].
  - (* the first segment: nothing emitted yet, no corner samples *)
    assert (fan = []) as ->.
    { unfold fan, segmentFan. now rewrite andb_false_r. }
    simpl app. split; [exact Hcx|].
    right. repeat split; try discriminate.
    simpl. rewrite Hax. reflexivity.
  - split.
    + assert (Hlink : linked (last samples_ VCurveSample_init) x).
      { unfold linked. rewrite Hax, Hpx. unfold arclengthC.
        destruct (Nat.eqb_spec i 0); [contradiction|]. reflexivity. }
      destruct fan as [|y fan'].
      * simpl app. apply chained_app; auto.
      * change ((y :: fan') ++ x :: rest) with (y :: (fan' ++ x :: rest))
          in *.
        apply chained_app; auto. right.
        pose proof (Forall_inv Hfan) as [Hpy Hay].
        now apply (linked_same _ x).
    + right. repeat split; try discriminate.
      * intros E0. apply app_eq_nil in E0. destruct E0. contradiction.
      * destruct samples_ as [|s0 t]; [contradiction|]. exact H0.
Qed.

Lemma segments_emitted (params : VCurveParams) (knots : list VCurveKnot)
    (len a : nat) (samples_ out : list VCurveSample) :
  (a + len + 1 <= length knots)%nat ->
  k_isCorner (kn knots 0) = true ->
  k_isCorner (kn knots (length knots - 1)) = true ->
  emitted a samples_ ->
  segments params knots (seq a len) samples_ = Ok out ->
  emitted (a + len) out.
Proof.
  revert a samples_. induction len as [|len IH];
    intros a samples_ Hl H0 Hn He Hs.
  - simpl in Hs. injection Hs as <-. now rewrite Nat.add_0_r.
  - cbn [seq segments] in Hs.
    destruct (segment_Ok params knots a samples_) as (A & B & E & F & _ & Hseg);
      auto; try lia.
    { destruct He as [_ [[-> _]|(_ & Hne & _)]]; auto. }
    rewrite Hseg in Hs. cbn [bind] in Hs.
    replace (a + S len)%nat with (S a + len)%nat by lia.
    apply (IH (S a) (segmentOut params A B (kn knots a) (kn knots (a + 1))
                                E F a samples_)); auto; try lia.
    now apply segmentOut_emitted.
Qed.

(** *** The last sample *)

Lemma lastSample_fields (knots : list VCurveKnot)
    (samples_ : list VCurveSample) :
  position (lastSample knots samples_)
  = k_position (kn knots (length knots - 1))
  /\ width (lastSample knots samples_)
     = k_width (kn knots (length knots - 1))
  /\ arclength (lastSample knots samples_)
     = match samples_ with
       | [] => 0
       | _ :: _ =>
         arclength (last samples_ VCurveSample_init)
         + dist (position (last samples_ VCurveSample_init))
                (k_position (kn knots (length knots - 1)))
       end.
Proof.
  unfold lastSample. cbv zeta.
  destruct samples_ as [|s0 t]; repeat split.
Qed.

(** All the samples of [computeSamples_]. *)
Lemma computeSamples_chained (params : VCurveParams)
    (knots : list VCurveKnot) (segs : list VCurveSample) :
  knots <> [] ->
  k_isCorner (kn knots 0) = true ->
  k_isCorner (kn knots (length knots - 1)) = true ->
  segments params knots (seq 0 (length knots - 1)) [] = Ok segs ->
  let ss := segs ++ [lastSample knots segs] in
  chained ss /\ arclength (sm ss 0) = 0.
Proof.
  intros Hne H0 Hn Hs. cbv zeta.
  assert (He : emitted (0 + (length knots - 1)) segs).
  { apply (segments_emitted params knots (length knots - 1) 0 [] segs);
      auto.
    - destruct knots; simpl in *; [congruence|lia].
    - split; [exact I|]. left. auto. }
  destruct He as [Hc He].
  destruct (lastSample_fields knots segs) as (Hp & _ & Ha).
  split.
  - apply chained_snoc; [exact Hc|].
    destruct segs as [|s0 t]; [left; reflexivity|right].
    unfold linked. rewrite Ha, Hp. reflexivity.
  - destruct He as [[_ ->]|(_ & Hne' & H1)].
    + simpl. exact Ha.
    + destruct segs as [|s0 t]; [contradiction|]. exact H1.
Qed.
End RealChain.

(** ** The samples added at a corner *)

Section Fan.
Context {Sc : Scalar} {Co : Collaborators}.

Local Open Scope D_scope.

Local Abbreviation sm ss i := (nth i ss VCurveSample_init).

(** After the three subdivision steps the vector has 17 elements, with C
    at the index 4 and D at the index 12. *)
Lemma subdivide_knots {T} (interp : T -> T -> T -> T -> D -> T)
    (z a b c d e f : T) :
  let v := subdivide interp z [z; z; a; b; c; d; e; f; z; z] in
  length v = 17%nat /\ nth 4 v z = c /\ nth 12 v z = d.
Proof. cbv zeta. repeat split. Qed.

(** The first sample of a segment is at the knot C, with its width. *)
Lemma segmentLocal_first (A B C D_ E F : VCurveKnot) (i : nat)
    (samples_ : list VCurveSample) :
  let loc := segmentLocal A B C D_ E F i samples_ in
  (2 <= length loc)%nat
  /\ position (sm loc 0) = k_position C
  /\ width (sm loc 0) = k_width C.
Proof.
  cbv zeta. unfold segmentLocal.
  set (P := segmentPositions A B C D_ E F).
  set (W := segmentWidths A B C D_ E F).
  set (raw := localSamples i samples_ P W).
  destruct (localSamples_head i samples_ P W) as [t Ht]. fold raw in Ht.
  split; [rewrite tangentSamples_length; apply localSamples_length|].
  split.
  - rewrite (nth_map_eq position _ raw VCurveSample_init 0)
      by (now apply tangentSamples_map).
    rewrite Ht. cbn [nth mkSample position]. unfold P, segmentPositions.
    apply (subdivide_knots interpolateUsingDynLevin_vec).
  - rewrite (nth_map_eq width _ raw VCurveSample_init 0)
      by (now apply tangentSamples_map).
    rewrite Ht. cbn [nth mkSample width]. unfold W, segmentWidths.
    apply (subdivide_knots interpolateUsingDynLevin).
Qed.

Lemma cornerSamples_length (m : D) (s0 s1 s2 : VCurveSample) :
  length (cornerSamples m s0 s1 s2)
  = numCornerSamples m
      (fst (cornerAngles (position s0) (position s1) (position s2)))
      (snd (cornerAngles (position s0) (position s1) (position s2))).
Proof.
  unfold cornerSamples. destruct (cornerAngles _ _ _) as [a1 a2].
  now rewrite length_map, length_seq.
Qed.

(** The sample of index [k] among those added at a corner. *)
Lemma cornerSamples_nth (m : D) (s0 s1 s2 : VCurveSample) (k : nat) :
  let a1 := fst (cornerAngles (position s0) (position s1) (position s2)) in
  let a2 := snd (cornerAngles (position s0) (position s1) (position s2)) in
  let na := length (cornerSamples m s0 s1 s2) in
  let a := a1 + d_of_nat k / d_of_nat na * (a2 - a1) in
  (k < na)%nat ->
  let x := nth k (cornerSamples m s0 s1 s2) VCurveSample_init in
  position x = position s1 /\ width x = width s1
  /\ arclength x = arclength s1
  /\ tangent x = glm.vec2 (cos a) (sin a)
  /\ normal x = glm.vec2 (- sin a) (cos a).
Proof.
  cbv zeta. rewrite cornerSamples_length. intros Hk.
  unfold cornerSamples. destruct (cornerAngles _ _ _) as [a1 a2].
  cbn [fst snd] in *.
  set (g := fun k0 : nat => _).
  rewrite (nth_indep _ VCurveSample_init (g 0%nat))
    by (now rewrite length_map, length_seq).
  rewrite (map_nth g), seq_nth by assumption.
  unfold g. cbn. repeat split.
Qed.

(** The value next to C after the three steps, from A, B, C, D, E. *)
Lemma subdivide_next {T} (interp : T -> T -> T -> T -> D -> T)
    (z a b c d e f : T) :
  let a' := interp a b c d tension in
  let b' := interp b c d e tension in
  let d' := interp b a' c b' tension in
  let e' := interp a' c b' d tension in
  nth 5 (subdivide interp z [z; z; a; b; c; d; e; f; z; z]) z
  = interp d' c e' b' tension.
Proof. reflexivity. Qed.

Lemma keepDistinct_head2 (positions : list glm.dvec2) (widths : list D)
    (l : list nat) (a b : VCurveSample) (t : list VCurveSample) :
  exists t',
    fold_left (keepDistinct positions widths) l (a :: b :: t)
    = a :: b :: t'.
Proof.
  revert t; induction l as [|k l IH]; intros t; simpl; [eauto|].
  unfold keepDistinct at 2. destruct (dlt _ _); [|apply IH].
  change ((a :: b :: t) ++ [?x]) with (a :: b :: (t ++ [x])). apply IH.
Qed.

(** When the first subdivided position after C compares farther from C
    than [eps], it is the position of the second local sample. *)
Lemma localSamples_second (i : nat) (samples_ : list VCurveSample)
    (positions : list glm.dvec2) (widths : list D) :
  (10 <= length positions)%nat ->
  (glm.length (glm.sub (nth 5 positions zero2) (nth 4 positions zero2))
   >? eps) = true ->
  position (nth 1 (localSamples i samples_ positions widths)
                VCurveSample_init)
  = nth 5 positions zero2.
Proof.
  intros Hl Hfar.
  assert (E : exists a t',
             distinctSamples i samples_ positions widths
             = a :: mkSample (nth 5 positions zero2) (nth 5 widths d0)
                             (arclength a
                              + glm.length
                                  (glm.sub (nth 5 positions zero2)
                                           (nth 4 positions zero2)))
                 :: t').
  { unfold distinctSamples.
    replace (length positions - 4 - 5)%nat
      with (S (length positions - 10)) by lia.
    cbn [seq fold_left]. unfold keepDistinct at 2.
    cbn [back last mkSample position]. rewrite Hfar. cbn [app].
    match goal with
    | |- context [fold_left _ ?l (?a :: ?b :: ?t)] =>
      destruct (keepDistinct_head2 positions widths l a b t) as [t' ->]
    end.
    eexists _, t'. reflexivity. }
  destruct E as (a & t' & E). unfold localSamples. rewrite E.
  cbn [length Nat.eqb nth]. reflexivity.
Qed.
End Fan.

Section FanReal.
Local Existing Instance RealNum.scalar.
Context {Co : Collaborators}.

Local Open Scope R_scope.

(** With [atan2] in (-PI, PI], the two angles at a corner differ by PI at
    most once [a2] is "equivalent to a2, closest to a1". *)
Lemma cornerAngles_close (p0 p1 p2 : glm.dvec2) :
  (forall y x, - PI < atan2 y x <= PI) ->
  Rabs (snd (cornerAngles p0 p1 p2) - fst (cornerAngles p0 p1 p2)) <= PI.
Proof.
  intros Hr. unfold cornerAngles. cbv zeta.
  set (a1 := atan2 (glm.y p1 - glm.y p0)%D (glm.x p1 - glm.x p0)%D).
  set (a2 := atan2 (glm.y p2 - glm.y p1)%D (glm.x p2 - glm.x p1)%D).
  pose proof (Hr (glm.y p1 - glm.y p0)%D (glm.x p1 - glm.x p0)%D) as H1.
  pose proof (Hr (glm.y p2 - glm.y p1)%D (glm.x p2 - glm.x p1)%D) as H2.
  fold a1 in H1. fold a2 in H2.
  cbn [dsub dadd dmul dlt d_of_nat M_PI RealNum.scalar] in *.
  replace (INR 2) with 2 by (simpl; lra).
  cbn [fst snd].
  destruct (RealNum.ltb (a1 + PI) a2) eqn:E1.
  - apply ltb_true in E1. apply Rabs_le. lra.
  - apply ltb_false in E1.
    destruct (RealNum.ltb a2 (a1 - PI)) eqn:E2.
    + apply ltb_true in E2. apply Rabs_le. lra.
    + apply ltb_false in E2. apply Rabs_le. lra.
Qed.

(** A quarter turn with [maxSampleAngle = PI / 8] gives four samples. *)
Lemma numCornerSamples_quarter (a1 a2 : R) :
  Rabs (a2 - a1) = PI / 2 -> numCornerSamples (PI / 8) a1 a2 = 4%nat.
Proof.
  intros H. unfold numCornerSamples.
  cbn [d_floor_uint dabs ddiv dsub RealNum.scalar].
  rewrite H. unfold RealNum.floor_uint.
  replace (PI / 2 / (PI / 8)) with (INR 4).
  - now rewrite Int_part_INR.
  - pose proof PI_RGT_0. simpl. field. lra.
Qed.

(** [RealNum.arg2] is in (-PI, PI]. *)
Lemma arg2_range (y x : R) : - PI < RealNum.arg2 y x <= PI.
Proof.
  pose proof PI_RGT_0 as Hpi. unfold RealNum.arg2.
  pose proof (atan_bound (y / x)) as Hb.
  destruct (Rlt_dec 0 x) as [Hx|Hx]; [lra|].
  destruct (Rlt_dec x 0) as [Hx'|Hx'].
  - destruct (Rle_dec 0 y) as [Hy|Hy].
    + assert (y / x <= 0).
      { unfold Rdiv. assert (/ x < 0) by now apply Rinv_lt_0_compat.
        nra. }
      assert (atan (y / x) <= 0).
      { destruct (Req_dec (y / x) 0) as [E|E].
        - rewrite E, atan_0. lra.
        - rewrite <- atan_0. left. apply atan_increasing. lra. }
      lra.
    + assert (0 < y / x).
      { unfold Rdiv. assert (/ x < 0) by now apply Rinv_lt_0_compat.
        nra. }
      assert (0 < atan (y / x)).
      { rewrite <- atan_0. now apply atan_increasing. }
      lra.
  - destruct (Rlt_dec 0 y); [lra|]. destruct (Rlt_dec y 0); lra.
Qed.

(** "Compute angle equivalent to a2, closest to a1", and the number of
    samples, over the reals. *)
Lemma closest_angle_real (a1 b maxSampleAngle : R) :
  - PI < a1 <= PI -> - PI < b <= PI ->
  PI / 4294967296 < maxSampleAngle ->
  let a2 :=
    if RealNum.ltb (a1 + PI) b then b - 2 * PI
    else if RealNum.ltb b (a1 - PI) then b + 2 * PI
    else b in
  let q := Rabs (a2 - a1) / maxSampleAngle in
  let na := RealNum.floor_uint q in
  (a2 = b \/ a2 = b - 2 * PI \/ a2 = b + 2 * PI)
  /\ Rabs (a2 - a1) <= PI
  /\ INR na <= q < INR na + 1
  /\ (Z.of_nat na < 4294967296)%Z
  /\ (forall n : nat, INR n <= q < INR n + 1 -> na = n).
Proof.
  intros Ha Hb Hm. cbv zeta.
  pose proof PI_RGT_0 as Hpi.
  set (a2 := if RealNum.ltb (a1 + PI) b then b - 2 * PI
             else if RealNum.ltb b (a1 - PI) then b + 2 * PI
             else b).
  assert (H2 : (a2 = b \/ a2 = b - 2 * PI \/ a2 = b + 2 * PI)
               /\ Rabs (a2 - a1) <= PI).
  { unfold a2. destruct (RealNum.ltb (a1 + PI) b) eqn:E1.
    - apply ltb_true in E1. split; [auto|]. apply Rabs_le. lra.
    - apply ltb_false in E1.
      destruct (RealNum.ltb b (a1 - PI)) eqn:E2.
      + apply ltb_true in E2. split; [auto|]. apply Rabs_le. lra.
      + apply ltb_false in E2. split; [auto|]. apply Rabs_le. lra. }
  destruct H2 as [H2 H3]. split; [exact H2|]. split; [exact H3|].
  assert (Hm0 : 0 < maxSampleAngle).
  { apply Rlt_trans with (PI / 4294967296); [|exact Hm].
    apply Rdiv_lt_0_compat; lra. }
  set (q := Rabs (a2 - a1) / maxSampleAngle).
  assert (Hq0 : 0 <= q).
  { unfold q. apply Rmult_le_pos; [apply Rabs_pos|].
    left. now apply Rinv_0_lt_compat. }
  assert (Hq1 : q < 4294967296).
  { unfold q. apply Rmult_lt_reg_r with maxSampleAngle; [exact Hm0|].
    replace (Rabs (a2 - a1) / maxSampleAngle * maxSampleAngle)
      with (Rabs (a2 - a1)) by (field; lra).
    apply Rle_lt_trans with PI; [exact H3|].
    apply Rmult_lt_reg_r with (/ 4294967296); [lra|].
    replace (4294967296 * maxSampleAngle * / 4294967296)
      with maxSampleAngle by (field; lra).
    exact Hm. }
  unfold RealNum.floor_uint.
  destruct (base_Int_part q) as [Hz1 Hz2].
  assert (Hz0 : (0 <= Int_part q)%Z).
  { apply Z.lt_succ_r. apply lt_IZR. rewrite succ_IZR. lra. }
  assert (Hna : INR (Z.to_nat (Int_part q)) = IZR (Int_part q)).
  { rewrite INR_IZR_INZ, Z2Nat.id by exact Hz0. reflexivity. }
  split; [rewrite Hna; lra|].
  split; [rewrite Z2Nat.id by exact Hz0; apply lt_IZR; lra|].
  intros n Hn.
  assert (E : Int_part q = Z.of_nat n).
  { apply Z.le_antisymm.
    - apply Z.lt_succ_r. apply lt_IZR.
      rewrite succ_IZR, <- INR_IZR_INZ. lra.
    - apply Z.lt_succ_r. apply lt_IZR.
      rewrite succ_IZR, <- INR_IZR_INZ. lra. }
  rewrite E. apply Nat2Z.id.
Qed.

(** Over the reals the conversion is defined when [q] is in
    [0, 2^32). *)
Lemma floorDefined_real (q : R) (n : nat) :
  (Z.of_nat n < 4294967296)%Z -> INR n <= q < INR n + 1 ->
  @floorDefined RealNum.scalar q.
Proof.
  intros Hn Hq. exists n. split; [exact Hn|].
  cbn [dlt d_of_nat RealNum.scalar].
  split; [apply ltb_false; lra|].
  apply ltb_true. rewrite plus_INR. simpl INR. lra.
Qed.
End FanReal.

(** ** Reset, the first sample, the merge rule and the knots *)

(** C1.  [clear] empties the input history, the fits, the smoothed
    positions and widths and the samples, and clearing twice is clearing
    once; but it keeps the knots: after [beginFit], one [continueFit] and
    [clear], [numKnots] is 1 while [numSamples] is 0. *)
Theorem clear_keeps_knots (Sc : Scalar) (Co : Collaborators)
    (s : VCurveInputSample) (c : VCurve) :
  (forall c0 : VCurve,
      inputSamples_ (clear c0) = [] /\ regFits_ (clear c0) = []
      /\ regPositions_ (clear c0) = [] /\ regWidths_ (clear c0) = []
      /\ samples_ (clear c0) = [] /\ numSamples (clear c0) = 0%nat
      /\ knots_ (clear c0) = knots_ c0
      /\ clear (clear c0) = clear c0)
  /\ exists c1,
       continueFit s (beginFit c) = Ok c1
       /\ numKnots (clear c1) = 1%nat
       /\ numSamples (clear c1) = 0%nat.
Proof.
  split.
  - intros c0. repeat split.
  - destruct (continueFit_first s c) as (c1 & H & _ & Hk & _).
    exists c1. split; [exact H|]. split; [|reflexivity].
    unfold numKnots. change (knots_ (clear c1)) with (knots_ c1).
    now rewrite Hk.
Qed.

(** C10.  After [beginFit] and one [continueFit], the curve has one knot, a
    corner at the position of the input sample and with its width, and one
    sample, at the same position and with the same width, with arclength 0,
    tangent (1, 0) and normal (-0, 1); [length] is 0.  The first coordinate
    of the normal is the opposite of 0: 0 over the reals, and the negative
    zero, equal to 0, in binary64. *)
Theorem first_sample_curve :
  (forall (Sc : Scalar) (Co : Collaborators)
          (s : VCurveInputSample) (c : VCurve),
      exists c1,
        continueFit s (beginFit c) = Ok c1
        /\ numKnots c1 = 1%nat
        /\ knot c1 0 = Ok {| k_position := in_position s;
                             k_width := in_width s;
                             k_angle := d0;
                             k_isCorner := true |}
        /\ numSamples c1 = 1%nat
        /\ (exists s1, sample c1 0 = Ok s1
                       /\ position s1 = in_position s
                       /\ width s1 = in_width s
                       /\ arclength s1 = d0
                       /\ tangent s1 = glm.vec2 d1 d0
                       /\ normal s1 = glm.vec2 (dneg d0) d1)
        /\ VCurve_length c1 = d0)
  /\ @dneg RealNum.scalar d0 = 0%R
  /\ PrimFloat.eqb (@dneg Binary64.scalar d0) 0%float = true.
Proof.
  split; [|split].
  - intros Sc Co s c.
    destruct (continueFit_first s c) as (c1 & H & _ & Hk & Hs).
    exists c1. split; [exact H|].
    unfold numKnots, knot, numSamples, sample, VCurve_length, numSamples.
    rewrite Hk, Hs. repeat split.
    exists (firstSample s). repeat split.
  - cbn. lra.
  - reflexivity.
Qed.

(** C2, as the code has it.  The merge pass computes the scan [mergeScan]:
    where the scan meets a window A, B, C, D with [r * BC < AB] and
    [r * BC < CD], on the distances before merging, B and C give way to the
    single knot [merged B C], which is C when [angleB < angleC] and B
    otherwise: the knot with the larger supplementary angle stays (B when
    the angles are equal), and the scan goes on behind C. *)
Theorem merge_keeps_larger_angle (Sc : Scalar) (d : list D)
    (knots : list VCurveKnot) :
  knots <> [] ->
  mergeKnots d knots = mergeScan d knots
  /\ (forall B C, dlt (k_angle B) (k_angle C) = true -> merged B C = C)
  /\ (forall B C, dlt (k_angle B) (k_angle C) = false -> merged B C = B).
Proof.
  intros H. split; [now apply mergeKnots_scan|].
  split; intros B C E; unfold merged; now rewrite E.
Qed.

(** Four knots on a line, at x = 0, 10, 11 and 21, for the merge pass in
    binary64: B has the angle 0.1 and C the angle 0.2. *)
Definition knotAt (x y a : float) : @VCurveKnot Binary64.scalar :=
  @Build_VCurveKnot Binary64.scalar (@glm.vec2 Binary64.scalar x y)
                    1%float a false.

Definition fourKnots : list (@VCurveKnot Binary64.scalar) :=
  [knotAt 0 0 0; knotAt 10 0 0.1; knotAt 11 0 0.2; knotAt 21 0 0]%float.

Lemma merge_keeps_larger_angle_witness :
  mergeKnots (gaps fourKnots) fourKnots = mergeScan (gaps fourKnots) fourKnots
  /\ (forall B C : @VCurveKnot Binary64.scalar,
        dlt (k_angle B) (k_angle C) = true -> merged B C = C)
  /\ (forall B C : @VCurveKnot Binary64.scalar,
        dlt (k_angle B) (k_angle C) = false -> merged B C = B).
Proof.
  apply (merge_keeps_larger_angle Binary64.scalar (gaps fourKnots) fourKnots).
  discriminate.
Defined.

(** On these knots the criterion holds (4 * 1 < 10 on both sides), B has
    the smaller angle, and the pass keeps C and drops B. *)
Lemma merge_keeps_smaller_angle_counterexample :
  gaps fourKnots = [10; 1; 10]%float
  /\ @mergeCriterion Binary64.scalar 10%float 1%float 10%float = true
  /\ PrimFloat.ltb (k_angle (knotAt 10 0 0.1)) (k_angle (knotAt 11 0 0.2))
     = true
  /\ mergeKnots (gaps fourKnots) fourKnots
     = [knotAt 0 0 0; knotAt 11 0 0.2; knotAt 21 0 0]%float.
Proof. repeat (split; [reflexivity|]). reflexivity. Qed.

(** C5, as the code has it.  Over the reals: when the distances [d] between
    the consecutive knots that enter the merge pass are all at least
    [d_min], so are the distances between the consecutive knots that leave
    it (the bound is [min((r - 2) * d_min, d_min)], that is [d_min]); in
    particular, with [0 < d_min], no two consecutive knots coincide. *)
Theorem merge_spacing (d : list R) (knots : list (@VCurveKnot RealNum.scalar))
    (d_min : R) :
  knots <> [] ->
  d = @gaps RealNum.scalar knots ->
  Forall (fun g => (d_min <= g)%R) d ->
  Forall (fun g => (d_min <= g)%R)
         (@gaps RealNum.scalar (@mergeKnots RealNum.scalar d knots))
  /\ ((0 < d_min)%R ->
      Forall (fun g => (0 < g)%R)
             (@gaps RealNum.scalar (@mergeKnots RealNum.scalar d knots))).
Proof.
  intros Hne Hd HG.
  assert (H : Forall (fun g => (d_min <= g)%R)
                     (@gaps RealNum.scalar (@mergeKnots RealNum.scalar d knots))).
  { apply gaps_mergeKnots; auto. intros a b Ha Hab. lra. }
  split; [exact H|]. intros Hpos.
  eapply Forall_impl; [|exact H]. cbv beta. intros g Hg. lra.
Qed.

(** Four knots over the reals on a line, at x = 0, 10, 11 and 21: the
    distances are 10, 1, 10, the criterion holds ([4 * 1 < 10] on both
    sides) and the pass merges the two knots in the middle. *)
Definition realKnotAt (x y : R) : @VCurveKnot RealNum.scalar :=
  @Build_VCurveKnot RealNum.scalar (@glm.vec2 RealNum.scalar x y)
                    1%R 0%R false.

Definition fourRealKnots : list (@VCurveKnot RealNum.scalar) :=
  [realKnotAt 0 0; realKnotAt 10 0; realKnotAt 11 0; realKnotAt 21 0].

Lemma dist_on_axis (x x' : R) :
  (x <= x')%R ->
  @dist RealNum.scalar (@glm.vec2 RealNum.scalar x 0%R)
        (@glm.vec2 RealNum.scalar x' 0%R) = (x' - x)%R.
Proof.
  intros H. unfold dist, glm.length, glm.sub.
  cbn [glm.x glm.y dsqrt dadd dsub dmul RealNum.scalar].
  replace ((x' - x) * (x' - x) + (0 - 0) * (0 - 0))%R
    with ((x' - x) * (x' - x))%R by ring.
  apply sqrt_square. lra.
Qed.

Lemma fourRealKnots_gaps : gaps fourRealKnots = [10%R; 1%R; 10%R].
Proof.
  unfold fourRealKnots. rewrite !gaps_cons.
  unfold realKnotAt. cbn [k_position gaps].
  rewrite !dist_on_axis by lra.
  repeat f_equal; lra.
Qed.

Lemma fourRealKnots_merged :
  @mergeKnots RealNum.scalar (gaps fourRealKnots) fourRealKnots
  = [realKnotAt 0 0; realKnotAt 10 0; realKnotAt 21 0].
Proof.
  rewrite mergeKnots_scan by discriminate.
  rewrite fourRealKnots_gaps. unfold fourRealKnots.
  cbn [mergeScan]. rewrite mergeFrom_step. cbn [nth Nat.add].
  rewrite (proj2 (criterion_true 10 1 10)) by lra.
  unfold merged, realKnotAt at 2 3. cbn [k_angle dlt RealNum.scalar].
  rewrite (proj2 (ltb_false 0 0)) by lra.
  reflexivity.
Qed.

Lemma merge_spacing_witness :
  gaps fourRealKnots = [10%R; 1%R; 10%R]
  /\ @mergeCriterion RealNum.scalar 10%R 1%R 10%R = true
  /\ @mergeKnots RealNum.scalar (gaps fourRealKnots) fourRealKnots
     = [realKnotAt 0 0; realKnotAt 10 0; realKnotAt 21 0]
  /\ Forall (fun g => (1 <= g)%R)
            (@gaps RealNum.scalar
               (@mergeKnots RealNum.scalar (gaps fourRealKnots)
                            fourRealKnots))
  /\ ((0 < 1)%R ->
      Forall (fun g => (0 < g)%R)
             (@gaps RealNum.scalar
                (@mergeKnots RealNum.scalar (gaps fourRealKnots)
                             fourRealKnots))).
Proof.
  split; [exact fourRealKnots_gaps|].
  split; [apply criterion_true; lra|].
  split; [exact fourRealKnots_merged|].
  apply (merge_spacing (gaps fourRealKnots) fourRealKnots 1%R).
  - discriminate.
  - reflexivity.
  - rewrite fourRealKnots_gaps.
    repeat (constructor; [lra|]). constructor.
Defined.

(** Five knots on a line, at x = 0, 10, 11, 21 and 22, in binary64: the
    distances are 10, 1, 10, 1, so that [d_min] is 1; B and C are merged,
    and the last two knots are still one unit apart, less than
    [(r - 2) * d_min = 2]. *)
Definition fiveKnots : list (@VCurveKnot Binary64.scalar) :=
  [knotAt 0 0 0; knotAt 10 0 0.1; knotAt 11 0 0.2; knotAt 21 0 0.1;
   knotAt 22 0 0]%float.

Lemma merge_spacing_counterexample :
  gaps fiveKnots = [10; 1; 10; 1]%float
  /\ mergeKnots (gaps fiveKnots) fiveKnots
     = [knotAt 0 0 0; knotAt 11 0 0.2; knotAt 21 0 0.1; knotAt 22 0 0]%float
  /\ gaps (mergeKnots (gaps fiveKnots) fiveKnots) = [11; 10; 1]%float
  /\ PrimFloat.ltb 1 ((4 - 2) * 1) = true.
Proof. repeat (split; [reflexivity|]). reflexivity. Qed.

(** C4.  Over the reals: whatever the curve and the sample, [continueFit]
    returns a curve with at least one knot, whose first and last knots are
    corners, whose inner knots carry the supplementary angle at their
    position and are corners exactly when that angle exceeds
    [maxSmoothKnotAngle], and whose consecutive knots are farther apart
    than [max(10 * eps, resolution of the first input sample)]. *)
Theorem knots_invariants (Co : @Collaborators RealNum.scalar)
    (s : @VCurveInputSample RealNum.scalar) (c : VCurve) :
  exists c1,
    continueFit s c = Ok c1
    /\ (1 <= numKnots c1)%nat
    /\ k_isCorner (nth 0 (knots c1) VCurveKnot_init) = true
    /\ k_isCorner (nth (numKnots c1 - 1) (knots c1) VCurveKnot_init) = true
    /\ (forall i, (1 <= i)%nat -> (i + 1 < numKnots c1)%nat ->
          let kn j := nth j (knots c1) VCurveKnot_init in
          k_angle (kn i)
          = computeSupplementaryAngle (k_position (kn (i - 1)%nat))
                                      (k_position (kn i))
                                      (k_position (kn (i + 1)%nat))
          /\ k_isCorner (kn i)
             = RealNum.ltb (maxSmoothKnotAngle (params_ c1)) (k_angle (kn i)))
    /\ Forall (fun g =>
                 (Rmax (10 * (1 / 10000000000))
                       (in_resolution (nth 0 (inputSamples_ c1)
                                           VCurveInputSample_init)) < g)%R)
              (gaps (knots c1)).
Proof.
  destruct (continueFit_Ok s c) as (rf & rp & rw & segs & H).
  cbv zeta in H. destruct H as (Lrp & Lrw & Hsegs & H).
  eexists. split; [exact H|].
  unfold numKnots, knots. cbn [knots_ params_ inputSamples_].
  pose proof (knotsOf_nonempty (params_ c)
                (appendInputSample_ s (inputSamples_ c)) rp rw) as Hne.
  pose proof (knotsOf_corners (params_ c)
                (appendInputSample_ s (inputSamples_ c)) rp rw) as [Hc0 Hc1].
  split; [destruct (knotsOf _ _ _ _); simpl; [congruence|lia]|].
  split; [exact Hc0|]. split; [exact Hc1|]. split.
  - intros i H1 H2. cbv zeta.
    exact (knotsOf_inner (params_ c) (appendInputSample_ s (inputSamples_ c))
                         rp rw i H1 H2).
  - rewrite <- resolutionOf_max. apply knotsOf_far.
Qed.

(** ** Arclengths and blending weights *)

(** C3.  Over the reals: whatever the curve and the sample, [continueFit]
    returns a curve with at least one sample, where the first sample has
    arclength 0, each further sample has the arclength of the sample before
    it plus the distance between the two, so that the arclength never
    decreases along the samples, and where the last sample is at the
    position of the last knot. *)
Theorem samples_arclength (Co : @Collaborators RealNum.scalar)
    (s : @VCurveInputSample RealNum.scalar) (c : VCurve) :
  exists c1,
    continueFit s c = Ok c1
    /\ (1 <= numSamples c1)%nat
    /\ arclength (nth 0 (samples c1) VCurveSample_init) = 0%R
    /\ chained (samples c1)
    /\ (forall i j, (i <= j)%nat -> (j < numSamples c1)%nat ->
          (arclength (nth i (samples c1) VCurveSample_init)
           <= arclength (nth j (samples c1) VCurveSample_init))%R)
    /\ position (nth (numSamples c1 - 1) (samples c1) VCurveSample_init)
       = k_position (nth (numKnots c1 - 1) (knots c1) VCurveKnot_init).
Proof.
  destruct (continueFit_Ok s c) as (rf & rp & rw & segs & H).
  cbv zeta in H. destruct H as (Lrp & Lrw & Hsegs & H).
  eexists. split; [exact H|].
  unfold numSamples, samples, numKnots, knots. cbn [samples_ knots_].
  set (ks := knotsOf (params_ c) (appendInputSample_ s (inputSamples_ c))
                     rp rw) in *.
  pose proof (knotsOf_nonempty (params_ c)
                (appendInputSample_ s (inputSamples_ c)) rp rw) as Hne.
  pose proof (knotsOf_corners (params_ c)
                (appendInputSample_ s (inputSamples_ c)) rp rw) as [Hc0 Hc1].
  fold ks in Hne, Hc0, Hc1.
  destruct (computeSamples_chained (params_ c) ks segs Hne Hc0 Hc1 Hsegs)
    as [Hch H0].
  split; [rewrite length_app; simpl; lia|].
  split; [exact H0|]. split; [exact Hch|]. split.
  - intros i j Hij Hj. now apply chained_monotone.
  - rewrite length_app. simpl.
    replace (length segs + 1 - 1)%nat with (length segs) by lia.
    rewrite app_nth2, Nat.sub_diag by lia. simpl.
    apply lastSample_fields.
Qed.

(** The weight of the sample [j] of a fit over [k] samples is positive in
    binary64 too, for the windows the code uses. *)
Lemma w_pos_binary64 (j k : nat) :
  (1 <= j)%nat -> (j + 2 <= k)%nat -> (k <= 5)%nat ->
  PrimFloat.ltb 0 (@w_ Binary64.scalar
                       (Binary64.of_nat j / Binary64.of_nat (k - 1))%float)
  = true.
Proof.
  intros H1 H2 H3.
  assert (H : ((k = 3 /\ j = 1) \/ (k = 4 /\ j = 1) \/ (k = 4 /\ j = 2)
               \/ (k = 5 /\ j = 1) \/ (k = 5 /\ j = 2)
               \/ (k = 5 /\ j = 3))%nat)
    by lia.
  destruct H as [H|[H|[H|[H|[H|H]]]]]; destruct H as [-> ->]; reflexivity.
Qed.

(** C6.  For an input history of [n] samples and an inner sample [i]
    ([1 <= i <= n - 2]), with [numFits = n - min(5, n) + 1] fits over
    windows of [k = n - numFits + 1] samples: some fit [i - j] has the
    sample [i] at an inner place [j] of its window, where the weight
    [w_(j / (k - 1))] is positive; and the sum of the weights that
    [averageRegFits_] divides by is positive, whatever the fits are.  Both
    hold over the reals and in binary64. *)
Theorem blend_weights_positive (n i : nat) :
  (1 <= i)%nat -> (i + 2 <= n)%nat ->
  let numFits := (n - Nat.min 5 n + 1)%nat in
  let k := (n - numFits + 1)%nat in
  (3 <= k)%nat
  /\ (exists j,
        (1 <= j)%nat /\ (j + 2 <= k)%nat
        /\ (j <= i)%nat /\ (i - j < numFits)%nat
        /\ (0 < @w_ RealNum.scalar (INR j / INR (k - 1)))%R
        /\ PrimFloat.ltb 0 (@w_ Binary64.scalar
                              (Binary64.of_nat j / Binary64.of_nat (k - 1))%float)
           = true)
  /\ (forall (Co : @Collaborators RealNum.scalar) (regFits : list CubicCurve),
        (0 < snd (@averageRegFits_acc RealNum.scalar Co regFits k numFits i))%R)
  /\ (forall (Co : @Collaborators Binary64.scalar) (regFits : list CubicCurve),
        PrimFloat.ltb 0 (snd (@averageRegFits_acc Binary64.scalar Co regFits
                                                  k numFits i)) = true).
Proof.
  intros H1 H2. cbv zeta. split; [lia|]. split; [|split].
  - destruct (covered n i H1 H2) as (j & Hj1 & Hj2 & Hc).
    cbv zeta in *. exists j.
    unfold covers in Hc. apply andb_true_iff in Hc. destruct Hc as [Hc1 Hc2].
    apply Z.leb_le in Hc1. apply Z.ltb_lt in Hc2.
    repeat split; try lia.
    + now apply w_pos.
    + apply w_pos_binary64; lia.
  - intros Co regFits. now apply sumW_pos_real.
  - intros Co regFits. now apply sumW_pos_binary64.
Qed.

Lemma blend_weights_positive_witness :
  (3 <= 3 - (3 - Nat.min 5 3 + 1) + 1)%nat
  /\ (exists j,
        (1 <= j)%nat /\ (j + 2 <= 3 - (3 - Nat.min 5 3 + 1) + 1)%nat
        /\ (j <= 1)%nat /\ (1 - j < 3 - Nat.min 5 3 + 1)%nat
        /\ (0 < @w_ RealNum.scalar
                  (INR j / INR (3 - (3 - Nat.min 5 3 + 1) + 1 - 1)))%R
        /\ PrimFloat.ltb 0
             (@w_ Binary64.scalar
                (Binary64.of_nat j
                 / Binary64.of_nat (3 - (3 - Nat.min 5 3 + 1) + 1 - 1))%float)
           = true)
  /\ (forall (Co : @Collaborators RealNum.scalar) (regFits : list CubicCurve),
        (0 < snd (@averageRegFits_acc RealNum.scalar Co regFits
                    (3 - (3 - Nat.min 5 3 + 1) + 1)
                    (3 - Nat.min 5 3 + 1) 1))%R)
  /\ (forall (Co : @Collaborators Binary64.scalar) (regFits : list CubicCurve),
        PrimFloat.ltb 0 (snd (@averageRegFits_acc Binary64.scalar Co regFits
                                (3 - (3 - Nat.min 5 3 + 1) + 1)
                                (3 - Nat.min 5 3 + 1) 1)) = true).
Proof.
  apply (blend_weights_positive 3 1); lia.
Defined.

(** ** Corner samples *)

(** C7, as the code has it.  For every implementation of the operations on
    [double]: when the knot C of the segment [i] is a corner and not the
    first knot, take [s0] the last sample emitted before, [s1] and [s2] the
    first two samples [loc] of the segment ([s1] is at C, with the width of
    C), [a1 = atan2(p1 - p0)] and [b = atan2(p2 - p1)]; the angle [a2] is
    [b - 2 PI] when [b > a1 + PI], [b + 2 PI] when [b < a1 - PI], and [b]
    otherwise.  When the conversion of [q = |a2 - a1| / maxSampleAngle] to
    [unsigned int] is defined, the segment appends to [samples_] first the
    samples [fan], then [loc] but its last; [fan] has [na = floor(q)]
    samples, computed with the operations of [double]; the sample [k] of
    [fan] has the position, width and arclength of [s1], the tangent
    [(cos a, sin a)] and the normal [(-sin a, cos a)] with
    [a = a1 + k / na * (a2 - a1)].

    Over the reals, with [a1] and [b] in (-PI, PI] and [maxSampleAngle]
    above [PI / 2^32]: [a2] is [b] up to a full turn and within PI of
    [a1]; the conversion is defined; [na] is the integer part of [q], the
    only [n] with [n <= q < n + 1], and is below [2^32]; with
    [|a2 - a1| = PI / 2] and [maxSampleAngle = PI / 8] it is four. *)
Theorem corner_fan :
  (forall (Sc : Scalar) (Co : Collaborators) (params : VCurveParams)
          (knots : list VCurveKnot) (i : nat)
          (samples_ : list VCurveSample),
      (0 < i)%nat -> (i + 1 < length knots)%nat ->
      k_isCorner (nth 0 knots VCurveKnot_init) = true ->
      k_isCorner (nth (length knots - 1) knots VCurveKnot_init) = true ->
      k_isCorner (nth i knots VCurveKnot_init) = true ->
      samples_ <> [] ->
      exists A B E F : VCurveKnot,
        let C := nth i knots VCurveKnot_init in
        let D_ := nth (i + 1) knots VCurveKnot_init in
        let loc := segmentLocal A B C D_ E F i samples_ in
        let s0 := last samples_ VCurveSample_init in
        let s1 := nth 0 loc VCurveSample_init in
        let s2 := nth 1 loc VCurveSample_init in
        let a1 := atan2 (glm.y (position s1) - glm.y (position s0))%D
                        (glm.x (position s1) - glm.x (position s0))%D in
        let b := atan2 (glm.y (position s2) - glm.y (position s1))%D
                       (glm.x (position s2) - glm.x (position s1))%D in
        let a2 :=
          (if b >? a1 + M_PI then b - d_of_nat 2 * M_PI
           else if b <? a1 - M_PI then b + d_of_nat 2 * M_PI
           else b)%D in
        let q := (dabs (a2 - a1) / maxSampleAngle params)%D in
        let na := d_floor_uint q in
        controlKnots knots i = Ok (A, B, C, D_, E, F)
        /\ (2 <= length loc)%nat
        /\ position s1 = k_position C
        /\ width s1 = k_width C
        /\ (floorDefined q ->
            exists fan : list VCurveSample,
              segment params knots i samples_
              = Ok ((samples_ ++ fan) ++ firstn (length loc - 1) loc)
              /\ length fan = na
              /\ forall k, (k < na)%nat ->
                   let a := (a1 + d_of_nat k / d_of_nat na * (a2 - a1))%D in
                   let x := nth k fan VCurveSample_init in
                   position x = position s1 /\ width x = width s1
                   /\ arclength x = arclength s1
                   /\ tangent x = glm.vec2 (cos a) (sin a)
                   /\ normal x = glm.vec2 (- sin a)%D (cos a)))
  /\ (forall a1 b maxSampleAngle : R,
        (- PI < a1 <= PI)%R -> (- PI < b <= PI)%R ->
        (PI / 4294967296 < maxSampleAngle)%R ->
        let a2 : R :=
          (if @dlt RealNum.scalar (a1 + PI) b then b - 2 * PI
           else if @dlt RealNum.scalar b (a1 - PI) then b + 2 * PI
           else b)%R in
        let q : R := (Rabs (a2 - a1) / maxSampleAngle)%R in
        let na := @d_floor_uint RealNum.scalar q in
        (a2 = b \/ a2 = (b - 2 * PI)%R \/ a2 = (b + 2 * PI)%R)
        /\ (Rabs (a2 - a1) <= PI)%R
        /\ @floorDefined RealNum.scalar q
        /\ na = Z.to_nat (Int_part q)
        /\ (INR na <= q < INR na + 1)%R
        /\ (Z.of_nat na < 4294967296)%Z
        /\ (forall n : nat, (INR n <= q < INR n + 1)%R -> na = n)
        /\ (Rabs (a2 - a1) = (PI / 2)%R -> maxSampleAngle = (PI / 8)%R ->
            na = 4%nat)).
Proof.
  split.
  - intros Sc Co params knots i samples_ Hi Hl H0 Hn HC Hs.
    destruct (segment_Ok params knots i samples_ Hl H0 Hn (or_intror Hs))
      as (A & B & E & F & Hck & Hseg).
    set (C := nth i knots VCurveKnot_init) in *.
    set (D_ := nth (i + 1) knots VCurveKnot_init) in *.
    destruct (segmentLocal_first A B C D_ E F i samples_) as (Hlen & Hp & Hw).
    set (loc := segmentLocal A B C D_ E F i samples_) in *.
    set (s0 := last samples_ VCurveSample_init).
    set (fan := cornerSamples (maxSampleAngle params) s0
                              (nth 0 loc VCurveSample_init)
                              (nth 1 loc VCurveSample_init)).
    exists A, B, E, F. cbv zeta.
    assert (Hfan : segmentFan params C i samples_ loc = fan).
    { unfold segmentFan. rewrite HC.
      destruct (Nat.ltb_spec 0 i); [reflexivity|lia]. }
    split; [exact Hck|].
    split; [exact Hlen|]. split; [exact Hp|]. split; [exact Hw|].
    intros _. exists fan. split.
    { rewrite Hseg. unfold segmentOut. cbv zeta. fold loc.
      now rewrite Hfan. }
    split.
    { unfold fan. rewrite cornerSamples_length. reflexivity. }
    intros k Hk.
    pose proof (cornerSamples_nth (maxSampleAngle params) s0
                  (nth 0 loc VCurveSample_init)
                  (nth 1 loc VCurveSample_init) k) as H.
    cbv zeta in H. rewrite cornerSamples_length in H.
    exact (H Hk).
  - intros a1 b m Ha Hb Hm. cbv zeta.
    destruct (closest_angle_real a1 b m Ha Hb Hm)
      as (H1 & H2 & H3 & H4 & H5).
    cbv zeta in H1, H2, H3, H4, H5.
    split; [exact H1|]. split; [exact H2|].
    split; [exact (floorDefined_real _ _ H4 H3)|].
    split; [reflexivity|]. split; [exact H3|]. split; [exact H4|].
    split; [exact H5|].
    intros Hq ->.
    apply (numCornerSamples_quarter a1 _ Hq).
Qed.

(** Three corner knots over the reals, on a quarter turn:
    (0, 0), (10, 0), (10, 10). *)
Definition cornerKnotAt (x y : R) : @VCurveKnot RealNum.scalar :=
  @Build_VCurveKnot RealNum.scalar (@glm.vec2 RealNum.scalar x y)
                    2%R 0%R true.

Definition turnKnots : list (@VCurveKnot RealNum.scalar) :=
  [cornerKnotAt 0 0; cornerKnotAt 10 0; cornerKnotAt 10 10].

Definition turnParams : @VCurveParams RealNum.scalar :=
  @Build_VCurveParams RealNum.scalar (PI / 4)%R (PI / 8)%R.

Definition sampleAt (x y : R) : @VCurveSample RealNum.scalar :=
  @mkSample RealNum.scalar (@glm.vec2 RealNum.scalar x y) 2%R 0%R.

(** The segment from (10, 0) to (10, 10): the knots around it, and the
    first two subdivided positions. *)
Lemma turn_control :
  @controlKnots RealNum.scalar turnKnots 1
  = Ok (cornerKnotAt 10 0, cornerKnotAt 10 0, cornerKnotAt 10 0,
        cornerKnotAt 10 10, cornerKnotAt 10 10, cornerKnotAt 10 10).
Proof. reflexivity. Qed.

Lemma turn_positions :
  let P := @segmentPositions RealNum.scalar RealNum.collaborators
             (cornerKnotAt 10 0) (cornerKnotAt 10 0) (cornerKnotAt 10 0)
             (cornerKnotAt 10 10) (cornerKnotAt 10 10) (cornerKnotAt 10 10) in
  length P = 17%nat
  /\ nth 4 P zero2 = @glm.vec2 RealNum.scalar 10%R 0%R
  /\ nth 5 P zero2 = @glm.vec2 RealNum.scalar 10%R (1005 / 1024)%R.
Proof.
  cbv zeta. unfold segmentPositions.
  split; [apply (subdivide_knots interpolateUsingDynLevin_vec)|].
  split; [apply (subdivide_knots interpolateUsingDynLevin_vec)|].
  rewrite subdivide_next. cbv zeta.
  cbn [interpolateUsingDynLevin_vec RealNum.collaborators].
  unfold RealNum.stencil_vec, RealNum.stencil, tension, d1, cornerKnotAt.
  cbn [k_position glm.x glm.y ddiv d_of_nat RealNum.scalar].
  simpl INR. f_equal; field.
Qed.

Lemma turn_second :
  position
    (nth 1 (@segmentLocal RealNum.scalar RealNum.collaborators
              (cornerKnotAt 10 0) (cornerKnotAt 10 0) (cornerKnotAt 10 0)
              (cornerKnotAt 10 10) (cornerKnotAt 10 10) (cornerKnotAt 10 10)
              1 [sampleAt 0 0])
         VCurveSample_init)
  = @glm.vec2 RealNum.scalar 10%R (1005 / 1024)%R.
Proof.
  destruct turn_positions as (HL & H4 & H5).
  unfold segmentLocal.
  set (P := segmentPositions _ _ _ _ _ _) in *.
  set (W := segmentWidths _ _ _ _ _ _).
  rewrite (nth_map_eq position _ (localSamples 1 [sampleAt 0 0] P W)
             VCurveSample_init 1)
    by (now apply tangentSamples_map).
  rewrite localSamples_second; [exact H5|lia|].
  rewrite H4, H5. apply ltb_true.
  unfold eps, glm.length, glm.sub.
  cbn [glm.x glm.y dsqrt dadd dsub dmul lit_1em10 RealNum.scalar].
  replace ((10 - 10) * (10 - 10)
           + (1005 / 1024 - 0) * (1005 / 1024 - 0))%R
    with ((1005 / 1024) * (1005 / 1024))%R by field.
  rewrite sqrt_square by lra. lra.
Qed.

Lemma arg2_right (y x : R) :
  (0 < x)%R -> y = 0%R -> RealNum.arg2 y x = 0%R.
Proof.
  intros Hx ->. unfold RealNum.arg2.
  destruct (Rlt_dec 0 x); [|contradiction].
  unfold Rdiv. rewrite Rmult_0_l. apply atan_0.
Qed.

Lemma arg2_up (y x : R) :
  x = 0%R -> (0 < y)%R -> RealNum.arg2 y x = (PI / 2)%R.
Proof.
  intros -> Hy. unfold RealNum.arg2.
  destruct (Rlt_dec 0 0); [lra|].
  destruct (Rlt_dec 0 y); [reflexivity|contradiction].
Qed.

(** On the quarter turn (0, 0), (10, 0), (10, 10) with
    [maxSampleAngle = PI / 8], the segment that starts at the corner
    (10, 0) adds four samples there, with the tangents at the angles 0,
    PI / 8, PI / 4 and 3 PI / 8. *)
Lemma corner_fan_witness :
  exists loc fan : list (@VCurveSample RealNum.scalar),
    @segment RealNum.scalar RealNum.collaborators turnParams turnKnots 1
             [sampleAt 0 0]
    = Ok (([sampleAt 0 0] ++ fan) ++ firstn (length loc - 1) loc)
    /\ length fan = 4%nat
    /\ forall k, (k < 4)%nat ->
         position (nth k fan VCurveSample_init)
         = @glm.vec2 RealNum.scalar 10%R 0%R
         /\ tangent (nth k fan VCurveSample_init)
            = @glm.vec2 RealNum.scalar
                (Rtrigo_def.cos (INR k / 4 * (PI / 2)))
                (Rtrigo_def.sin (INR k / 4 * (PI / 2))).
Proof.
  destruct (proj1 corner_fan RealNum.scalar RealNum.collaborators
                  turnParams turnKnots 1 [sampleAt 0 0])
    as (A & B & E & F & H).
  - lia.
  - simpl. lia.
  - reflexivity.
  - reflexivity.
  - reflexivity.
  - discriminate.
  - cbv zeta in H. destruct H as (Hck & _ & Hp & _ & Hfan).
    rewrite turn_control in Hck.
    injection Hck as <- <- <- <-.
    change (nth 1 turnKnots VCurveKnot_init) with (cornerKnotAt 10 0) in *.
    change (nth (1 + 1) turnKnots VCurveKnot_init)
      with (cornerKnotAt 10 10) in *.
    pose proof turn_second as H2.
    set (loc := segmentLocal _ _ _ _ _ _ 1 [sampleAt 0 0]) in *.
    change (position (last [sampleAt 0 0] VCurveSample_init))
      with (@glm.vec2 RealNum.scalar 0%R 0%R) in *.
    change (k_position (cornerKnotAt 10 0))
      with (@glm.vec2 RealNum.scalar 10%R 0%R) in Hp.
    set (a1 := atan2 _ _) in Hfan.
    set (b := atan2 _ _) in Hfan.
    assert (Ea1 : a1 = 0%R).
    { unfold a1. rewrite Hp.
      cbn [glm.x glm.y atan2 RealNum.collaborators dsub RealNum.scalar].
      apply arg2_right; lra. }
    assert (Eb : b = (PI / 2)%R).
    { unfold b. rewrite H2, Hp.
      cbn [glm.x glm.y atan2 RealNum.collaborators dsub RealNum.scalar].
      apply arg2_up; lra. }
    clearbody a1 b. subst a1 b.
    pose proof PI_RGT_0 as Hpi.
    destruct (proj2 corner_fan 0%R (PI / 2)%R (PI / 8)%R)
      as (_ & _ & Hdef & _ & _ & _ & _ & H4); [lra|lra|lra|].
    cbv zeta in Hdef, H4.
    assert (Ha2 : (if @dlt RealNum.scalar (0 + PI) (PI / 2) then PI / 2 - 2 * PI
                   else if @dlt RealNum.scalar (PI / 2) (0 - PI)
                        then PI / 2 + 2 * PI else PI / 2)%R = (PI / 2)%R).
    { cbn [dlt RealNum.scalar].
      rewrite (proj2 (ltb_false (0 + PI) (PI / 2))) by lra.
      rewrite (proj2 (ltb_false (PI / 2) (0 - PI))) by lra.
      reflexivity. }
    rewrite Ha2 in Hdef, H4.
    assert (Hq : Rabs (PI / 2 - 0) = (PI / 2)%R)
      by (rewrite Rabs_right; lra).
    specialize (H4 Hq eq_refl).
    cbn [dlt dadd dsub dmul d_of_nat dabs ddiv M_PI RealNum.scalar
         maxSampleAngle turnParams] in Hfan.
    rewrite (proj2 (ltb_false (0 + PI) (PI / 2))) in Hfan by lra.
    rewrite (proj2 (ltb_false (PI / 2) (0 - PI))) in Hfan by lra.
    destruct (Hfan Hdef) as (fan & Hseg & Hna & Hk).
    rewrite H4 in Hna, Hk.
    exists loc, fan.
    split; [exact Hseg|].
    split; [exact Hna|].
    intros k Hlt. destruct (Hk k Hlt) as (Hpk & _ & _ & Htk & _).
    split; [now rewrite Hpk, Hp|].
    rewrite Htk. cbn [cos sin RealNum.collaborators].
    replace (0 + INR k / INR 4 * (PI / 2 - 0))%R
      with (INR k / 4 * (PI / 2))%R by (simpl INR; field).
    reflexivity.
Defined.

(** In binary64 a right angle can give three samples, not four.  The
    directions (1, 4) and (-4, 1) are perpendicular; [std::atan2(4, 1)] is
    1.3258176636680326 and [std::atan2(1, -4)] is 2.896613990462929, the
    doubles nearest to the two angles.  Their difference is computed as
    1.5707963267948963, one step below [M_PI / 2]; divided by [M_PI / 8] it
    gives 3.9999999999999996, where the conversion is defined, and the
    floor is 3. *)
Section CornerFanBinary64.
Local Existing Instance Binary64.scalar.

Lemma corner_fan_counterexample :
  let a1 : float := 1.3258176636680326%float in
  let b : float := 2.896613990462929%float in
  let a2 : float :=
    (if b >? a1 + M_PI then b - d_of_nat 2 * M_PI
     else if b <? a1 - M_PI then b + d_of_nat 2 * M_PI
     else b)%D in
  (1 * -4 + 4 * 1 = 0)%float
  /\ a2 = b
  /\ (abs (a2 - a1) = 1.5707963267948963)%float
  /\ PrimFloat.ltb (abs (a2 - a1)) (M_PI / 2) = true
  /\ (abs (a2 - a1) / (M_PI / 8) = 3.9999999999999996)%float
  /\ floorDefined (dabs (a2 - a1) / (M_PI / d_of_nat 8))%D
  /\ d_floor_uint (dabs (a2 - a1) / (M_PI / d_of_nat 8))%D = 3%nat
  /\ numCornerSamples (M_PI / 8)%float a1 a2 = 3%nat.
Proof.
  cbv zeta. do 5 (split; [reflexivity|]).
  split.
  { exists 3%nat. split; [reflexivity|]. split; reflexivity. }
  split; reflexivity.
Qed.
End CornerFanBinary64.

(** * Further properties of the code *)

(** ** The sizes of the vectors after [continueFit] *)

Section Sizes.
Context {Sc : Scalar} {Co : Collaborators}.

Local Open Scope D_scope.

Local Abbreviation kn ks i := (nth i ks VCurveKnot_init).

Local Opaque subdivide.

(** There are at most as many knots as smoothed positions. *)
Lemma removeDuplicates_count (resolution : D) (n : nat)
    (regPositions : list glm.dvec2) (regWidths : list D) :
  (length (fst (removeDuplicates resolution n regPositions regWidths))
   <= 1 + (n - 1))%nat.
Proof.
  rewrite removeDuplicates_eq. cbv zeta. cbn [fst].
  assert (H : forall l st,
             (length (snd (fst (fold_left
                                  (keepFar resolution regPositions regWidths)
                                  l st)))
              <= length (snd (fst st)) + length l)%nat).
  { induction l as [|i l IH]; intros st; [simpl; lia|].
    cbn [fold_left]. eapply Nat.le_trans; [apply IH|].
    destruct st as [[k ks] d]. unfold keepFar.
    destruct (dlt _ _); cbn [fst snd]; rewrite ?length_app; simpl; lia. }
  eapply Nat.le_trans; [apply H|]. rewrite length_seq. simpl. lia.
Qed.



End Sizes.


(** ** What the regression passes compute *)

Section ClosedForms.
Context {Sc : Scalar} {Co : Collaborators}.

Local Open Scope D_scope.

Local Abbreviation ins_ h i := (nth i h VCurveInputSample_init).

(** A loop [for (i = a; i < a + len; ++i) v[i] = g(i);]. *)
Lemma assign_values_nth {A} (z : A) (g : nat -> A) (len a : nat)
    (v : list A) (j : nat) :
  (a + len <= length v)%nat ->
  nth j (fold_left (fun w i => vset i (g i) w) (seq a len) v) z
  = if ((a <=? j) && (j <? a + len))%nat then g j else nth j v z.
Proof.
  intros H. apply (assignLoop_nth z (fun _ i => g i) len a v j H).
Qed.

(** The smoothed width of the sample [j] among [n]. *)
Definition smoothedWidth (inputSamples : list VCurveInputSample) (j : nat)
    : D :=
  let n := length inputSamples in
  let w i := in_width (ins_ inputSamples i) in
  if (n <=? 1)%nat then w 0%nat
  else if (j =? n - 1)%nat then
    lit_0_67 * w (n - 1)%nat + lit_0_33 * w (n - 2)%nat
  else if (j =? 0)%nat then lit_0_67 * w 0%nat + lit_0_33 * w 1%nat
  else lit_0_25 * w (j - 1)%nat + lit_0_50 * w j + lit_0_25 * w (j + 1)%nat.

Definition regWidthsOf (inputSamples : list VCurveInputSample) : list D :=
  map (smoothedWidth inputSamples) (seq 0 (length inputSamples)).

Lemma computeRegWidths_closed (inputSamples : list VCurveInputSample)
    (regWidths : list D) :
  inputSamples <> [] ->
  computeRegWidths_ inputSamples regWidths = Ok (regWidthsOf inputSamples).
Proof.
  intros Hne.
  destruct (computeRegWidths_Ok inputSamples regWidths Hne) as (rw & H & Hl).
  rewrite H. f_equal.
  apply (nth_ext _ _ d0 d0);
    [unfold regWidthsOf; now rewrite length_map, length_seq|].
  intros j Hj. rewrite Hl in Hj.
  unfold regWidthsOf.
  rewrite (nth_indep (map (smoothedWidth inputSamples)
                          (seq 0 (length inputSamples)))
                     d0 (smoothedWidth inputSamples 0))
    by (now rewrite length_map, length_seq).
  rewrite (map_nth (smoothedWidth inputSamples)), seq_nth by assumption.
  cbn [Nat.add].
  (* the vector the code returns *)
  unfold computeRegWidths_ in H. rewrite (length_pos _ Hne) in H.
  cbv zeta in H.
  match type of H with
  | (if length ?X =? _ then _ else _) = _ =>
    assert (E : rw = X);
      [destruct (length X =? length inputSamples); congruence|]
  end.
  clear H. rewrite E. clear E.
  set (n := length inputSamples) in *.
  rewrite assign_values_nth.
  2:{ destruct (1 <? n)%nat; rewrite !vset_length, resize_length; lia. }
  unfold smoothedWidth. fold n.
  destruct (Nat.leb_spec n 1) as [Hn1|Hn1].
  - (* one sample *)
    assert (n = 1%nat) by lia. assert (j = 0%nat) by lia. subst j.
    replace (n - 1)%nat with 0%nat by lia.
    destruct (Nat.ltb_spec 1 n); [lia|].
    cbn [Nat.leb andb Nat.ltb].
    destruct (1 + (n - 1 - 1))%nat eqn:E1; [lia|]. cbn [Nat.leb andb].
    rewrite !nth_vset_eq by (rewrite ?vset_length, resize_length; lia).
    reflexivity.
  - destruct (Nat.ltb_spec 1 n); [|lia].
    destruct (Nat.eqb_spec j (n - 1)) as [->|Hjn].
    + destruct (Nat.ltb_spec (n - 1) (1 + (n - 1 - 1))); [lia|].
      rewrite andb_false_r.
      rewrite nth_vset_eq by (rewrite vset_length, resize_length; lia).
      reflexivity.
    + destruct (Nat.eqb_spec j 0) as [->|Hj0].
      * cbn [Nat.leb andb].
        rewrite nth_vset_neq by lia.
        rewrite nth_vset_eq by (rewrite resize_length; lia).
        reflexivity.
      * destruct (Nat.leb_spec 1 j); [|lia].
        destruct (Nat.ltb_spec j (1 + (n - 1 - 1))); [|lia].
        reflexivity.
Qed.

(** The fit of the window that starts at the sample [i]. *)
Definition fitAt (inputSamples : list VCurveInputSample) (i : nat)
    : CubicCurve :=
  fitQuadratic
    (map (fun j => in_position (ins_ inputSamples (i + j)))
         (seq 0 (Nat.min 5 (length inputSamples)))).

Definition regFitsOf (inputSamples : list VCurveInputSample)
    : list CubicCurve :=
  map (fitAt inputSamples)
      (seq 0 (length inputSamples - Nat.min 5 (length inputSamples) + 1)).

Lemma computeRegFits_closed (inputSamples : list VCurveInputSample)
    (regFits : list CubicCurve) :
  inputSamples <> [] ->
  computeRegFits_ inputSamples regFits = Ok (regFitsOf inputSamples).
Proof.
  intros Hne.
  destruct (computeRegFits_Ok inputSamples regFits Hne) as (rf & H & Hl).
  rewrite H. f_equal.
  apply (nth_ext _ _ CubicCurve_init CubicCurve_init);
    [unfold regFitsOf; now rewrite length_map, length_seq|].
  intros j Hj. rewrite Hl in Hj.
  unfold regFitsOf.
  rewrite (nth_indep (map (fitAt inputSamples) _)
                     CubicCurve_init (fitAt inputSamples 0))
    by (now rewrite length_map, length_seq).
  rewrite (map_nth (fitAt inputSamples)), seq_nth by assumption.
  cbn [Nat.add].
  unfold computeRegFits_ in H. rewrite (length_pos _ Hne) in H.
  cbv zeta in H.
  set (n := length inputSamples) in *.
  match type of H with
  | (if (0 <? length ?X)%nat then _ else _) = _ =>
    assert (E : rf = X);
      [destruct (0 <? length X)%nat; [|discriminate];
       destruct (length X <=? n)%nat; [|discriminate];
       destruct (_ || _)%bool; congruence|]
  end.
  clear H. rewrite E. clear E.
  rewrite (assign_values_nth CubicCurve_init
             (fun i => fitQuadratic
                         (map (fun j0 => in_position (ins_ inputSamples (i + j0)))
                              (seq 0 (Nat.min 5 n)))))
    by (rewrite resize_length; lia).
  cbn [Nat.leb andb].
  destruct (Nat.ltb_spec j (0 + (n - Nat.min 5 n + 1))); [|lia].
  reflexivity.
Qed.

Lemma fold_left_same {S I} (f g : S -> I -> S) (l : list I) (s : S) :
  (forall s i, f s i = g s i) -> fold_left f l s = fold_left g l s.
Proof.
  intros H. revert s. induction l as [|i l IH]; intros s; simpl; auto.
  now rewrite H, IH.
Qed.

(** The weighted average of the fits at the sample [i]. *)
Definition blendedAt (regFits : list CubicCurve)
    (numSamplesPerFit numFits i : nat) : glm.dvec2 :=
  let '(pos_acc, sumW) :=
    averageRegFits_acc regFits numSamplesPerFit numFits i in
  glm.scale (d1 / sumW) pos_acc.

(** The smoothed position of the sample [j]: the two ends are the input
    positions themselves. *)
Definition smoothedPosition (inputSamples : list VCurveInputSample)
    (regFits : list CubicCurve) (j : nat) : glm.dvec2 :=
  let n := length inputSamples in
  let numFits := length regFits in
  if (j =? n - 1)%nat then in_position (ins_ inputSamples (n - 1))
  else if (j =? 0)%nat then in_position (ins_ inputSamples 0)
  else blendedAt regFits (n - numFits + 1) numFits j.

Definition regPositionsOf (inputSamples : list VCurveInputSample)
    (regFits : list CubicCurve) : list glm.dvec2 :=
  map (smoothedPosition inputSamples regFits)
      (seq 0 (length inputSamples)).

Lemma averageRegFits_closed (inputSamples : list VCurveInputSample)
    (regFits : list CubicCurve) (regPositions : list glm.dvec2) :
  inputSamples <> [] ->
  length regFits
  = (length inputSamples - Nat.min 5 (length inputSamples) + 1)%nat ->
  averageRegFits_ inputSamples regFits regPositions
  = Ok (regPositionsOf inputSamples regFits).
Proof.
  intros Hne Hf.
  destruct (averageRegFits_Ok inputSamples regFits regPositions Hne Hf)
    as (rp & H & Hl).
  rewrite H. f_equal.
  apply (nth_ext _ _ zero2 zero2);
    [unfold regPositionsOf; now rewrite length_map, length_seq|].
  intros j Hj. rewrite Hl in Hj.
  unfold regPositionsOf.
  rewrite (nth_indep (map (smoothedPosition inputSamples regFits) _)
                     zero2 (smoothedPosition inputSamples regFits 0))
    by (now rewrite length_map, length_seq).
  rewrite (map_nth (smoothedPosition inputSamples regFits)), seq_nth
    by assumption.
  cbn [Nat.add].
  unfold averageRegFits_ in H. rewrite (length_pos _ Hne) in H.
  cbv zeta in H.
  set (n := length inputSamples) in *.
  set (numFits := length regFits) in *.
  match type of H with
  | context [length ?X =? n] =>
    assert (E : rp = X);
      [destruct (0 <? numFits)%nat; [|discriminate];
       destruct (numFits <=? n)%nat; [|discriminate];
       destruct (_ || _)%bool; [|discriminate];
       destruct (length X =? n); congruence|]
  end.
  clear H. rewrite E. clear E.
  rewrite (fold_left_same _
             (fun (w : list glm.dvec2) i =>
                vset i (blendedAt regFits (n - numFits + 1) numFits i) w)).
  2:{ intros w i. unfold blendedAt.
      now destruct (averageRegFits_acc _ _ _ _). }
  unfold smoothedPosition. fold n numFits.
  rewrite nth_vset.
  rewrite (fold_vset_length
             (fun (w : list glm.dvec2) i =>
                blendedAt regFits (n - numFits + 1) numFits i)
             (fun i => i)).
  rewrite vset_length, resize_length.
  destruct (Nat.eqb_spec (n - 1) j) as [<-|Hjn].
  - destruct (Nat.ltb_spec (n - 1) n); [|lia].
    now rewrite Nat.eqb_refl.
  - cbn [andb].
    destruct (Nat.eqb_spec j (n - 1)); [lia|].
    rewrite (assign_values_nth zero2
               (blendedAt regFits (n - numFits + 1) numFits))
      by (rewrite vset_length, resize_length; lia).
    destruct (Nat.eqb_spec j 0) as [->|Hj0].
    + cbn [Nat.leb andb].
      rewrite nth_vset_eq by (rewrite resize_length; lia). reflexivity.
    + destruct (Nat.leb_spec 1 j); [|lia].
      destruct (Nat.ltb_spec j (1 + (n - 1 - 1))); [|lia].
      reflexivity.
Qed.
End ClosedForms.

(** ** The curve after [continueFit], pass by pass *)

Section AfterFit.
Context {Sc : Scalar} {Co : Collaborators}.

Local Open Scope D_scope.

(** [continueFit] with the results of the regression passes spelled out. *)
Lemma continueFit_passes (s : VCurveInputSample) (c : VCurve) :
  exists c1,
    continueFit s c = Ok c1
    /\ params_ c1 = params_ c
    /\ inputSamples_ c1 = appendInputSample_ s (inputSamples_ c)
    /\ inputSamples_ c1 <> []
    /\ regFits_ c1 = regFitsOf (inputSamples_ c1)
    /\ regPositions_ c1 = regPositionsOf (inputSamples_ c1) (regFits_ c1)
    /\ regWidths_ c1 = regWidthsOf (inputSamples_ c1)
    /\ knots_ c1 = knotsOf (params_ c1) (inputSamples_ c1)
                           (regPositions_ c1) (regWidths_ c1)
    /\ computeSamples_ (params_ c1) (knots_ c1) = Ok (samples_ c1).
Proof.
  pose proof (appendInputSample_nonempty s (inputSamples_ c)) as Hne.
  set (ins := appendInputSample_ s (inputSamples_ c)) in *.
  pose proof (computeRegFits_closed ins (regFits_ c) Hne) as Hrf.
  assert (Lrf : length (regFitsOf ins)
                = (length ins - Nat.min 5 (length ins) + 1)%nat)
    by (unfold regFitsOf; now rewrite length_map, length_seq).
  pose proof (averageRegFits_closed ins _ (regPositions_ c) Hne Lrf) as Hrp.
  pose proof (computeRegWidths_closed ins (regWidths_ c) Hne) as Hrw.
  assert (Lrp : length (regPositionsOf ins (regFitsOf ins)) = length ins)
    by (unfold regPositionsOf; now rewrite length_map, length_seq).
  assert (Lrw : length (regWidthsOf ins) = length ins)
    by (unfold regWidthsOf; now rewrite length_map, length_seq).
  pose proof (computeKnots_Ok (params_ c) ins _ _ Hne Lrp Lrw) as Hk.
  set (ks := knotsOf (params_ c) ins (regPositionsOf ins (regFitsOf ins))
                     (regWidthsOf ins)) in *.
  pose proof (knotsOf_nonempty (params_ c) ins
                (regPositionsOf ins (regFitsOf ins)) (regWidthsOf ins))
    as Hkn.
  pose proof (knotsOf_corners (params_ c) ins
                (regPositionsOf ins (regFitsOf ins)) (regWidthsOf ins))
    as [Hc0 Hc1].
  fold ks in Hkn, Hc0, Hc1.
  destruct (computeSamples_Ok (params_ c) ks Hkn Hc0 Hc1)
    as (segs & Hsg & Hs).
  eexists. split.
  { unfold continueFit. cbv zeta. fold ins.
    rewrite (length_pos _ Hne), Hrf. cbn [bind].
    rewrite Hrp. cbn [bind]. rewrite Hrw. cbn [bind].
    rewrite Hk. cbn [bind]. rewrite Hs. reflexivity. }
  cbn [params_ inputSamples_ regPositions_ regWidths_ regFits_ knots_
       samples_].
  repeat split; auto.
Qed.

Lemma regWidthsOf_length (h : list VCurveInputSample) :
  length (regWidthsOf h) = length h.
Proof. unfold regWidthsOf. now rewrite length_map, length_seq. Qed.

Lemma regWidthsOf_nth (h : list VCurveInputSample) (j : nat) :
  (j < length h)%nat -> nth j (regWidthsOf h) d0 = smoothedWidth h j.
Proof.
  intros Hj. unfold regWidthsOf.
  rewrite (nth_indep (map (smoothedWidth h) _) d0 (smoothedWidth h 0))
    by (now rewrite length_map, length_seq).
  now rewrite (map_nth (smoothedWidth h)), seq_nth.
Qed.

Lemma regPositionsOf_length (h : list VCurveInputSample)
    (rf : list CubicCurve) :
  length (regPositionsOf h rf) = length h.
Proof. unfold regPositionsOf. now rewrite length_map, length_seq. Qed.

Lemma regPositionsOf_first (h : list VCurveInputSample)
    (rf : list CubicCurve) :
  h <> [] ->
  nth 0 (regPositionsOf h rf) zero2
  = in_position (nth 0 h VCurveInputSample_init).
Proof.
  intros Hne.
  assert (Hn : (0 < length h)%nat) by (destruct h; simpl; [congruence|lia]).
  unfold regPositionsOf.
  rewrite (nth_indep (map (smoothedPosition h rf) _) zero2
                     (smoothedPosition h rf 0))
    by (now rewrite length_map, length_seq).
  rewrite (map_nth (smoothedPosition h rf)), seq_nth by assumption.
  unfold smoothedPosition. cbv zeta. cbn [Nat.add].
  destruct (Nat.eqb_spec 0 (length h - 1)) as [E|E]; [now rewrite <- E|].
  reflexivity.
Qed.

Lemma window_positions (h : list VCurveInputSample) (i k : nat) :
  (i + k <= length h)%nat ->
  map (fun j => in_position (nth (i + j) h VCurveInputSample_init))
      (seq 0 k)
  = map in_position (firstn k (skipn i h)).
Proof.
  intros H.
  apply (nth_ext _ _ zero2 zero2).
  - rewrite !length_map, length_seq, length_firstn, length_skipn. lia.
  - intros j Hj. rewrite length_map, length_seq in Hj.
    rewrite (nth_indep (map (fun j0 => in_position (nth (i + j0) h _)) _)
               zero2
               (in_position (nth (i + 0) h VCurveInputSample_init)))
      by (now rewrite length_map, length_seq).
    rewrite (map_nth (fun j0 => in_position (nth (i + j0) h
                                                 VCurveInputSample_init))).
    rewrite seq_nth by assumption. cbn [Nat.add].
    rewrite (nth_indep (map in_position _) zero2
                       (in_position VCurveInputSample_init))
      by (rewrite length_map, length_firstn, length_skipn; lia).
    rewrite (map_nth in_position).
    rewrite nth_firstn.
    destruct (Nat.ltb_spec j k); [|lia].
    now rewrite nth_skipn.
Qed.
End AfterFit.

(** X2.  The smoothed widths: with one input sample, its width; with more,
    [0.67 w + 0.33 w'] at each end, [w'] being the width of the neighbour,
    and [0.25 w(j-1) + 0.50 w(j) + 0.25 w(j+1)] in between.  Whatever the
    vector held before is gone. *)
Theorem smoothed_widths (Sc : Scalar) (Co : Collaborators)
    (s : VCurveInputSample) (c : VCurve) :
  exists c1,
    continueFit s c = Ok c1
    /\ let h := inputSamples_ c1 in
       let n := length h in
       let w i := in_width (nth i h VCurveInputSample_init) in
       let rw i := nth i (regWidths_ c1) d0 in
       length (regWidths_ c1) = n
       /\ (n = 1%nat -> rw 0%nat = w 0%nat)
       /\ ((2 <= n)%nat ->
           rw 0%nat = (lit_0_67 * w 0%nat + lit_0_33 * w 1%nat)%D
           /\ rw (n - 1)%nat
              = (lit_0_67 * w (n - 1)%nat + lit_0_33 * w (n - 2)%nat)%D
           /\ forall j, (1 <= j)%nat -> (j + 1 < n)%nat ->
                rw j = (lit_0_25 * w (j - 1)%nat + lit_0_50 * w j
                        + lit_0_25 * w (j + 1)%nat)%D).
Proof.
  destruct (continueFit_passes s c)
    as (c1 & H & _ & _ & Hne & _ & _ & Hrw & _).
  exists c1. split; [exact H|]. cbv zeta. rewrite Hrw.
  set (h := inputSamples_ c1) in *.
  assert (Hn : (0 < length h)%nat) by (destruct h; simpl; [congruence|lia]).
  assert (Hnth : forall j, (j < length h)%nat ->
                           nth j (regWidthsOf h) d0 = smoothedWidth h j).
  { intros j Hj. unfold regWidthsOf.
    rewrite (nth_indep (map (smoothedWidth h) _) d0 (smoothedWidth h 0))
      by (now rewrite length_map, length_seq).
    now rewrite (map_nth (smoothedWidth h)), seq_nth. }
  split; [unfold regWidthsOf; now rewrite length_map, length_seq|].
  split.
  - intros E. rewrite Hnth by lia. unfold smoothedWidth. now rewrite E.
  - intros H2. repeat split.
    + rewrite Hnth by lia. unfold smoothedWidth.
      destruct (Nat.leb_spec (length h) 1); [lia|].
      destruct (Nat.eqb_spec 0 (length h - 1)); [lia|]. reflexivity.
    + rewrite Hnth by lia. unfold smoothedWidth.
      destruct (Nat.leb_spec (length h) 1); [lia|].
      now rewrite Nat.eqb_refl.
    + intros j Hj1 Hj2. rewrite Hnth by lia. unfold smoothedWidth.
      destruct (Nat.leb_spec (length h) 1); [lia|].
      destruct (Nat.eqb_spec j (length h - 1)); [lia|].
      destruct (Nat.eqb_spec j 0); [lia|]. reflexivity.
Qed.

(** X3.  The fits: there are [n - k + 1] of them for [n] input samples,
    with [k = min(5, n)], and the fit [i] is [fitQuadratic] of the
    positions of the [k] samples from the sample [i] on. *)
Theorem fits_windows (Sc : Scalar) (Co : Collaborators)
    (s : VCurveInputSample) (c : VCurve) :
  exists c1,
    continueFit s c = Ok c1
    /\ let h := inputSamples_ c1 in
       let k := Nat.min 5 (length h) in
       length (regFits_ c1) = (length h - k + 1)%nat
       /\ forall i, (i < length (regFits_ c1))%nat ->
            nth i (regFits_ c1) CubicCurve_init
            = fitQuadratic (map in_position (firstn k (skipn i h)))
            /\ length (firstn k (skipn i h)) = k.
Proof.
  destruct (continueFit_passes s c)
    as (c1 & H & _ & _ & Hne & Hrf & _).
  exists c1. split; [exact H|]. cbv zeta. rewrite Hrf.
  set (h := inputSamples_ c1) in *.
  assert (Hn : (0 < length h)%nat) by (destruct h; simpl; [congruence|lia]).
  unfold regFitsOf. rewrite length_map, length_seq.
  split; [reflexivity|]. intros i Hi.
  rewrite (nth_indep (map (fitAt h) _) CubicCurve_init (fitAt h 0))
    by (now rewrite length_map, length_seq).
  rewrite (map_nth (fitAt h)), seq_nth by assumption. cbn [Nat.add].
  unfold fitAt. rewrite window_positions by lia.
  split; [reflexivity|].
  rewrite length_firstn, length_skipn. lia.
Qed.

(** X4.  The smoothed positions: the first and the last one are the
    positions of the first and the last input sample; up to two input
    samples they are the input positions; the others are the weighted sums
    of [averageRegFits_acc] divided by the sum of the weights. *)
Theorem smoothed_positions (Sc : Scalar) (Co : Collaborators)
    (s : VCurveInputSample) (c : VCurve) :
  exists c1,
    continueFit s c = Ok c1
    /\ let h := inputSamples_ c1 in
       let n := length h in
       let p i := in_position (nth i h VCurveInputSample_init) in
       let rp i := nth i (regPositions_ c1) zero2 in
       length (regPositions_ c1) = n
       /\ rp 0%nat = p 0%nat
       /\ rp (n - 1)%nat = p (n - 1)%nat
       /\ ((n <= 2)%nat -> regPositions_ c1 = map in_position h)
       /\ forall j, (1 <= j)%nat -> (j + 1 < n)%nat ->
            rp j = glm.scale
                     (d1 / snd (averageRegFits_acc (regFits_ c1)
                                  (Nat.min 5 n) (n - Nat.min 5 n + 1) j))%D
                     (fst (averageRegFits_acc (regFits_ c1)
                             (Nat.min 5 n) (n - Nat.min 5 n + 1) j)).
Proof.
  destruct (continueFit_passes s c)
    as (c1 & H & _ & _ & Hne & Hrf & Hrp & _).
  exists c1. split; [exact H|]. cbv zeta. rewrite Hrp.
  set (h := inputSamples_ c1) in *.
  assert (Hn : (0 < length h)%nat) by (destruct h; simpl; [congruence|lia]).
  assert (Lrf : length (regFits_ c1)
                = (length h - Nat.min 5 (length h) + 1)%nat)
    by (rewrite Hrf; unfold regFitsOf; now rewrite length_map, length_seq).
  assert (Hnth : forall j, (j < length h)%nat ->
                   nth j (regPositionsOf h (regFits_ c1)) zero2
                   = smoothedPosition h (regFits_ c1) j).
  { intros j Hj. unfold regPositionsOf.
    rewrite (nth_indep (map (smoothedPosition h (regFits_ c1)) _) zero2
                       (smoothedPosition h (regFits_ c1) 0))
      by (now rewrite length_map, length_seq).
    now rewrite (map_nth (smoothedPosition h (regFits_ c1))), seq_nth. }
  assert (Hlen : length (regPositionsOf h (regFits_ c1)) = length h)
    by (unfold regPositionsOf; now rewrite length_map, length_seq).
  split; [exact Hlen|].
  assert (H0 : nth 0 (regPositionsOf h (regFits_ c1)) zero2
               = in_position (nth 0 h VCurveInputSample_init)).
  { rewrite Hnth by lia. unfold smoothedPosition. cbv zeta.
    destruct (Nat.eqb_spec 0 (length h - 1)) as [E|E]; [now rewrite <- E|].
    reflexivity. }
  assert (H1 : nth (length h - 1) (regPositionsOf h (regFits_ c1)) zero2
               = in_position (nth (length h - 1) h VCurveInputSample_init)).
  { rewrite Hnth by lia. unfold smoothedPosition. cbv zeta.
    now rewrite Nat.eqb_refl. }
  split; [exact H0|]. split; [exact H1|]. split.
  - intros H2.
    apply (nth_ext _ _ zero2 zero2); [now rewrite Hlen, length_map|].
    intros j Hj. rewrite Hlen in Hj.
    rewrite (nth_indep (map in_position h) zero2
                       (in_position VCurveInputSample_init))
      by (now rewrite length_map).
    rewrite (map_nth in_position).
    assert (Hj' : j = 0%nat \/ j = (length h - 1)%nat) by lia.
    destruct Hj' as [->| ->]; assumption.
  - intros j Hj1 Hj2. rewrite Hnth by lia.
    unfold smoothedPosition. cbv zeta.
    destruct (Nat.eqb_spec j (length h - 1)); [lia|].
    destruct (Nat.eqb_spec j 0); [lia|].
    unfold blendedAt. rewrite Lrf.
    replace (length h - (length h - Nat.min 5 (length h) + 1) + 1)%nat
      with (Nat.min 5 (length h)) by lia.
    now destruct (averageRegFits_acc _ _ _ _).
Qed.

(** *** Curves that agree on what the code assigns *)

Section SameCurve.
Context {Sc : Scalar} {Co : Collaborators}.

(** The fields of a sample that VCurve.cpp assigns: all but [angle]. *)
Definition assignedFields (x : VCurveSample)
    : glm.dvec2 * D * glm.dvec2 * glm.dvec2 * D :=
  (position x, width x, tangent x, normal x, arclength x).

(** Two curves with the same parameters, input history, fits, smoothed
    positions and widths and knots, and whose samples agree on every
    field the code assigns. *)
Definition sameCurve (c c' : VCurve) : Prop :=
  params_ c = params_ c'
  /\ inputSamples_ c = inputSamples_ c'
  /\ regFits_ c = regFits_ c'
  /\ regPositions_ c = regPositions_ c'
  /\ regWidths_ c = regWidths_ c'
  /\ knots_ c = knots_ c'
  /\ map assignedFields (samples_ c) = map assignedFields (samples_ c').
End SameCurve.

(** X5.  [continueFit] computes the fits, the smoothed positions and
    widths, the knots and the samples from the parameters and the input
    history alone: from two curves with the same parameters and the same
    input history it returns two curves that agree on every vector and, in
    the samples, on every field the code assigns, whatever the other
    vectors of the two curves held. *)
Theorem continueFit_history_only (Sc : Scalar) (Co : Collaborators)
    (s : VCurveInputSample) (c c' : VCurve) :
  params_ c = params_ c' ->
  inputSamples_ c = inputSamples_ c' ->
  exists c1 c2,
    continueFit s c = Ok c1
    /\ continueFit s c' = Ok c2
    /\ sameCurve c1 c2.
Proof.
  intros Hp Hi.
  destruct (continueFit_passes s c)
    as (c1 & H & Hp1 & Hi1 & _ & Hrf & Hrp & Hrw & Hk & Hs).
  destruct (continueFit_passes s c')
    as (c2 & H' & Hp2 & Hi2 & _ & Hrf' & Hrp' & Hrw' & Hk' & Hs').
  exists c1, c2. split; [exact H|]. split; [exact H'|].
  assert (Ep : params_ c1 = params_ c2) by congruence.
  assert (Ei : inputSamples_ c1 = inputSamples_ c2) by congruence.
  assert (Ef : regFits_ c1 = regFits_ c2) by congruence.
  assert (Er : regPositions_ c1 = regPositions_ c2) by congruence.
  assert (Ew : regWidths_ c1 = regWidths_ c2) by congruence.
  assert (Ek : knots_ c1 = knots_ c2) by congruence.
  assert (Es : samples_ c1 = samples_ c2).
  { rewrite Ep, Ek in Hs. rewrite Hs in Hs'. now injection Hs'. }
  unfold sameCurve. rewrite Es. repeat split; assumption.
Qed.

(** A curve over the reals: one sample, fresh and stale curves. *)
Definition unitSample : @VCurveInputSample RealNum.scalar :=
  @Build_VCurveInputSample RealNum.scalar
    (@glm.vec2 RealNum.scalar 0%R 0%R) 1%R 1%R.

Definition unitParams : @VCurveParams RealNum.scalar :=
  @Build_VCurveParams RealNum.scalar 1%R 1%R.

Definition staleCurve : @VCurve RealNum.scalar RealNum.collaborators :=
  @Build_VCurve RealNum.scalar RealNum.collaborators
    unitParams [] [[]] [@glm.vec2 RealNum.scalar 3%R 4%R] [5%R]
    [VCurveKnot_init] [VCurveSample_init].

Definition freshCurve : @VCurve RealNum.scalar RealNum.collaborators :=
  @VCurve_new RealNum.scalar RealNum.collaborators unitParams.

Lemma continueFit_history_only_witness :
  exists c1 c2,
    continueFit unitSample freshCurve = Ok c1
    /\ continueFit unitSample staleCurve = Ok c2
    /\ sameCurve c1 c2.
Proof.
  apply (continueFit_history_only RealNum.scalar RealNum.collaborators);
    reflexivity.
Defined.

(** ** The knots among the smoothed positions *)

(** [l1] is [l2] with some elements taken out. *)
Inductive Subseq {A : Type} : list A -> list A -> Prop :=
| Subseq_nil : Subseq [] []
| Subseq_skip l1 l2 a : Subseq l1 l2 -> Subseq l1 (a :: l2)
| Subseq_keep l1 l2 a : Subseq l1 l2 -> Subseq (a :: l1) (a :: l2).

Section SubseqFacts.
Context {A : Type}.

Lemma Subseq_refl (l : list A) : Subseq l l.
Proof.
  induction l; [apply Subseq_nil|apply Subseq_keep; assumption].
Qed.

Lemma Subseq_nil_l (l : list A) : Subseq [] l.
Proof. induction l; [apply Subseq_nil|now apply Subseq_skip]. Qed.

Lemma Subseq_trans (l1 l2 l3 : list A) :
  Subseq l1 l2 -> Subseq l2 l3 -> Subseq l1 l3.
Proof.
  intros H12 H23. revert l1 H12.
  induction H23 as [|l2 l3 a H IH|l2 l3 a H IH]; intros l1 H12.
  - exact H12.
  - apply Subseq_skip. auto.
  - inversion H12; subst.
    + apply Subseq_skip. auto.
    + apply Subseq_keep. auto.
Qed.


Lemma Subseq_length (l1 l2 : list A) :
  Subseq l1 l2 -> length l1 <= length l2.
Proof. induction 1; simpl; lia. Qed.

Lemma Subseq_In (l1 l2 : list A) (a : A) :
  Subseq l1 l2 -> In a l1 -> In a l2.
Proof.
  induction 1; simpl; auto. intros [->|H1]; auto.
Qed.

Lemma Subseq_map {B} (f : A -> B) (l1 l2 : list A) :
  Subseq l1 l2 -> Subseq (map f l1) (map f l2).
Proof.
  induction 1; simpl;
    [apply Subseq_nil|now apply Subseq_skip|now apply Subseq_keep].
Qed.
End SubseqFacts.

Section KnotsAmong.
Context {Sc : Scalar} {Co : Collaborators}.

Local Open Scope D_scope.

Local Abbreviation kn ks i := (nth i ks VCurveKnot_init).

(** The position and the width of a knot. *)
Definition placed (k : VCurveKnot) : glm.dvec2 * D :=
  (k_position k, k_width k).

(** *** The merge pass takes knots out, and nothing else *)

Lemma mergeFrom_Subseq (d : list D) (ks : list VCurveKnot) :
  forall i, Subseq (mergeFrom d i ks) ks.
Proof.
  assert (H : forall n ks i, (length ks <= n)%nat ->
                             Subseq (mergeFrom d i ks) ks).
  { induction n as [|n IH]; intros l i Hn.
    - destruct l; simpl in *; [apply Subseq_nil|lia].
    - destruct l as [|B [|C [|X l]]]; try apply Subseq_refl.
      assert (HX : Subseq (mergeFrom d (i + 2) (X :: l)) (X :: l))
        by (apply IH; simpl in *; lia).
      rewrite mergeFrom_step. destruct (mergeCriterion _ _ _).
      + unfold merged. destruct (dlt _ _).
        * apply Subseq_skip, Subseq_keep. exact HX.
        * apply Subseq_keep, Subseq_skip. exact HX.
      + apply Subseq_keep. apply IH. simpl in *. lia. }
  intros i. now apply (H (length ks)).
Qed.

Lemma mergeFrom_nonempty (d : list D) (i : nat) (ks : list VCurveKnot) :
  ks <> [] -> mergeFrom d i ks <> [].
Proof.
  destruct ks as [|B [|C [|X l]]]; try (intros; discriminate);
    [congruence|].
  intros _. rewrite mergeFrom_step.
  destruct (mergeCriterion _ _ _); discriminate.
Qed.

(** The last knot is never merged away. *)
Lemma mergeFrom_last (d : list D) (ks : list VCurveKnot) :
  forall i, last (mergeFrom d i ks) VCurveKnot_init
            = last ks VCurveKnot_init.
Proof.
  assert (H : forall n ks i, (length ks <= n)%nat ->
                last (mergeFrom d i ks) VCurveKnot_init
                = last ks VCurveKnot_init).
  { induction n as [|n IH]; intros l i Hn.
    - destruct l; simpl in *; [reflexivity|lia].
    - destruct l as [|B [|C [|X l]]]; try reflexivity.
      assert (HX : last (mergeFrom d (i + 2) (X :: l)) VCurveKnot_init
                   = last (X :: l) VCurveKnot_init)
        by (apply IH; simpl in *; lia).
      assert (HC : last (mergeFrom d (i + 1) (C :: X :: l)) VCurveKnot_init
                   = last (C :: X :: l) VCurveKnot_init)
        by (apply IH; simpl in *; lia).
      assert (Hne : forall j, mergeFrom d j (X :: l) <> [])
        by (intros j; apply mergeFrom_nonempty; discriminate).
      assert (Hne' : mergeFrom d (i + 1) (C :: X :: l) <> [])
        by (apply mergeFrom_nonempty; discriminate).
      assert (Hcons : forall (a : VCurveKnot) t,
                 t <> [] ->
                 last (a :: t) VCurveKnot_init = last t VCurveKnot_init).
      { intros a [|b t] Ht; [congruence|reflexivity]. }
      rewrite mergeFrom_step. destruct (mergeCriterion _ _ _).
      + rewrite Hcons by apply Hne. rewrite HX. reflexivity.
      + rewrite Hcons by apply Hne'. rewrite HC. reflexivity. }
  intros i. now apply (H (length ks)).
Qed.

(** *** Removing duplicates keeps smoothed samples, in their order *)

Lemma keepFar_Subseq (resolution : D) (regPositions : list glm.dvec2)
    (regWidths : list D) (l : list nat)
    (st : VCurveKnot * list VCurveKnot * list D) :
  exists more,
    snd (fst (fold_left (keepFar resolution regPositions regWidths) l st))
    = snd (fst st) ++ more
    /\ Subseq (map placed more)
              (map (fun i => (nth i regPositions zero2, nth i regWidths d0))
                   l).
Proof.
  revert st. induction l as [|i l IH]; intros st.
  - exists []. simpl. rewrite app_nil_r. split; [reflexivity|].
    apply Subseq_nil.
  - cbn [fold_left].
    destruct (IH (keepFar resolution regPositions regWidths st i))
      as (more & E & HS).
    rewrite E. destruct st as [[k ks] d]. unfold keepFar.
    destruct (dlt _ _); cbn [fst snd].
    + eexists (_ :: more). rewrite <- app_assoc. split; [reflexivity|].
      cbn [map]. apply Subseq_keep. exact HS.
    + exists more. split; [reflexivity|]. cbn [map].
      apply Subseq_skip. exact HS.
Qed.

Lemma combine_nth_map {X Y} (l1 : list X) (l2 : list Y) (x : X) (y : Y) :
  length l1 = length l2 ->
  map (fun i => (nth i l1 x, nth i l2 y)) (seq 0 (length l1))
  = combine l1 l2.
Proof.
  intros H. apply (nth_ext _ _ (x, y) (x, y)).
  - rewrite length_map, length_seq, length_combine. lia.
  - intros j Hj. rewrite length_map, length_seq in Hj.
    rewrite (nth_indep (map _ _) (x, y) (nth 0 l1 x, nth 0 l2 y))
      by (now rewrite length_map, length_seq).
    rewrite (map_nth (fun i => (nth i l1 x, nth i l2 y))).
    rewrite seq_nth by assumption. cbn [Nat.add].
    now rewrite combine_nth.
Qed.

Lemma removeDuplicates_Subseq (resolution : D)
    (regPositions : list glm.dvec2) (regWidths : list D) :
  regPositions <> [] ->
  length regWidths = length regPositions ->
  Subseq (map placed
              (fst (removeDuplicates resolution (length regPositions)
                                     regPositions regWidths)))
         (combine regPositions regWidths).
Proof.
  intros Hne Hl. rewrite removeDuplicates_eq. cbv zeta. cbn [fst].
  destruct (keepFar_Subseq resolution regPositions regWidths
              (seq 1 (length regPositions - 1))
              (knot0 regPositions regWidths,
               [knot0 regPositions regWidths], []))
    as (more & -> & HS).
  cbn [fst snd app map].
  rewrite <- (combine_nth_map regPositions regWidths zero2 d0)
    by (now rewrite Hl).
  destruct regPositions as [|p0 rp]; [congruence|].
  change (length (p0 :: rp) - 1)%nat with (length rp - 0)%nat in HS.
  rewrite Nat.sub_0_r in HS.
  cbn [length seq map].
  apply (Subseq_keep (map placed more)). exact HS.
Qed.
End KnotsAmong.

Section KnotsAmongFit.
Context {Sc : Scalar} {Co : Collaborators}.

Local Open Scope D_scope.

Lemma gaps_app_one (ks : list VCurveKnot) (k : VCurveKnot) :
  ks <> [] ->
  gaps (ks ++ [k])
  = gaps ks ++ [dist (k_position (last ks VCurveKnot_init)) (k_position k)].
Proof.
  induction ks as [|a [|b t] IH]; intros H; [congruence|reflexivity|].
  change ((a :: b :: t) ++ [k]) with (a :: b :: (t ++ [k])).
  change (gaps (a :: b :: (t ++ [k])))
    with (dist (k_position a) (k_position b) :: gaps ((b :: t) ++ [k])).
  rewrite IH by discriminate. reflexivity.
Qed.

Lemma removeDuplicates_gaps (resolution : D) (n : nat)
    (regPositions : list glm.dvec2) (regWidths : list D) :
  let kd := removeDuplicates resolution n regPositions regWidths in
  snd kd = gaps (fst kd)
  /\ Forall (fun g => (g >? resolution) = true) (snd kd).
Proof.
  cbv zeta. rewrite removeDuplicates_eq. cbv zeta. cbn [fst snd].
  set (P := fun st : VCurveKnot * list VCurveKnot * list D =>
              snd (fst st) <> []
              /\ fst (fst st) = last (snd (fst st)) VCurveKnot_init
              /\ snd st = gaps (snd (fst st))
              /\ Forall (fun g => (g >? resolution) = true) (snd st)).
  assert (H : P (fold_left (keepFar resolution regPositions regWidths)
                           (seq 1 (n - 1))
                           (knot0 regPositions regWidths,
                            [knot0 regPositions regWidths], []))).
  { apply fold_left_invariant.
    - unfold P. simpl. repeat split; auto. discriminate.
    - intros [[k ks] d] i (H1 & H2 & H3 & H4). unfold P, keepFar in *.
      cbn [fst snd] in *.
      destruct (dlt _ _) eqn:E; cbn [fst snd]; [|auto].
      repeat split.
      + intros E0. apply app_eq_nil in E0. destruct E0; discriminate.
      + now rewrite last_last.
      + rewrite gaps_app_one by assumption. rewrite <- H2, H3. reflexivity.
      + apply Forall_app. split; [assumption|].
        constructor; [exact E|constructor]. }
  destruct H as (_ & _ & H3 & H4). auto.
Qed.

Lemma knotsOf_placed (params : VCurveParams)
    (inputSamples : list VCurveInputSample)
    (regPositions : list glm.dvec2) (regWidths : list D) :
  inputSamples <> [] ->
  length regPositions = length inputSamples ->
  length regWidths = length inputSamples ->
  let ks := knotsOf params inputSamples regPositions regWidths in
  Subseq (map placed ks) (combine regPositions regWidths)
  /\ placed (nth 0 ks VCurveKnot_init)
     = (nth 0 regPositions zero2, nth 0 regWidths d0).
Proof.
  intros Hne Hp Hw. cbv zeta. unfold knotsOf. cbv zeta.
  assert (Hrp : regPositions <> []).
  { intros E. rewrite E in Hp. destruct inputSamples; [congruence|].
    discriminate. }
  pose proof (removeDuplicates_Subseq (resolutionOf inputSamples)
                regPositions regWidths Hrp ltac:(congruence)) as HS.
  rewrite Hp in HS.
  assert (Hhead : exists t,
             fst (removeDuplicates (resolutionOf inputSamples)
                    (length inputSamples) regPositions regWidths)
             = knot0 regPositions regWidths :: t).
  { rewrite removeDuplicates_eq. cbv zeta. cbn [fst].
    destruct (keepFar_Subseq (resolutionOf inputSamples) regPositions
                regWidths (seq 1 (length inputSamples - 1))
                (knot0 regPositions regWidths,
                 [knot0 regPositions regWidths], []))
      as (more & -> & _).
    eexists. reflexivity. }
  destruct (removeDuplicates _ _ _ _) as [ks d]. cbn [fst snd] in *.
  destruct Hhead as [t ->].
  set (X := computeAngles (knot0 regPositions regWidths :: t)).
  assert (HX : map placed X
               = map placed (knot0 regPositions regWidths :: t))
    by (now apply computeAngles_map).
  assert (HXne : X <> []).
  { intros E. rewrite E in HX. discriminate. }
  rewrite (decideCorners_map placed) by reflexivity.
  rewrite (nth_map_eq placed
             (decideCorners (maxSmoothKnotAngle params)
                            (computeAngles (mergeKnots d X)))
             (mergeKnots d X) VCurveKnot_init 0)
    by (rewrite (decideCorners_map placed) by reflexivity;
        now apply computeAngles_map).
  rewrite (computeAngles_map placed) by reflexivity.
  rewrite mergeKnots_scan by assumption.
  destruct X as [|A x]; [congruence|]. cbn [mergeScan nth].
  split.
  - eapply Subseq_trans; [|exact HS]. rewrite <- HX.
    cbn [map]. apply Subseq_keep. apply Subseq_map. apply mergeFrom_Subseq.
  - assert (HA : placed A = placed (knot0 regPositions regWidths)).
    { apply (f_equal (fun l => nth 0 l (zero2, d0))) in HX. exact HX. }
    rewrite HA. reflexivity.
Qed.
End KnotsAmongFit.

(** X6.  The knots of the curve are smoothed samples, in their order: the
    list of the pairs (position, width) of the knots is the list of the
    pairs of smoothed positions and widths with some pairs taken out.  The
    first knot is at the position of the first input sample. *)
Theorem knots_among_smoothed (Sc : Scalar) (Co : Collaborators)
    (s : VCurveInputSample) (c : VCurve) :
  exists c1,
    continueFit s c = Ok c1
    /\ Subseq (map placed (knots_ c1))
              (combine (regPositions_ c1) (regWidths_ c1))
    /\ k_position (nth 0 (knots_ c1) VCurveKnot_init)
       = in_position (nth 0 (inputSamples_ c1) VCurveInputSample_init)
    /\ k_width (nth 0 (knots_ c1) VCurveKnot_init)
       = nth 0 (regWidths_ c1) d0.
Proof.
  destruct (continueFit_passes s c)
    as (c1 & H & _ & _ & Hne & Hrf & Hrp & Hrw & Hk & _).
  assert (Lrp : length (regPositions_ c1) = length (inputSamples_ c1))
    by (rewrite Hrp; apply regPositionsOf_length).
  assert (Hp0 : nth 0 (regPositions_ c1) zero2
                = in_position (nth 0 (inputSamples_ c1)
                                   VCurveInputSample_init))
    by (rewrite Hrp; now apply regPositionsOf_first).
  exists c1. split; [exact H|].
  assert (Lrw : length (regWidths_ c1) = length (inputSamples_ c1))
    by (rewrite Hrw; unfold regWidthsOf; now rewrite length_map, length_seq).
  destruct (knotsOf_placed (params_ c1) (inputSamples_ c1) (regPositions_ c1)
              (regWidths_ c1) Hne Lrp Lrw) as [HS Hh].
  rewrite <- Hk in HS, Hh. split; [exact HS|].
  unfold placed in Hh. injection Hh as Hh1 Hh2.
  split; [now rewrite Hh1|exact Hh2].
Qed.

(** X7.  The merge pass only takes knots out: what it returns is the
    vector it was given with some knots removed, in the same order, with
    the same first knot and the same last knot; with fewer than four knots
    it returns the vector as it is. *)
Theorem merge_pass_keeps_ends (Sc : Scalar) (d : list D)
    (knots : list VCurveKnot) :
  knots <> [] ->
  Subseq (mergeKnots d knots) knots
  /\ nth 0 (mergeKnots d knots) VCurveKnot_init = nth 0 knots VCurveKnot_init
  /\ last (mergeKnots d knots) VCurveKnot_init = last knots VCurveKnot_init
  /\ ((length knots < 4)%nat -> mergeKnots d knots = knots).
Proof.
  intros Hne. rewrite mergeKnots_scan by assumption.
  destruct knots as [|A ks]; [congruence|]. cbn [mergeScan].
  split; [apply Subseq_keep, mergeFrom_Subseq|].
  split; [reflexivity|]. split.
  - destruct ks as [|B ks]; [reflexivity|].
    assert (Hm : mergeFrom d 0 (B :: ks) <> [])
      by (apply mergeFrom_nonempty; discriminate).
    pose proof (mergeFrom_last d (B :: ks) 0) as Hl.
    destruct (mergeFrom d 0 (B :: ks)) as [|m ms]; [congruence|].
    exact Hl.
  - intros Hl. rewrite mergeFrom_short; [reflexivity|]. simpl in Hl. lia.
Qed.

Lemma merge_pass_keeps_ends_witness :
  Subseq (mergeKnots (gaps fourKnots) fourKnots) fourKnots
  /\ nth 0 (mergeKnots (gaps fourKnots) fourKnots) VCurveKnot_init
     = nth 0 fourKnots VCurveKnot_init
  /\ last (mergeKnots (gaps fourKnots) fourKnots) VCurveKnot_init
     = last fourKnots VCurveKnot_init
  /\ ((length fourKnots < 4)%nat
      -> mergeKnots (gaps fourKnots) fourKnots = fourKnots).
Proof.
  apply (merge_pass_keeps_ends Binary64.scalar (gaps fourKnots) fourKnots).
  discriminate.
Defined.

(** X8.  "Removing duplicates" leaves knots whose consecutive distances,
    kept in [d], all compare greater than the resolution, for every
    implementation of the operations on [double]; there is one distance
    less than there are knots, and there is a knot at least. *)
Theorem removeDuplicates_distances (Sc : Scalar) (resolution : D) (n : nat)
    (regPositions : list glm.dvec2) (regWidths : list D) :
  let knots := fst (removeDuplicates resolution n regPositions regWidths) in
  let d := snd (removeDuplicates resolution n regPositions regWidths) in
  d = gaps knots
  /\ Forall (fun g => dlt resolution g = true) d
  /\ (length d + 1 = length knots)%nat
  /\ (length knots <= 1 + (n - 1))%nat.
Proof.
  cbv zeta.
  pose proof (removeDuplicates_gaps resolution n regPositions regWidths)
    as [H1 H2].
  pose proof (removeDuplicates_shape resolution n regPositions regWidths)
    as H3.
  pose proof (removeDuplicates_count resolution n regPositions regWidths)
    as H4.
  destruct (removeDuplicates _ _ _ _) as [ks d]. cbn [fst snd] in *.
  destruct H3 as [_ H3]. auto.
Qed.

(** ** The samples: knots, normals *)

Section SamplesFacts.
Context {Sc : Scalar} {Co : Collaborators}.

Local Open Scope D_scope.

Local Abbreviation kn ks i := (nth i ks VCurveKnot_init).
Local Abbreviation sm ss i := (nth i ss VCurveSample_init).

Local Opaque subdivide.

(** A sample at the knot [k]. *)
Definition atKnot (k : VCurveKnot) (x : VCurveSample) : Prop :=
  position x = k_position k /\ width x = k_width k.

Lemma segmentOut_atKnot (params : VCurveParams)
    (A B C D_ E F : VCurveKnot) (i : nat) (samples_ : list VCurveSample) :
  let out := segmentOut params A B C D_ E F i samples_ in
  (forall x, In x samples_ -> In x out)
  /\ exists x, In x out /\ atKnot C x.
Proof.
  cbv zeta. unfold segmentOut. cbv zeta.
  destruct (segmentLocal_first A B C D_ E F i samples_) as (Hl & Hp & Hw).
  set (loc := segmentLocal A B C D_ E F i samples_) in *.
  split.
  - intros x Hx. apply in_or_app. left. apply in_or_app. now left.
  - exists (sm loc 0). split; [|split; assumption].
    apply in_or_app. right.
    destruct loc as [|x0 [|x1 loc']]; simpl in Hl; try lia.
    replace (length (x0 :: x1 :: loc') - 1)%nat with (S (length loc'))
      by (simpl; lia).
    left. reflexivity.
Qed.

Lemma segments_atKnot (params : VCurveParams) (knots : list VCurveKnot)
    (len a : nat) (samples_ out : list VCurveSample) :
  (a + len + 1 <= length knots)%nat ->
  k_isCorner (kn knots 0) = true ->
  k_isCorner (kn knots (length knots - 1)) = true ->
  a = 0%nat \/ samples_ <> [] ->
  segments params knots (seq a len) samples_ = Ok out ->
  (forall x, In x samples_ -> In x out)
  /\ forall i, (a <= i)%nat -> (i < a + len)%nat ->
       exists x, In x out /\ atKnot (kn knots i) x.
Proof.
  revert a samples_. induction len as [|len IH];
    intros a samples_ Hl H0 Hn He Hs.
  - simpl in Hs. injection Hs as <-. split; [auto|]. intros; lia.
  - cbn [seq segments] in Hs.
    destruct (segment_Ok params knots a samples_)
      as (A & B & E & F & _ & Hseg); auto; try lia.
    rewrite Hseg in Hs. cbn [bind] in Hs.
    destruct (segmentOut_atKnot params A B (kn knots a) (kn knots (a + 1))
                E F a samples_) as [Hin [x [Hx Hat]]].
    destruct (IH (S a) _ ltac:(lia) H0 Hn
                 (or_intror (segmentOut_nonempty params A B (kn knots a)
                               (kn knots (a + 1)) E F a samples_)) Hs)
      as [Hin' Hall].
    split; [auto|].
    intros i Hi1 Hi2.
    destruct (Nat.eq_dec i a) as [->|Hne].
    + exists x. split; auto.
    + apply Hall; lia.
Qed.

(** *** The normal is the tangent, turned *)

Definition turned (x : VCurveSample) : Prop :=
  normal x = glm.vec2 (- glm.y (tangent x)) (glm.x (tangent x)).

Lemma tangentSamples_turned (C : VCurveKnot)
    (samples_ samples : list VCurveSample) :
  (2 <= length samples)%nat ->
  let loc := tangentSamples C samples_ samples in
  Forall turned (firstn (length loc - 1) loc).
Proof.
  intros Hl. cbv zeta. apply Forall_forall. intros x Hx.
  destruct (In_nth _ _ VCurveSample_init Hx) as (j & Hj & <-).
  rewrite length_firstn, tangentSamples_length in Hj.
  rewrite nth_firstn.
  destruct (Nat.ltb_spec j (length (tangentSamples C samples_ samples) - 1));
    [|rewrite tangentSamples_length in *; lia].
  unfold tangentSamples.
  rewrite assignLoop_nth by (rewrite vset_length; lia).
  destruct (Nat.leb_spec 1 j).
  - destruct (Nat.ltb_spec j (1 + (length samples - 1 - 1))); [|lia].
    cbn [andb]. reflexivity.
  - cbn [andb]. assert (j = 0%nat) by lia. subst j.
    rewrite nth_vset_eq by lia.
    unfold firstTangent. destruct (k_isCorner C); reflexivity.
Qed.

Lemma cornerSamples_turned (m : D) (s0 s1 s2 : VCurveSample) :
  Forall turned (cornerSamples m s0 s1 s2).
Proof.
  unfold cornerSamples. destruct (cornerAngles _ _ _) as [a1 a2].
  apply Forall_forall. intros x Hx. apply in_map_iff in Hx.
  destruct Hx as (k & <- & _). reflexivity.
Qed.

Lemma segmentOut_turned (params : VCurveParams)
    (A B C D_ E F : VCurveKnot) (i : nat) (samples_ : list VCurveSample) :
  Forall turned samples_ ->
  Forall turned (segmentOut params A B C D_ E F i samples_).
Proof.
  intros H. unfold segmentOut. cbv zeta.
  apply Forall_app. split; [apply Forall_app; split; [exact H|]|].
  - unfold segmentFan. destruct (_ && _)%bool; [|constructor].
    apply cornerSamples_turned.
  - unfold segmentLocal. apply tangentSamples_turned.
    apply localSamples_length.
Qed.

Lemma segments_turned (params : VCurveParams) (knots : list VCurveKnot)
    (len a : nat) (samples_ out : list VCurveSample) :
  (a + len + 1 <= length knots)%nat ->
  k_isCorner (kn knots 0) = true ->
  k_isCorner (kn knots (length knots - 1)) = true ->
  a = 0%nat \/ samples_ <> [] ->
  Forall turned samples_ ->
  segments params knots (seq a len) samples_ = Ok out ->
  Forall turned out.
Proof.
  revert a samples_. induction len as [|len IH];
    intros a samples_ Hl H0 Hn He Ht Hs.
  - simpl in Hs. now injection Hs as <-.
  - cbn [seq segments] in Hs.
    destruct (segment_Ok params knots a samples_)
      as (A & B & E & F & _ & Hseg); auto; try lia.
    rewrite Hseg in Hs. cbn [bind] in Hs.
    apply (IH (S a) _ ltac:(lia) H0 Hn
              (or_intror (segmentOut_nonempty params A B (kn knots a)
                            (kn knots (a + 1)) E F a samples_))).
    + now apply segmentOut_turned.
    + exact Hs.
Qed.

Lemma lastSample_turned (knots : list VCurveKnot)
    (samples_ : list VCurveSample) :
  turned (lastSample knots samples_)
  /\ atKnot (kn knots (length knots - 1)) (lastSample knots samples_).
Proof.
  unfold lastSample. cbv zeta.
  destruct (0 <? length samples_)%nat; repeat split.
Qed.

(** The samples of [continueFit], from the knots. *)
Lemma continueFit_segments (s : VCurveInputSample) (c : VCurve) :
  exists c1 segs,
    continueFit s c = Ok c1
    /\ knots_ c1 <> []
    /\ k_isCorner (kn (knots_ c1) 0) = true
    /\ k_isCorner (kn (knots_ c1) (length (knots_ c1) - 1)) = true
    /\ segments (params_ c1) (knots_ c1)
                (seq 0 (length (knots_ c1) - 1)) [] = Ok segs
    /\ samples_ c1 = segs ++ [lastSample (knots_ c1) segs].
Proof.
  destruct (continueFit_Ok s c) as (rf & rp & rw & segs & H).
  cbv zeta in H. destruct H as (_ & _ & Hsegs & H).
  eexists. exists segs. split; [exact H|].
  cbn [knots_ params_ samples_].
  pose proof (knotsOf_corners (params_ c)
                (appendInputSample_ s (inputSamples_ c)) rp rw) as [H0 H1].
  repeat split; auto. apply knotsOf_nonempty.
Qed.
End SamplesFacts.

(** X9.  The samples pass through the knots: for every knot of the curve
    there is a sample with the position and the width of the knot. *)
Theorem samples_through_knots (Sc : Scalar) (Co : Collaborators)
    (s : VCurveInputSample) (c : VCurve) :
  exists c1,
    continueFit s c = Ok c1
    /\ forall i, (i < numKnots c1)%nat ->
         exists j, (j < numSamples c1)%nat
                   /\ position (nth j (samples c1) VCurveSample_init)
                      = k_position (nth i (knots c1) VCurveKnot_init)
                   /\ width (nth j (samples c1) VCurveSample_init)
                      = k_width (nth i (knots c1) VCurveKnot_init).
Proof.
  destruct (continueFit_segments s c)
    as (c1 & segs & H & Hne & H0 & H1 & Hs & Hsm).
  exists c1. split; [exact H|].
  unfold numKnots, numSamples, knots, samples. rewrite Hsm.
  assert (Hpos : (0 < length (knots_ c1))%nat)
    by (destruct (knots_ c1); simpl; [congruence|lia]).
  destruct (segments_atKnot (params_ c1) (knots_ c1) (length (knots_ c1) - 1)
              0 [] segs ltac:(lia) H0 H1 (or_introl eq_refl) Hs)
    as [_ Hall].
  intros i Hi.
  assert (Hx : exists x, In x (segs ++ [lastSample (knots_ c1) segs])
                         /\ atKnot (nth i (knots_ c1) VCurveKnot_init) x).
  { destruct (Nat.eq_dec i (length (knots_ c1) - 1)) as [->|Hn].
    - exists (lastSample (knots_ c1) segs). split.
      + apply in_or_app. right. left. reflexivity.
      + apply lastSample_turned.
    - destruct (Hall i ltac:(lia) ltac:(lia)) as (x & Hx & Hat).
      exists x. split; [|exact Hat]. apply in_or_app. now left. }
  destruct Hx as (x & Hx & Hp & Hw).
  destruct (In_nth _ _ VCurveSample_init Hx) as (j & Hj & E).
  exists j. rewrite E. auto.
Qed.

(** X10.  Every sample of the curve has its normal equal to its tangent
    turned by a quarter: [normal.x = - tangent.y] and
    [normal.y = tangent.x]. *)
Theorem normals_turned (Sc : Scalar) (Co : Collaborators)
    (s : VCurveInputSample) (c : VCurve) :
  exists c1,
    continueFit s c = Ok c1
    /\ Forall (fun x =>
                 glm.x (normal x) = dneg (glm.y (tangent x))
                 /\ glm.y (normal x) = glm.x (tangent x))
              (samples c1).
Proof.
  destruct (continueFit_segments s c)
    as (c1 & segs & H & Hne & H0 & H1 & Hs & Hsm).
  exists c1. split; [exact H|].
  unfold samples. rewrite Hsm.
  assert (Hpos : (0 < length (knots_ c1))%nat)
    by (destruct (knots_ c1); simpl; [congruence|lia]).
  assert (Ht : Forall turned (segs ++ [lastSample (knots_ c1) segs])).
  { apply Forall_app. split.
    - apply (segments_turned (params_ c1) (knots_ c1)
               (length (knots_ c1) - 1) 0 [] segs); auto. lia.
    - constructor; [apply lastSample_turned|constructor]. }
  eapply Forall_impl; [|exact Ht]. cbv beta.
  intros x Hx. unfold turned in Hx. rewrite Hx. split; reflexivity.
Qed.

(** ** Lengths, widths and weights over the reals *)

Section Polyline.
Context {Sc : Scalar}.

Local Open Scope D_scope.

(** The length of the polyline through the positions of the samples. *)
Fixpoint polylineLength (ss : list VCurveSample) : D :=
  match ss with
  | [] => d0
  | a :: t =>
    match t with
    | [] => d0
    | b :: _ => dist (position a) (position b) + polylineLength t
    end
  end.
End Polyline.

Section RealLengths.
Local Existing Instance RealNum.scalar.
Context {Co : Collaborators}.

Local Open Scope R_scope.

Local Abbreviation sm ss i := (nth i ss VCurveSample_init).

Lemma polylineLength_nonneg (l : list VCurveSample) :
  0 <= polylineLength l.
Proof.
  induction l as [|a [|b t] IH]; try (simpl; change (@d0 RealNum.scalar) with 0; lra).
  change (polylineLength (a :: b :: t))
    with (dist (position a) (position b) + polylineLength (b :: t)).
  pose proof (dist_nonneg (position a) (position b)). lra.
Qed.

Lemma chained_polyline (l : list VCurveSample) :
  chained l -> l <> [] ->
  arclength (last l VCurveSample_init)
  = arclength (sm l 0) + polylineLength l.
Proof.
  induction l as [|a [|b t] IH]; intros Hc Hne; [congruence| |].
  - simpl. change (@d0 RealNum.scalar) with 0. lra.
  - apply chained_cons in Hc. destruct Hc as [Hab Hc].
    change (last (a :: b :: t) VCurveSample_init)
      with (last (b :: t) VCurveSample_init).
    rewrite IH by (auto; discriminate).
    change (polylineLength (a :: b :: t))
      with (dist (position a) (position b) + polylineLength (b :: t)).
    unfold linked in Hab. cbn [nth]. rewrite Hab.
    cbn [dadd RealNum.scalar]. lra.
Qed.

Lemma last_firstn_nth (l : list VCurveSample) (j : nat) :
  (j < length l)%nat ->
  last (firstn (S j) l) VCurveSample_init = sm l j.
Proof.
  revert j. induction l as [|a t IH]; intros j Hj; [simpl in Hj; lia|].
  destruct j as [|j].
  - destruct t; reflexivity.
  - simpl in Hj. specialize (IH j ltac:(lia)).
    change (firstn (S (S j)) (a :: t)) with (a :: firstn (S j) t).
    destruct t as [|b t]; [simpl in Hj; lia|].
    change (firstn (S j) (b :: t)) with (b :: firstn j t) in *.
    exact IH.
Qed.
End RealLengths.

(** X11.  Over the reals: the arclength of a sample is the length of the
    polyline through the samples up to it, and [length()] is the length of
    the polyline through all the samples; it is not negative. *)
Theorem arclength_is_polyline (Co : @Collaborators RealNum.scalar)
    (s : @VCurveInputSample RealNum.scalar) (c : VCurve) :
  exists c1,
    continueFit s c = Ok c1
    /\ (forall j, (j < numSamples c1)%nat ->
          arclength (nth j (samples c1) VCurveSample_init)
          = @polylineLength RealNum.scalar (firstn (S j) (samples c1)))
    /\ VCurve_length c1 = @polylineLength RealNum.scalar (samples c1)
    /\ (0 <= VCurve_length c1)%R.
Proof.
  destruct (continueFit_segments s c)
    as (c1 & segs & H & Hne & Hc0 & Hc1 & Hs & Hsm).
  pose proof (computeSamples_chained (params_ c1) (knots_ c1) segs
                Hne Hc0 Hc1 Hs) as Hch.
  cbv zeta in Hch. rewrite <- Hsm in Hch. destruct Hch as [Hch H0].
  fold (samples c1) in Hch, H0.
  assert (Hn : (0 < numSamples c1)%nat).
  { unfold numSamples. rewrite Hsm, length_app. simpl. lia. }
  exists c1. split; [exact H|].
  assert (Hj : forall j, (j < numSamples c1)%nat ->
             arclength (nth j (samples c1) VCurveSample_init)
             = @polylineLength RealNum.scalar (firstn (S j) (samples c1))).
  { intros j Hj. unfold numSamples in Hj. fold (samples c1) in Hj.
    rewrite <- (last_firstn_nth (samples c1) j Hj).
    rewrite chained_polyline.
    - destruct (samples c1) as [|a t]; [simpl in Hj; lia|].
      cbn [firstn nth] in *. rewrite H0.
      cbn [dadd RealNum.scalar]. lra.
    - now apply chained_firstn.
    - destruct (samples c1); [simpl in Hj; lia|discriminate]. }
  split; [exact Hj|].
  assert (Hl : VCurve_length c1
               = @polylineLength RealNum.scalar (samples c1)).
  { unfold VCurve_length. unfold numSamples in *. fold (samples c1) in *.
    destruct (Nat.eqb_spec (length (samples c1)) 0) as [E|E]; [lia|].
    unfold back. fold (samples c1).
    rewrite (last_nth VCurveSample_init (samples c1)).
    rewrite (Hj (length (samples c1) - 1)%nat) by lia.
    replace (S (length (samples c1) - 1)) with (length (samples c1)) by lia.
    now rewrite firstn_all. }
  split; [exact Hl|]. rewrite Hl. apply polylineLength_nonneg.
Qed.

(** X12.  Over the reals: when the widths of the input samples lie between
    [lo] and [hi], so do the smoothed widths, and so does the width of
    every knot. *)
Theorem smoothed_widths_bounded (Co : @Collaborators RealNum.scalar)
    (s : @VCurveInputSample RealNum.scalar) (c : VCurve) (lo hi : R) :
  Forall (fun x : @VCurveInputSample RealNum.scalar =>
            (lo <= in_width x <= hi)%R)
         (appendInputSample_ s (inputSamples_ c)) ->
  exists c1,
    continueFit s c = Ok c1
    /\ Forall (fun w : R => (lo <= w <= hi)%R) (regWidths_ c1)
    /\ Forall (fun k : @VCurveKnot RealNum.scalar =>
                (lo <= k_width k <= hi)%R) (knots_ c1).
Proof.
  intros Hb.
  destruct (continueFit_passes s c)
    as (c1 & H & _ & Hi & Hne & Hrf & Hrp & Hrw' & Hk' & _).
  exists c1. split; [exact H|].
  rewrite <- Hi in Hb.
  set (h := inputSamples_ c1) in *.
  assert (Hin : forall i, (i < length h)%nat ->
                  (lo <= in_width (nth i h VCurveInputSample_init) <= hi)%R).
  { intros i Hlt. rewrite Forall_forall in Hb. apply Hb. now apply nth_In. }
  assert (Hn : (0 < length h)%nat) by (destruct h; simpl; [congruence|lia]).
  assert (Hrw : Forall (fun w : R => (lo <= w <= hi)%R) (regWidths_ c1)).
  { apply Forall_forall. intros w Hwin.
    destruct (In_nth _ _ (@d0 RealNum.scalar) Hwin) as (j & Hj & <-).
    rewrite Hrw' in *. rewrite regWidthsOf_length in Hj.
    rewrite regWidthsOf_nth by assumption.
    unfold smoothedWidth. cbv zeta.
    destruct (Nat.leb_spec (length h) 1); [apply Hin; lia|].
    pose proof (Hin 0%nat ltac:(lia)). pose proof (Hin 1%nat ltac:(lia)).
    pose proof (Hin (length h - 1)%nat ltac:(lia)).
    pose proof (Hin (length h - 2)%nat ltac:(lia)).
    pose proof (Hin j ltac:(lia)).
    destruct (Nat.eqb_spec j (length h - 1));
      [cbn [dadd dmul lit_0_67 lit_0_33 RealNum.scalar]; lra|].
    destruct (Nat.eqb_spec j 0);
      [cbn [dadd dmul lit_0_67 lit_0_33 RealNum.scalar]; lra|].
    pose proof (Hin (j - 1)%nat ltac:(lia)).
    pose proof (Hin (j + 1)%nat ltac:(lia)).
    cbn [dadd dmul lit_0_25 lit_0_50 RealNum.scalar]. lra. }
  assert (HS : Subseq (map placed (knots_ c1))
                      (combine (regPositions_ c1) (regWidths_ c1))).
  { rewrite Hk'.
    apply (knotsOf_placed (params_ c1) h (regPositions_ c1) (regWidths_ c1));
      [exact Hne| |].
    - rewrite Hrp. apply regPositionsOf_length.
    - rewrite Hrw'. apply regWidthsOf_length. }
  split; [exact Hrw|].
  apply Forall_forall. intros k Hk.
  assert (Hpk : In (placed k) (combine (regPositions_ c1) (regWidths_ c1))).
  { apply (Subseq_In _ _ _ HS). now apply in_map. }
  unfold placed in Hpk. apply in_combine_r in Hpk.
  rewrite Forall_forall in Hrw. now apply Hrw.
Qed.

(** A second sample over the reals, ten units from the first one and
    three times as wide. *)
Definition wideSample : @VCurveInputSample RealNum.scalar :=
  @Build_VCurveInputSample RealNum.scalar
    (@glm.vec2 RealNum.scalar 10%R 0%R) 3%R 1%R.

Lemma wideSample_appended :
  appendInputSample_ wideSample [unitSample] = [unitSample; wideSample].
Proof.
  rewrite appendInputSample_cases.
  assert (E : farEnough wideSample [unitSample] = true).
  { unfold farEnough. apply ltb_true.
    unfold glm.length, glm.sub, wideSample, unitSample.
    cbn [last in_position in_resolution glm.x glm.y dsqrt dadd dsub dmul
         lit_0_1 RealNum.scalar].
    replace ((10 - 0) * (10 - 0) + (0 - 0) * (0 - 0))%R
      with (10 * 10)%R by ring.
    rewrite sqrt_square by lra. lra. }
  now rewrite E.
Qed.

(** Two samples of widths 1 and 3: both are kept, and the smoothed widths
    are [0.67 * 1 + 0.33 * 3] and [0.67 * 3 + 0.33 * 1], between 1 and
    3. *)
Lemma smoothed_widths_bounded_witness :
  exists c0 c1,
    continueFit unitSample freshCurve = Ok c0
    /\ continueFit wideSample c0 = Ok c1
    /\ inputSamples_ c1 = [unitSample; wideSample]
    /\ regWidths_ c1
       = [(67 / 100 * 1 + 33 / 100 * 3)%R; (67 / 100 * 3 + 33 / 100 * 1)%R]
    /\ Forall (fun w : R => (1 <= w <= 3)%R) (regWidths_ c1)
    /\ Forall (fun k : @VCurveKnot RealNum.scalar =>
                 (1 <= k_width k <= 3)%R) (knots_ c1).
Proof.
  destruct (continueFit_passes unitSample freshCurve)
    as (c0 & H0 & _ & Hi0 & _).
  change (appendInputSample_ unitSample (inputSamples_ freshCurve))
    with [unitSample] in Hi0.
  destruct (smoothed_widths_bounded RealNum.collaborators wideSample c0
              1%R 3%R) as (c1 & H1 & Hb1 & Hb2).
  { rewrite Hi0, wideSample_appended.
    repeat (constructor; [cbn [in_width unitSample wideSample]; lra|]).
    constructor. }
  destruct (continueFit_passes wideSample c0)
    as (c1' & H1' & _ & Hi1 & _ & _ & _ & Hrw & _).
  rewrite H1 in H1'. injection H1' as <-.
  rewrite Hi0, wideSample_appended in Hi1.
  exists c0, c1. split; [exact H0|]. split; [exact H1|].
  split; [exact Hi1|]. split; [|split; assumption].
  rewrite Hrw, Hi1. reflexivity.
Defined.

(** In binary64 the bound can be passed by one step of rounding: with two
    samples of width 0.3 the smoothed widths are 0.30000000000000004. *)
Lemma smoothed_width_binary64_excess :
  @computeRegWidths_ Binary64.scalar
    [@Build_VCurveInputSample Binary64.scalar
       (@glm.vec2 Binary64.scalar 0 0) 0.3 1;
     @Build_VCurveInputSample Binary64.scalar
       (@glm.vec2 Binary64.scalar 10 0) 0.3 1]%float []
  = Ok [0.30000000000000004; 0.30000000000000004]%float
  /\ PrimFloat.ltb 0.3 0.30000000000000004 = true.
Proof. split; reflexivity. Qed.

(** ** The weights of the blend *)

Section BellWeight.
Local Existing Instance RealNum.scalar.

Local Open Scope R_scope.

Lemma w_real (u : R) : w_ u = u * u * (1 - u) * (1 - u).
Proof.
  unfold w_, d1. cbn [dmul dsub d_of_nat RealNum.scalar]. simpl INR.
  reflexivity.
Qed.

(** The derivative of [w_]. *)
Lemma w_derivative (u : R) :
  derivable_pt_lim w_ u (2 * u * (1 - u) * (1 - 2 * u)).
Proof.
  assert (H : derivable_pt_lim
                (id * id * (fct_cte 1 - id) * (fct_cte 1 - id))%F u
                (((1 * id u + id u * 1) * (fct_cte 1 - id)%F u
                  + (id * id)%F u * (0 - 1))
                 * (fct_cte 1 - id)%F u
                 + (id * id * (fct_cte 1 - id))%F u * (0 - 1))).
  { repeat first
      [ apply derivable_pt_lim_mult
      | apply derivable_pt_lim_minus
      | apply derivable_pt_lim_id
      | apply derivable_pt_lim_const ]. }
  unfold mult_fct, minus_fct, fct_cte, id in H.
  replace (2 * u * (1 - u) * (1 - 2 * u))
    with (((1 * u + u * 1) * (1 - u) + u * u * (0 - 1)) * (1 - u)
          + u * u * (1 - u) * (0 - 1)) by ring.
  intros e He. destruct (H e He) as [d Hd]. exists d.
  intros h Hh Hlt. rewrite !w_real. now apply Hd.
Qed.
End BellWeight.

(** X13.  Over the reals [w_] is the bell the comment draws: it is zero
    with a zero derivative at 0 and at 1, positive with a zero derivative
    at 1/2, never negative, symmetric about 1/2, and at its largest on
    [0, 1] at 1/2.  In binary64 too it is zero at 0 and at 1 and positive
    at 1/2. *)
Theorem bell_weight :
  @w_ RealNum.scalar 0%R = 0%R
  /\ @w_ RealNum.scalar 1%R = 0%R
  /\ (0 < @w_ RealNum.scalar (1 / 2))%R
  /\ derivable_pt_lim (@w_ RealNum.scalar) 0%R 0%R
  /\ derivable_pt_lim (@w_ RealNum.scalar) (1 / 2)%R 0%R
  /\ derivable_pt_lim (@w_ RealNum.scalar) 1%R 0%R
  /\ (forall u : R, 0 <= @w_ RealNum.scalar u)%R
  /\ (forall u : R, @w_ RealNum.scalar (1 - u) = @w_ RealNum.scalar u)%R
  /\ (forall u : R, 0 <= u <= 1 ->
        @w_ RealNum.scalar u <= @w_ RealNum.scalar (1 / 2))%R
  /\ @w_ Binary64.scalar 0%float = 0%float
  /\ @w_ Binary64.scalar 1%float = 0%float
  /\ PrimFloat.ltb 0 (@w_ Binary64.scalar 0.5%float) = true.
Proof.
  split; [rewrite w_real; lra|].
  split; [rewrite w_real; lra|].
  split; [rewrite w_real; lra|].
  split.
  { replace 0%R with (2 * 0 * (1 - 0) * (1 - 2 * 0))%R at 2 by ring.
    apply w_derivative. }
  split.
  { replace 0%R with (2 * (1 / 2) * (1 - 1 / 2) * (1 - 2 * (1 / 2)))%R
      at 1 by field.
    apply w_derivative. }
  split.
  { replace 0%R with (2 * 1 * (1 - 1) * (1 - 2 * 1))%R at 1 by ring.
    apply w_derivative. }
  split.
  { intros u. rewrite w_real.
    replace (u * u * (1 - u) * (1 - u))%R
      with ((u * (1 - u)) * (u * (1 - u)))%R by ring.
    apply Rle_0_sqr. }
  split; [intros u; rewrite !w_real; cbn [D RealNum.scalar]; ring|].
  split.
  { intros u Hu. rewrite !w_real.
    assert (H1 : (0 <= u * (1 - u))%R) by nra.
    assert (H2 : (u * (1 - u) <= 1 / 4)%R)
      by (pose proof (Rle_0_sqr (u - 1 / 2)) as Hs; unfold Rsqr in Hs; lra).
    replace (u * u * (1 - u) * (1 - u))%R
      with ((u * (1 - u)) * (u * (1 - u)))%R by ring.
    nra. }
  repeat split.
Qed.

Section BlendRange.
Local Existing Instance RealNum.scalar.
Context {Co : Collaborators}.

Local Open Scope R_scope.

(** A step of the loop with a weight that is zero changes nothing. *)
Lemma addFit_zero (regFits : list CubicCurve)
    (numSamplesPerFit numFits i : nat) (acc : glm.dvec2 * R) (j : nat) :
  w_ (INR j / INR (numSamplesPerFit - 1)) = 0 ->
  addFit regFits numSamplesPerFit numFits i acc j = acc.
Proof.
  intros Hw. unfold addFit. destruct acc as [[px py] sw].
  destruct (_ && _)%bool; [|reflexivity]. cbv zeta.
  cbn [d_of_nat RealNum.scalar ddiv] in *. rewrite Hw.
  unfold glm.add, glm.scale. cbn [glm.x glm.y dadd dmul RealNum.scalar].
  f_equal; [f_equal|]; ring.
Qed.
End BlendRange.

(** X14.  "loop range equivalent to do j in [0, numSamplesToFit)": over
    the reals, running the inner loop of [averageRegFits_] over every [j]
    from 0 to [numSamplesPerFit - 1] gives the same position and the same
    sum of weights as the loop of the code, which leaves out the first and
    the last [j], whose weight is zero. *)
Theorem blend_loop_range (Co : @Collaborators RealNum.scalar)
    (regFits : list (@CubicCurve RealNum.scalar Co))
    (numSamplesPerFit numFits i : nat) :
  (2 <= numSamplesPerFit)%nat ->
  fold_left (@addFit RealNum.scalar Co regFits numSamplesPerFit numFits i)
            (seq 0 numSamplesPerFit) (@glm.vec2 RealNum.scalar 0%R 0%R, 0%R)
  = @averageRegFits_acc RealNum.scalar Co regFits numSamplesPerFit numFits i.
Proof.
  intros Hm. rewrite averageRegFits_acc_eq.
  replace numSamplesPerFit
    with (1 + ((numSamplesPerFit - 1 - 1) + 1))%nat at 2 by lia.
  rewrite seq_app, fold_left_app. cbn [seq fold_left].
  rewrite addFit_zero.
  2:{ rewrite w_real. simpl INR. lra. }
  rewrite seq_app, fold_left_app. cbn [seq fold_left].
  rewrite addFit_zero.
  2:{ rewrite w_real.
      replace (0 + 1 + (numSamplesPerFit - 1 - 1))%nat
        with (numSamplesPerFit - 1)%nat by lia.
      assert (0 < INR (numSamplesPerFit - 1))%R by (apply lt_0_INR; lia).
      replace (INR (numSamplesPerFit - 1) / INR (numSamplesPerFit - 1))%R
        with 1%R by (field; lra).
      lra. }
  reflexivity.
Qed.

Lemma blend_loop_range_witness :
  fold_left (@addFit RealNum.scalar RealNum.collaborators
               [[@glm.vec2 RealNum.scalar 0%R 0%R; @glm.vec2 RealNum.scalar 1%R 0%R; @glm.vec2 RealNum.scalar 2%R 1%R]]
               3 1 1)
            (seq 0 3) (@glm.vec2 RealNum.scalar 0%R 0%R, 0%R)
  = @averageRegFits_acc RealNum.scalar RealNum.collaborators
      [[@glm.vec2 RealNum.scalar 0%R 0%R; @glm.vec2 RealNum.scalar 1%R 0%R; @glm.vec2 RealNum.scalar 2%R 1%R]] 3 1 1.
Proof.
  apply (blend_loop_range RealNum.collaborators
           [[@glm.vec2 RealNum.scalar 0%R 0%R; @glm.vec2 RealNum.scalar 1%R 0%R; @glm.vec2 RealNum.scalar 2%R 1%R]] 3 1 1).
  lia.
Defined.

(** ** The knots around a segment *)

Section ControlKnots.
Context {Sc : Scalar}.

Local Abbreviation kn ks i := (nth i ks VCurveKnot_init).

Lemma idx_Fail {A} (v : list A) (i : nat) :
  (length v <= i)%nat -> idx v i = Fail Undefined.
Proof.
  intros H. unfold idx.
  destruct (nth_error v i) eqn:E; [|reflexivity].
  assert (nth_error v i <> None) by congruence.
  apply nth_error_Some in H0. lia.
Qed.
End ControlKnots.

(** X15.  "Saturating at corner knots": with a corner at both ends of the
    vector of knots, the six knots A, B, C, D, E, F of the segment [i] are
    knots of the vector, of indices [iA <= iB <= i < i + 1 <= iE <= iF].
    No index leaves the vector, A is at most two knots before C and F at
    most two knots after D, no knot after A up to C and no knot from D up
    to before F is a corner, and A (or F) is closer than two knots only
    when it is a corner. *)
Theorem control_knots_saturate (Sc : Scalar) (knots : list VCurveKnot)
    (i : nat) :
  (i + 1 < length knots)%nat ->
  k_isCorner (nth 0 knots VCurveKnot_init) = true ->
  k_isCorner (nth (length knots - 1) knots VCurveKnot_init) = true ->
  exists iA iB iE iF,
    controlKnots knots i
    = Ok (nth iA knots VCurveKnot_init, nth iB knots VCurveKnot_init,
          nth i knots VCurveKnot_init, nth (i + 1) knots VCurveKnot_init,
          nth iE knots VCurveKnot_init, nth iF knots VCurveKnot_init)
    /\ (iA <= iB)%nat /\ (iB <= i)%nat /\ (i + 1 <= iE)%nat
    /\ (iE <= iF)%nat /\ (iF < length knots)%nat
    /\ (i <= iA + 2)%nat /\ (iF <= i + 3)%nat
    /\ (forall j, (iA < j)%nat -> (j <= i)%nat ->
          k_isCorner (nth j knots VCurveKnot_init) = false)
    /\ (forall j, (i + 1 <= j)%nat -> (j < iF)%nat ->
          k_isCorner (nth j knots VCurveKnot_init) = false)
    /\ (i = (iA + 2)%nat
        \/ k_isCorner (nth iA knots VCurveKnot_init) = true)
    /\ (iF = (i + 3)%nat
        \/ k_isCorner (nth iF knots VCurveKnot_init) = true).
Proof.
  intros Hi H0 Hn. unfold controlKnots.
  rewrite (idx_Ok knots i VCurveKnot_init) by lia.
  rewrite (idx_Ok knots (i + 1) VCurveKnot_init) by lia.
  cbn [bind].
  set (kn := fun j => nth j knots VCurveKnot_init).
  fold (kn 0%nat) in H0. fold (kn (length knots - 1)%nat) in Hn.
  fold (kn i) (kn (i + 1)%nat).
  (* B *)
  assert (HB : exists iB,
             (if k_isCorner (kn i) then Ok i else dec i) = Ok iB
             /\ ((k_isCorner (kn i) = true /\ iB = i)
                 \/ (k_isCorner (kn i) = false /\ i = (iB + 1)%nat))).
  { destruct (k_isCorner (kn i)) eqn:EC; [exists i; auto|].
    destruct i as [|j]; [congruence|]. exists j.
    split; [reflexivity|right; split; [reflexivity|lia]]. }
  destruct HB as (iB & -> & HB). cbn [bind].
  rewrite (idx_Ok knots iB VCurveKnot_init) by lia. cbn [bind].
  fold (kn iB).
  (* A *)
  assert (HA : exists iA,
             (if k_isCorner (kn iB) then Ok iB else dec iB) = Ok iA
             /\ ((k_isCorner (kn iB) = true /\ iA = iB)
                 \/ (k_isCorner (kn iB) = false /\ iB = (iA + 1)%nat))).
  { destruct (k_isCorner (kn iB)) eqn:EB; [exists iB; auto|].
    destruct iB as [|j]; [congruence|]. exists j.
    split; [reflexivity|right; split; [reflexivity|lia]]. }
  destruct HA as (iA & -> & HA). cbn [bind].
  rewrite (idx_Ok knots iA VCurveKnot_init) by lia. cbn [bind].
  (* E *)
  set (iE := if k_isCorner (kn (i + 1)%nat) then (i + 1)%nat
             else (i + 1 + 1)%nat).
  assert (HE : (iE < length knots)%nat
               /\ ((k_isCorner (kn (i + 1)%nat) = true /\ iE = (i + 1)%nat)
                   \/ (k_isCorner (kn (i + 1)%nat) = false
                       /\ iE = (i + 2)%nat))).
  { unfold iE. destruct (k_isCorner (kn (i + 1)%nat)) eqn:ED.
    - split; [lia|left; auto].
    - assert ((i + 1)%nat <> (length knots - 1)%nat)
        by (intros E; rewrite E in ED; congruence).
      split; [lia|right; split; [reflexivity|lia]]. }
  destruct HE as (HE1 & HE).
  rewrite (idx_Ok knots iE VCurveKnot_init) by lia. cbn [bind].
  fold (kn iE).
  (* F *)
  set (iF := if k_isCorner (kn iE) then iE else (iE + 1)%nat).
  assert (HF : (iF < length knots)%nat
               /\ ((k_isCorner (kn iE) = true /\ iF = iE)
                   \/ (k_isCorner (kn iE) = false /\ iF = (iE + 1)%nat))).
  { unfold iF. destruct (k_isCorner (kn iE)) eqn:EE.
    - split; [lia|left; auto].
    - assert (iE <> (length knots - 1)%nat)
        by (intros E; rewrite E in EE; congruence).
      split; [lia|right; split; [reflexivity|lia]]. }
  destruct HF as (HF1 & HF).
  rewrite (idx_Ok knots iF VCurveKnot_init) by lia. cbn [bind].
  exists iA, iB, iE, iF.
  fold (kn iA) (kn iF).
  split; [reflexivity|].
  clearbody iE iF. clear H0 Hn.
  destruct HB as [[EC HB]|[EC HB]], HA as [[EB HA]|[EB HA]],
           HE as [[ED HE]|[ED HE]], HF as [[EE HF]|[EE HF]];
    (do 7 (split; [lia|]));
    (split;
     [intros j H1 H2; fold (kn j);
      assert (Hj : j = i \/ j = iB) by lia;
      destruct Hj as [Hj|Hj]; first [lia | congruence]|]);
    (split;
     [intros j H1 H2; fold (kn j);
      assert (Hj : j = (i + 1)%nat \/ j = iE) by lia;
      destruct Hj as [Hj|Hj]; first [lia | congruence]|]);
    (split;
     [first [left; lia | right; congruence]
     |first [left; lia | right; congruence]]).
Qed.

(** Four knots in binary64, a corner at each end. *)
Definition endKnot (x : float) (corner : bool) : @VCurveKnot Binary64.scalar :=
  @Build_VCurveKnot Binary64.scalar (@glm.vec2 Binary64.scalar x 0%float)
                    1%float 0%float corner.

Definition cornerRun : list (@VCurveKnot Binary64.scalar) :=
  [endKnot 0 true; endKnot 1 false; endKnot 2 false; endKnot 3 true].

Lemma control_knots_saturate_witness :
  exists iA iB iE iF,
    controlKnots cornerRun 1
    = Ok (nth iA cornerRun VCurveKnot_init, nth iB cornerRun VCurveKnot_init,
          nth 1 cornerRun VCurveKnot_init,
          nth (1 + 1) cornerRun VCurveKnot_init,
          nth iE cornerRun VCurveKnot_init, nth iF cornerRun VCurveKnot_init)
    /\ (iA <= iB)%nat /\ (iB <= 1)%nat /\ (1 + 1 <= iE)%nat
    /\ (iE <= iF)%nat /\ (iF < length cornerRun)%nat
    /\ (1 <= iA + 2)%nat /\ (iF <= 1 + 3)%nat
    /\ (forall j, (iA < j)%nat -> (j <= 1)%nat ->
          k_isCorner (nth j cornerRun VCurveKnot_init) = false)
    /\ (forall j, (1 + 1 <= j)%nat -> (j < iF)%nat ->
          k_isCorner (nth j cornerRun VCurveKnot_init) = false)
    /\ (1%nat = (iA + 2)%nat
        \/ k_isCorner (nth iA cornerRun VCurveKnot_init) = true)
    /\ (iF = (1 + 3)%nat
        \/ k_isCorner (nth iF cornerRun VCurveKnot_init) = true).
Proof.
  apply (control_knots_saturate Binary64.scalar cornerRun 1);
    [simpl; lia|reflexivity|reflexivity].
Defined.

(** X16.  The corners at the two ends are needed: when the first or the
    last knot of a vector of two knots or more is not a corner, some
    segment reads a knot outside the vector ([knots_[iC - 1]] with
    [iC = 0], or [knots_[n]]). *)
Theorem control_knots_need_corners (Sc : Scalar) (knots : list VCurveKnot) :
  (2 <= length knots)%nat ->
  k_isCorner (nth 0 knots VCurveKnot_init) = false
  \/ k_isCorner (nth (length knots - 1) knots VCurveKnot_init) = false ->
  exists i, (i + 1 < length knots)%nat
            /\ controlKnots knots i = Fail Undefined.
Proof.
  intros Hl [H|H].
  - exists 0%nat. split; [lia|]. unfold controlKnots.
    rewrite (idx_Ok knots 0 VCurveKnot_init) by lia.
    rewrite (idx_Ok knots (0 + 1) VCurveKnot_init) by lia.
    cbn [bind]. rewrite H. reflexivity.
  - exists (length knots - 2)%nat. split; [lia|]. unfold controlKnots.
    set (i := (length knots - 2)%nat).
    rewrite (idx_Ok knots i VCurveKnot_init) by lia.
    rewrite (idx_Ok knots (i + 1) VCurveKnot_init) by lia.
    cbn [bind].
    replace (i + 1)%nat with (length knots - 1)%nat by lia.
    rewrite H.
    assert (HB : (if k_isCorner (nth i knots VCurveKnot_init)
                  then Ok i else dec i) = Fail Undefined
                 \/ exists iB, (iB <= i)%nat
                      /\ (if k_isCorner (nth i knots VCurveKnot_init)
                          then Ok i else dec i) = Ok iB).
    { destruct (k_isCorner (nth i knots VCurveKnot_init)); [right; eauto|].
      destruct i as [|j]; [left; reflexivity|right].
      exists j. split; [lia|reflexivity]. }
    destruct HB as [->|(iB & HiB & ->)]; [reflexivity|]. cbn [bind].
    rewrite (idx_Ok knots iB VCurveKnot_init) by lia. cbn [bind].
    assert (HA : (if k_isCorner (nth iB knots VCurveKnot_init)
                  then Ok iB else dec iB) = Fail Undefined
                 \/ exists iA, (iA <= iB)%nat
                      /\ (if k_isCorner (nth iB knots VCurveKnot_init)
                          then Ok iB else dec iB) = Ok iA).
    { destruct (k_isCorner (nth iB knots VCurveKnot_init)); [right; eauto|].
      destruct iB as [|j]; [left; reflexivity|right].
      exists j. split; [lia|reflexivity]. }
    destruct HA as [->|(iA & HiA & ->)]; [reflexivity|]. cbn [bind].
    rewrite (idx_Ok knots iA VCurveKnot_init) by lia. cbn [bind].
    rewrite (idx_Fail knots (length knots - 1 + 1)) by lia.
    reflexivity.
Qed.

Definition smoothRun : list (@VCurveKnot Binary64.scalar) :=
  [endKnot 0 true; endKnot 1 false; endKnot 2 false].

Lemma control_knots_need_corners_witness :
  exists i, (i + 1 < length smoothRun)%nat
            /\ controlKnots smoothRun i = Fail Undefined.
Proof.
  apply (control_knots_need_corners Binary64.scalar smoothRun);
    [simpl; lia|right; reflexivity].
Defined.

(** ** One subdivision step *)

Section WriteLoops.
Context {A : Type}.
Variable z : A.
Variable g : nat -> nat.
Variable f : list A -> nat -> A.

(** [for k in ks: v[g(k)] = f(v, k);] *)
Definition writeLoop (ks : list nat) (v : list A) : list A :=
  fold_left (fun w k => vset (g k) (f w k) w) ks v.

Lemma writeLoop_length (ks : list nat) (v : list A) :
  length (writeLoop ks v) = length v.
Proof. apply fold_vset_length. Qed.

(** An element that no step assigns is as before. *)
Lemma writeLoop_other (ks : list nat) (v : list A) (j : nat) :
  (forall k, In k ks -> g k <> j) ->
  nth j (writeLoop ks v) z = nth j v z.
Proof.
  revert v. induction ks as [|k ks IH]; intros v H; [reflexivity|].
  unfold writeLoop in *. cbn [fold_left].
  rewrite IH by (intros k' Hk'; apply H; now right).
  apply nth_vset_neq. apply H. now left.
Qed.

(** The element assigned at the step [k] of a loop over [a .. a+len-1],
    when no later step assigns it again. *)
Lemma writeLoop_at (a len : nat) (v : list A) (k : nat) :
  (a <= k)%nat -> (k < a + len)%nat ->
  (g k < length v)%nat ->
  (forall k', (k < k')%nat -> (k' < a + len)%nat -> g k' <> g k) ->
  nth (g k) (writeLoop (seq a len) v) z
  = f (writeLoop (seq a (k - a)) v) k.
Proof.
  intros Hk1 Hk2 Hg Hinj.
  replace len with ((k - a) + (1 + (a + len - k - 1)))%nat by lia.
  rewrite seq_app. unfold writeLoop at 1. rewrite fold_left_app.
  fold (writeLoop (seq a (k - a)) v).
  replace (a + (k - a))%nat with k by lia.
  rewrite seq_app. rewrite fold_left_app. cbn [seq fold_left].
  fold (writeLoop (seq (k + 1) (a + len - k - 1))
          (vset (g k) (f (writeLoop (seq a (k - a)) v) k)
                (writeLoop (seq a (k - a)) v))).
  rewrite writeLoop_other.
  - apply nth_vset_eq. now rewrite writeLoop_length.
  - intros k' Hk'. apply in_seq in Hk'. apply Hinj; lia.
Qed.
End WriteLoops.

(** X17.  One step of the subdivision, on a vector of [p + 4] values with
    [p >= 3]: the new vector has [2 p - 1] values; the value of index
    [k + 2] moves to the index [2 k]; between two of them that have a
    neighbour on each side, at the index [2 k + 3], comes the value
    [interpolateUsingDynLevin] gives for the four old values of indices
    [k + 2 .. k + 5]; the other odd indices hold no value. *)
Theorem subdivision_step_values (Sc : Scalar) (T : Type)
    (interp : T -> T -> T -> T -> D -> T) (z : T) (values : list T) :
  (7 <= length values)%nat ->
  let p := (length values - 4)%nat in
  let v := subdivisionStep interp z values in
  length v = (2 * p - 1)%nat
  /\ (forall k, (k < p)%nat -> nth (2 * k) v z = nth (k + 2) values z)
  /\ (forall k, (k < p - 3)%nat ->
        nth (2 * k + 3) v z
        = interp (nth (k + 2) values z) (nth (k + 3) values z)
                 (nth (k + 4) values z) (nth (k + 5) values z) tension)
  /\ nth 1 v z = z /\ nth (2 * p - 3) v z = z.
Proof.
  intros Hl. cbv zeta. unfold subdivisionStep. cbv zeta.
  set (p := (length values - 4)%nat).
  set (spread := fold_left _ (seq 0 p) (repeat z (2 * p - 1))).
  assert (Ls : length spread = (2 * p - 1)%nat).
  { unfold spread.
    rewrite (fold_vset_length (fun _ k => nth (k + 2) values z)
                              (fun k => (2 * k)%nat)).
    apply repeat_length. }
  assert (Hs : forall k, (k < p)%nat ->
                         nth (2 * k) spread z = nth (k + 2) values z).
  { intros k Hk. unfold spread.
    change (fold_left _ (seq 0 p) (repeat z (2 * p - 1)))
      with (writeLoop (fun k => (2 * k)%nat)
              (fun (_ : list T) k => nth (k + 2) values z)
              (seq 0 p) (repeat z (2 * p - 1))).
    rewrite (writeLoop_at z (fun k => (2 * k)%nat)); try lia.
    - reflexivity.
    - rewrite repeat_length. lia. }
  assert (Hodd : forall j, Nat.odd j = true -> nth j spread z = z).
  { intros j Hj. unfold spread.
    change (fold_left _ (seq 0 p) (repeat z (2 * p - 1)))
      with (writeLoop (fun k => (2 * k)%nat)
              (fun (_ : list T) k => nth (k + 2) values z)
              (seq 0 p) (repeat z (2 * p - 1))).
    rewrite writeLoop_other.
    - destruct (Nat.lt_ge_cases j (2 * p - 1)).
      + apply nth_repeat_lt. assumption.
      + apply nth_overflow. now rewrite repeat_length.
    - intros k _ E. rewrite <- E in Hj.
      rewrite Nat.odd_mul in Hj. discriminate. }
  set (F := fun (nv : list T) k =>
              interp (nth (2 * k) nv z) (nth (2 * k + 2) nv z)
                     (nth (2 * k + 4) nv z) (nth (2 * k + 6) nv z) tension).
  change (fold_left _ (seq 0 (p - 3)) spread)
    with (writeLoop (fun k => (2 * k + 3)%nat) F (seq 0 (p - 3)) spread).
  assert (Heven : forall ks j, Nat.even j = true ->
            nth j (writeLoop (fun k => (2 * k + 3)%nat) F ks spread) z
            = nth j spread z).
  { intros ks j Hj. apply writeLoop_other. intros k _ E.
    rewrite <- E in Hj.
    replace (2 * k + 3)%nat with (1 + 2 * (k + 1))%nat in Hj by lia.
    rewrite Nat.even_add_mul_2 in Hj. discriminate. }
  split; [now rewrite writeLoop_length|].
  split.
  { intros k Hk. rewrite Heven; [now apply Hs|].
    rewrite Nat.even_mul. reflexivity. }
  split.
  { intros k Hk.
    rewrite (writeLoop_at z (fun k => (2 * k + 3)%nat) F 0 (p - 3) spread k);
      try lia.
    unfold F.
    rewrite !Heven.
    - replace (2 * k + 2)%nat with (2 * (k + 1))%nat by lia.
      replace (2 * k + 4)%nat with (2 * (k + 2))%nat by lia.
      replace (2 * k + 6)%nat with (2 * (k + 3))%nat by lia.
      rewrite !Hs by lia.
      replace (k + 1 + 2)%nat with (k + 3)%nat by lia.
      replace (k + 2 + 2)%nat with (k + 4)%nat by lia.
      replace (k + 3 + 2)%nat with (k + 5)%nat by lia.
      reflexivity.
    - replace (2 * k + 6)%nat with (0 + 2 * (k + 3))%nat by lia.
      now rewrite Nat.even_add_mul_2.
    - replace (2 * k + 4)%nat with (0 + 2 * (k + 2))%nat by lia.
      now rewrite Nat.even_add_mul_2.
    - replace (2 * k + 2)%nat with (0 + 2 * (k + 1))%nat by lia.
      now rewrite Nat.even_add_mul_2.
    - rewrite Nat.even_mul. reflexivity. }
  split.
  - rewrite writeLoop_other; [now apply Hodd|].
    intros k _. cbv beta. lia.
  - rewrite writeLoop_other.
    + apply Hodd.
      replace (2 * p - 3)%nat with (1 + 2 * (p - 2))%nat by lia.
      now rewrite Nat.odd_add_mul_2.
    + intros k Hk. apply in_seq in Hk. cbv beta. lia.
Qed.

Lemma subdivision_step_values_witness :
  let values := [0; 0; 1; 2; 3; 4; 5; 6; 0; 0]%float in
  let p := (length values - 4)%nat in
  let v := @subdivisionStep Binary64.scalar float
             (fun a b c d w => ((b + c) / 2)%float) 0%float values in
  length v = (2 * p - 1)%nat
  /\ (forall k, (k < p)%nat ->
        nth (2 * k) v 0%float = nth (k + 2) values 0%float)
  /\ (forall k, (k < p - 3)%nat ->
        nth (2 * k + 3) v 0%float
        = (fun a b c d w => ((b + c) / 2)%float)
            (nth (k + 2) values 0%float) (nth (k + 3) values 0%float)
            (nth (k + 4) values 0%float) (nth (k + 5) values 0%float)
            (@tension Binary64.scalar))
  /\ nth 1 v 0%float = 0%float /\ nth (2 * p - 3) v 0%float = 0%float.
Proof.
  apply (subdivision_step_values Binary64.scalar float
           (fun a b c d w => ((b + c) / 2)%float) 0%float
           [0; 0; 1; 2; 3; 4; 5; 6; 0; 0]%float).
  simpl. lia.
Defined.

(** X18.  "final size = 9 + 2^numSubdivisionSteps": from the ten values
    [_, _, A, B, C, D, E, F, _, _] the subdivision gives 17 values, with C
    at the index 4 and D at the index [size - 5], the two ends of the range
    the samples are read from; half-way between them is the value
    interpolated from B, C, D, E at the first step. *)
Theorem subdivision_shape (Sc : Scalar) (T : Type)
    (interp : T -> T -> T -> T -> D -> T) (z a b c d e f : T) :
  let v := subdivide interp z [z; z; a; b; c; d; e; f; z; z] in
  length v = (9 + 2 ^ numSubdivisionSteps)%nat
  /\ nth 4 v z = c
  /\ nth (length v - 5) v z = d
  /\ nth 8 v z = interp b c d e tension.
Proof. cbv zeta. repeat split. Qed.

(** ** A whole stroke *)

Section Stroke.
Context {Sc : Scalar} {Co : Collaborators}.

Local Open Scope D_scope.







Lemma appendInputSample_head (s : VCurveInputSample)
    (h : list VCurveInputSample) :
  nth 0 (appendInputSample_ s h) s = nth 0 h s.
Proof.
  rewrite appendInputSample_cases.
  destruct h as [|a t]; [reflexivity|].
  destruct (farEnough s (a :: t)); reflexivity.
Qed.


End Stroke.


(** ** Where the curve ends *)

Section Ends.
Context {Sc : Scalar} {Co : Collaborators}.

Local Open Scope D_scope.

(** The knot [k] stands for the smoothed position [p]: it is at [p], or
    [p] does not compare farther from it than the resolution. *)
Definition standsFor (resolution : D) (k : VCurveKnot) (p : glm.dvec2)
    : Prop :=
  k_position k = p \/ (dist (k_position k) p >? resolution) = false.

Lemma keepFar_standsFor (resolution : D) (regPositions : list glm.dvec2)
    (regWidths : list D) (l : list nat)
    (st : VCurveKnot * list VCurveKnot * list D) (j0 : nat) :
  fst (fst st) = last (snd (fst st)) VCurveKnot_init ->
  standsFor resolution (fst (fst st)) (nth j0 regPositions zero2) ->
  let st' := fold_left (keepFar resolution regPositions regWidths) l st in
  fst (fst st') = last (snd (fst st')) VCurveKnot_init
  /\ standsFor resolution (fst (fst st'))
               (nth (last l j0) regPositions zero2).
Proof.
  revert st j0. induction l as [|i l IH]; intros st j0 H1 H2; [auto|].
  cbn [fold_left]. cbv zeta.
  replace (last (i :: l) j0) with (last l i)
    by (destruct l; [reflexivity|];
        change (last (i :: n :: l) j0) with (last (n :: l) j0);
        apply last_default; discriminate).
  apply IH.
  - destruct st as [[k ks] d]. unfold keepFar. cbn [fst snd] in *.
    destruct (dlt _ _); cbn [fst snd]; [now rewrite last_last|exact H1].
  - destruct st as [[k ks] d]. unfold keepFar. cbn [fst snd] in *.
    destruct (dlt _ _) eqn:E; cbn [fst snd].
    + left. reflexivity.
    + right. exact E.
Qed.

Lemma last_seq (a len : nat) :
  last (seq a len) (a - 1)%nat = (a + len - 1)%nat.
Proof.
  destruct len as [|len]; [simpl; lia|].
  rewrite seq_S, last_last. lia.
Qed.

Lemma last_map_eq {A B} (p : A -> B) (v w : list A) (z : A) :
  map p v = map p w -> p (last v z) = p (last w z).
Proof.
  intros H. rewrite !last_nth.
  replace (length v) with (length w)
    by (rewrite <- (length_map p w), <- H; apply length_map).
  now apply nth_map_eq.
Qed.

(** The last knot stands for the last smoothed position. *)
Lemma knotsOf_last (params : VCurveParams)
    (inputSamples : list VCurveInputSample)
    (regPositions : list glm.dvec2) (regWidths : list D) :
  inputSamples <> [] ->
  let ks := knotsOf params inputSamples regPositions regWidths in
  standsFor (resolutionOf inputSamples) (last ks VCurveKnot_init)
            (nth (length inputSamples - 1) regPositions zero2).
Proof.
  intros Hne. cbv zeta. unfold knotsOf. cbv zeta.
  pose proof (removeDuplicates_shape (resolutionOf inputSamples)
                (length inputSamples) regPositions regWidths) as Hshape.
  assert (Hd : standsFor (resolutionOf inputSamples)
                 (last (fst (removeDuplicates (resolutionOf inputSamples)
                               (length inputSamples) regPositions
                               regWidths)) VCurveKnot_init)
                 (nth (length inputSamples - 1) regPositions zero2)).
  { rewrite removeDuplicates_eq. cbv zeta. cbn [fst].
    destruct (keepFar_standsFor (resolutionOf inputSamples) regPositions
                regWidths (seq 1 (length inputSamples - 1))
                (knot0 regPositions regWidths,
                 [knot0 regPositions regWidths], []) 0)
      as [H1 H2]; [reflexivity|left; reflexivity|].
    rewrite <- H1.
    change 0%nat with (1 - 1)%nat in H2 at 1.
    rewrite last_seq in H2.
    assert (Hn : (0 < length inputSamples)%nat)
      by (destruct inputSamples; simpl; [congruence|lia]).
    replace (1 + (length inputSamples - 1) - 1)%nat
      with (length inputSamples - 1)%nat in H2 by lia.
    exact H2. }
  destruct (removeDuplicates _ _ _ _) as [ks d]. cbn [fst snd] in *.
  destruct Hshape as [Hks _].
  set (X := computeAngles ks).
  assert (HX : map k_position X = map k_position ks)
    by (now apply computeAngles_map).
  assert (HXne : X <> []).
  { intros E. rewrite E in HX. destruct ks; [congruence|discriminate]. }
  assert (Hl : k_position
                 (last (decideCorners (maxSmoothKnotAngle params)
                          (computeAngles (mergeKnots d X)))
                       VCurveKnot_init)
               = k_position (last ks VCurveKnot_init)).
  { rewrite (last_map_eq k_position _ (mergeKnots d X)).
    2:{ rewrite (decideCorners_map k_position) by reflexivity.
        now apply computeAngles_map. }
    rewrite mergeKnots_scan by assumption.
    destruct X as [|A x]; [congruence|]. cbn [mergeScan].
    rewrite <- (last_map_eq k_position (A :: x) ks VCurveKnot_init HX).
    destruct x as [|B x]; [reflexivity|].
    assert (Hm : mergeFrom d 0 (B :: x) <> [])
      by (apply mergeFrom_nonempty; discriminate).
    pose proof (mergeFrom_last d (B :: x) 0) as Hlast.
    destruct (mergeFrom d 0 (B :: x)) as [|m ms]; [congruence|].
    change (last (A :: m :: ms) VCurveKnot_init)
      with (last (m :: ms) VCurveKnot_init).
    change (last (A :: B :: x) VCurveKnot_init)
      with (last (B :: x) VCurveKnot_init).
    now rewrite Hlast. }
  unfold standsFor in *. rewrite Hl. exact Hd.
Qed.

Lemma regPositionsOf_last (h : list VCurveInputSample)
    (rf : list CubicCurve) :
  h <> [] ->
  nth (length h - 1) (regPositionsOf h rf) zero2
  = in_position (last h VCurveInputSample_init).
Proof.
  intros Hne.
  assert (Hn : (0 < length h)%nat) by (destruct h; simpl; [congruence|lia]).
  unfold regPositionsOf.
  rewrite (nth_indep (map (smoothedPosition h rf) _) zero2
                     (smoothedPosition h rf 0))
    by (rewrite length_map, length_seq; lia).
  rewrite (map_nth (smoothedPosition h rf)), seq_nth by lia.
  unfold smoothedPosition. cbv zeta. cbn [Nat.add].
  rewrite Nat.eqb_refl. now rewrite last_nth.
Qed.
End Ends.

(** X20.  Where the curve ends: the last sample is at the last knot, with
    its width, and the last knot stands for the last input sample: it is at
    the position of that sample, or that position does not compare farther
    from it than the resolution [max(10 eps, inputSamples_[0].resolution)].
    The first knot is at the position of the first input sample. *)
Theorem curve_ends (Sc : Scalar) (Co : Collaborators)
    (s : VCurveInputSample) (c : VCurve) :
  exists c1,
    continueFit s c = Ok c1
    /\ let h := inputSamples_ c1 in
       let K := last (knots c1) VCurveKnot_init in
       let X := last (samples c1) VCurveSample_init in
       let pn := in_position (last h VCurveInputSample_init) in
       position X = k_position K
       /\ width X = k_width K
       /\ (k_position K = pn
           \/ (dist (k_position K) pn >? resolutionOf h)%D = false)
       /\ k_position (nth 0 (knots c1) VCurveKnot_init)
          = in_position (nth 0 h VCurveInputSample_init).
Proof.
  destruct (continueFit_passes s c)
    as (c1 & H & _ & _ & Hne & Hrf & Hrp & Hrw & Hk & _).
  destruct (continueFit_segments s c)
    as (c2 & segs & H2 & Hkne & _ & _ & _ & Hsm).
  rewrite H in H2. injection H2 as <-.
  exists c1. split; [exact H|]. cbv zeta. unfold knots, samples.
  rewrite Hsm, last_last.
  destruct (lastSample_turned (knots_ c1) segs) as [_ [Hp Hw]].
  rewrite <- last_nth in Hp, Hw.
  split; [exact Hp|]. split; [exact Hw|].
  split.
  - pose proof (knotsOf_last (params_ c1) (inputSamples_ c1)
                  (regPositions_ c1) (regWidths_ c1) Hne) as Hl.
    cbv zeta in Hl. rewrite <- Hk in Hl.
    rewrite Hrp in Hl.
    rewrite regPositionsOf_last in Hl by assumption.
    exact Hl.
  - assert (Lrp : length (regPositions_ c1) = length (inputSamples_ c1))
      by (rewrite Hrp; apply regPositionsOf_length).
    assert (Lrw : length (regWidths_ c1) = length (inputSamples_ c1))
      by (rewrite Hrw; apply regWidthsOf_length).
    destruct (knotsOf_placed (params_ c1) (inputSamples_ c1)
                (regPositions_ c1) (regWidths_ c1) Hne Lrp Lrw) as [_ Hh].
    rewrite <- Hk in Hh. unfold placed in Hh. injection Hh as Hh1 _.
    rewrite Hh1, Hrp. now apply regPositionsOf_first.
Qed.

(** ** Tangents and normals of length one, over the reals *)

Section UnitTangents.
Local Existing Instance RealNum.scalar.
Context {Co : Collaborators}.

Local Open Scope R_scope.

Local Abbreviation sm ss i := (nth i ss VCurveSample_init).
Local Abbreviation kn ks i := (nth i ks VCurveKnot_init).







(** *** The local samples of a segment *)







Local Opaque subdivide.

Section Trig.
Hypothesis trig : forall a : R, cos a * cos a + sin a * sin a = 1.





End Trig.

End UnitTangents.



(** ** Angles and corners of the knots, for every [double] *)

Section KnotAngles.
Context {Sc : Scalar} {Co : Collaborators}.

Local Open Scope D_scope.

Lemma knotsOf_end_angles (params : VCurveParams)
    (inputSamples : list VCurveInputSample)
    (regPositions : list glm.dvec2) (regWidths : list D) :
  let ks := knotsOf params inputSamples regPositions regWidths in
  k_angle (nth 0 ks VCurveKnot_init) = d0
  /\ k_angle (nth (length ks - 1) ks VCurveKnot_init) = d0.
Proof.
  cbv zeta.
  pose proof (knotsOf_nonempty params inputSamples regPositions regWidths)
    as Hne.
  unfold knotsOf in *. cbv zeta in *.
  set (M := mergeKnots _ _) in *.
  assert (HM : M <> []).
  { intros E. apply Hne. apply length_zero_iff_nil.
    rewrite decideCorners_length, computeAngles_length, E. reflexivity. }
  rewrite decideCorners_length, computeAngles_length.
  rewrite !(nth_map_eq k_angle (decideCorners _ (computeAngles M))
              (computeAngles M) VCurveKnot_init)
    by (now apply decideCorners_map).
  now apply computeAngles_ends.
Qed.
End KnotAngles.

(** X22.  For every implementation of the operations on [double], binary64
    among them: the first and the last knot of the curve are corners of
    angle 0, and every knot in between carries the supplementary angle at
    its position and is a corner exactly when that angle compares greater
    than [maxSmoothKnotAngle]. *)
Theorem knots_classified (Sc : Scalar) (Co : Collaborators)
    (s : VCurveInputSample) (c : VCurve) :
  exists c1,
    continueFit s c = Ok c1
    /\ let kn j := nth j (knots c1) VCurveKnot_init in
       let m := numKnots c1 in
       k_isCorner (kn 0%nat) = true /\ k_angle (kn 0%nat) = d0
       /\ k_isCorner (kn (m - 1)%nat) = true /\ k_angle (kn (m - 1)%nat) = d0
       /\ forall i, (1 <= i)%nat -> (i + 1 < m)%nat ->
            k_angle (kn i)
            = computeSupplementaryAngle (k_position (kn (i - 1)%nat))
                                        (k_position (kn i))
                                        (k_position (kn (i + 1)%nat))
            /\ k_isCorner (kn i)
               = (k_angle (kn i) >? maxSmoothKnotAngle (params_ c1))%D.
Proof.
  destruct (continueFit_passes s c)
    as (c1 & H & _ & _ & _ & _ & _ & _ & Hk & _).
  exists c1. split; [exact H|]. cbv zeta. unfold knots, numKnots.
  rewrite Hk.
  pose proof (knotsOf_corners (params_ c1) (inputSamples_ c1)
                (regPositions_ c1) (regWidths_ c1)) as [Hc0 Hc1].
  pose proof (knotsOf_end_angles (params_ c1) (inputSamples_ c1)
                (regPositions_ c1) (regWidths_ c1)) as [Ha0 Ha1].
  split; [exact Hc0|]. split; [exact Ha0|].
  split; [exact Hc1|]. split; [exact Ha1|].
  intros i H1 H2.
  now apply (knotsOf_inner (params_ c1) (inputSamples_ c1)
               (regPositions_ c1) (regWidths_ c1) i).
Qed.

(** X23.  A sample that [appendInputSample_] discards changes nothing:
    after a [continueFit], a further [continueFit] with a sample that is
    not farther from the last input sample than [0.1 * resolution] returns
    a curve with the same input history, fits, smoothed values and knots,
    and the same samples on every field the code assigns. *)
Theorem discarded_sample_no_change (Sc : Scalar) (Co : Collaborators)
    (s : VCurveInputSample) (c : VCurve) :
  exists c1,
    continueFit s c = Ok c1
    /\ forall s', farEnough s' (inputSamples_ c1) = false ->
         exists c2, continueFit s' c1 = Ok c2 /\ sameCurve c2 c1.
Proof.
  destruct (continueFit_passes s c)
    as (c1 & H & Hp & Hi & Hne & Hrf & Hrp & Hrw & Hk & Hs).
  exists c1. split; [exact H|]. intros s' Hfar.
  destruct (continueFit_passes s' c1)
    as (c2 & H' & Hp' & Hi' & _ & Hrf' & Hrp' & Hrw' & Hk' & Hs').
  exists c2. split; [exact H'|].
  assert (Ei : inputSamples_ c2 = inputSamples_ c1).
  { rewrite Hi', appendInputSample_cases.
    destruct (inputSamples_ c1) as [|a t]; [congruence|].
    now rewrite Hfar. }
  assert (Ef : regFits_ c2 = regFits_ c1) by congruence.
  assert (Er : regPositions_ c2 = regPositions_ c1) by congruence.
  assert (Ew : regWidths_ c2 = regWidths_ c1) by congruence.
  assert (Ek : knots_ c2 = knots_ c1) by congruence.
  assert (Es : samples_ c2 = samples_ c1).
  { rewrite Hp', Ek, Hs in Hs'. now injection Hs'. }
  unfold sameCurve. rewrite Es. repeat split; assumption.
Qed.

(** The same sample given twice, over the reals: the second one is at
    distance 0 of the last input sample, it is discarded, and the curve is
    the same. *)
Lemma discarded_sample_no_change_witness :
  exists c1 c2,
    continueFit unitSample freshCurve = Ok c1
    /\ inputSamples_ c1 = [unitSample]
    /\ farEnough unitSample (inputSamples_ c1) = false
    /\ continueFit unitSample c1 = Ok c2
    /\ inputSamples_ c2 = [unitSample]
    /\ sameCurve c2 c1.
Proof.
  destruct (discarded_sample_no_change RealNum.scalar RealNum.collaborators
              unitSample freshCurve) as (c1 & H1 & Hno).
  destruct (continueFit_passes unitSample freshCurve)
    as (c1' & H1' & _ & Hi1 & _).
  rewrite H1 in H1'. injection H1' as <-.
  change (appendInputSample_ unitSample (inputSamples_ freshCurve))
    with [unitSample] in Hi1.
  assert (Hfar : farEnough unitSample (inputSamples_ c1) = false).
  { rewrite Hi1. unfold farEnough. apply ltb_false.
    unfold glm.length, glm.sub, unitSample.
    cbn [last in_position in_resolution glm.x glm.y dsqrt dadd dsub dmul
         lit_0_1 RealNum.scalar].
    replace ((0 - 0) * (0 - 0) + (0 - 0) * (0 - 0))%R with 0%R by ring.
    rewrite sqrt_0. lra. }
  destruct (Hno unitSample Hfar) as (c2 & H2 & Hsame).
  exists c1, c2.
  split; [exact H1|]. split; [exact Hi1|]. split; [exact Hfar|].
  split; [exact H2|]. split; [|exact Hsame].
  destruct Hsame as (_ & Hi & _). now rewrite Hi.
Defined.

(** ** The blend is an average *)

Section BlendAverage.
Local Existing Instance RealNum.scalar.
Context {Co : Collaborators}.

Local Open Scope R_scope.

(** The weighted sum stays between the bounds of the values, times the
    sum of the weights. *)
Lemma addFit_between (f : glm.dvec2 -> R) (lo hi : R)
    (regFits : list CubicCurve) (numSamplesPerFit numFits i : nat)
    (js : list nat) (acc : glm.dvec2 * R) :
  (forall p q, f (glm.add p q) = f p + f q) ->
  (forall a p, f (glm.scale a p) = a * f p) ->
  (forall k u, (k < numFits)%nat ->
      lo <= f (pos (nth k regFits CubicCurve_init) u) <= hi) ->
  0 <= snd acc /\ lo * snd acc <= f (fst acc) <= hi * snd acc ->
  let acc' :=
    fold_left (addFit regFits numSamplesPerFit numFits i) js acc in
  0 <= snd acc' /\ lo * snd acc' <= f (fst acc') <= hi * snd acc'.
Proof.
  intros Hadd Hscale Hb. revert acc.
  induction js as [|j js IH]; intros acc Hacc; [exact Hacc|].
  cbn [fold_left]. apply IH.
  destruct acc as [p sw]. unfold addFit.
  destruct ((0 <=? Z.of_nat i - Z.of_nat j)%Z
            && (Z.of_nat i - Z.of_nat j <? Z.of_nat numFits)%Z)%bool eqn:E;
    [|exact Hacc].
  apply andb_true_iff in E. destruct E as [E1 E2].
  apply Z.leb_le in E1. apply Z.ltb_lt in E2.
  cbv zeta. cbn [fst snd] in *.
  set (u := (d_of_nat j / d_of_nat (numSamplesPerFit - 1))%D).
  assert (Hw : 0 <= w_ u).
  { rewrite w_real.
    replace (u * u * (1 - u) * (1 - u))
      with ((u * (1 - u)) * (u * (1 - u))) by ring.
    apply Rle_0_sqr. }
  specialize (Hb (Z.to_nat (Z.of_nat i - Z.of_nat j)) u ltac:(lia)).
  rewrite Hadd, Hscale. cbn [dadd RealNum.scalar].
  destruct Hacc as (H0 & H1 & H2). split; [lra|]. nra.
Qed.
End BlendAverage.

(** X24.  Over the reals the smoothed position of an inner sample is an
    average of the positions the fits give: each of its coordinates lies
    between any two bounds of that coordinate of the fits' positions. *)
Theorem blend_is_average (Co : @Collaborators RealNum.scalar)
    (regFits : list (@CubicCurve RealNum.scalar Co)) (n i : nat)
    (lox hix loy hiy : R) :
  (1 <= i)%nat -> (i + 2 <= n)%nat ->
  (forall k u, (k < n - Nat.min 5 n + 1)%nat ->
      (lox <= glm.x (pos (nth k regFits CubicCurve_init) u) <= hix
       /\ loy <= glm.y (pos (nth k regFits CubicCurve_init) u) <= hiy)%R) ->
  let numFits := (n - Nat.min 5 n + 1)%nat in
  let numSamplesPerFit := (n - numFits + 1)%nat in
  let p := @blendedAt RealNum.scalar Co regFits numSamplesPerFit numFits i in
  (lox <= glm.x p <= hix /\ loy <= glm.y p <= hiy)%R.
Proof.
  intros H1 H2 Hb. cbv zeta. unfold blendedAt.
  pose proof (sumW_pos_real Co regFits n i H1 H2) as Hpos. cbv zeta in Hpos.
  rewrite averageRegFits_acc_eq in *.
  set (numFits := (n - Nat.min 5 n + 1)%nat) in *.
  set (m := (n - numFits + 1)%nat) in *.
  assert (Hx := addFit_between glm.x lox hix regFits m numFits i
                  (seq 1 (m - 1 - 1))
                  (@glm.vec2 RealNum.scalar d0 d0, @d0 RealNum.scalar)
                  ltac:(reflexivity) ltac:(reflexivity)
                  (fun k u Hk => proj1 (Hb k u Hk))).
  assert (Hy := addFit_between glm.y loy hiy regFits m numFits i
                  (seq 1 (m - 1 - 1))
                  (@glm.vec2 RealNum.scalar d0 d0, @d0 RealNum.scalar)
                  ltac:(reflexivity) ltac:(reflexivity)
                  (fun k u Hk => proj2 (Hb k u Hk))).
  cbv zeta in Hx, Hy.
  destruct (fold_left _ _ _) as [[px py] sw]. cbn [fst snd glm.x glm.y] in *.
  assert (H0 : (0 <= 0 /\ lox * 0 <= 0 <= hix * 0)%R) by lra.
  assert (H0' : (0 <= 0 /\ loy * 0 <= 0 <= hiy * 0)%R) by lra.
  unfold d0 in Hx, Hy. cbn [d_of_nat RealNum.scalar INR] in Hx, Hy.
  specialize (Hx H0). specialize (Hy H0').
  unfold glm.scale, d1. cbn [glm.x glm.y dmul ddiv d_of_nat RealNum.scalar].
  simpl INR.
  assert (Hi : (0 < / sw)%R) by (now apply Rinv_0_lt_compat).
  replace (1 / sw * px)%R with (px * / sw)%R by (field; lra).
  replace (1 / sw * py)%R with (py * / sw)%R by (field; lra).
  assert (Ex : forall a : R, (a * sw * / sw = a)%R) by (intros; field; lra).
  destruct Hx as (_ & Hx1 & Hx2). destruct Hy as (_ & Hy1 & Hy2).
  repeat split.
  - rewrite <- (Ex lox). apply Rmult_le_compat_r; lra.
  - rewrite <- (Ex hix). apply Rmult_le_compat_r; lra.
  - rewrite <- (Ex loy). apply Rmult_le_compat_r; lra.
  - rewrite <- (Ex hiy). apply Rmult_le_compat_r; lra.
Qed.

Definition threePoints : list (@glm.dvec2 RealNum.scalar) :=
  [@glm.vec2 RealNum.scalar 0%R 0%R; @glm.vec2 RealNum.scalar 1%R 0%R;
   @glm.vec2 RealNum.scalar 2%R 1%R].

Lemma blend_is_average_witness :
  let p := @blendedAt RealNum.scalar RealNum.collaborators [threePoints]
             (3 - (3 - Nat.min 5 3 + 1) + 1) (3 - Nat.min 5 3 + 1) 1 in
  (0 <= glm.x p <= 2 /\ 0 <= glm.y p <= 1)%R.
Proof.
  apply (blend_is_average RealNum.collaborators [threePoints] 3 1
           0%R 2%R 0%R 1%R); [lia|lia|].
  intros k u Hk. assert (k = 0%nat) by (simpl in Hk; lia). subst k.
  cbn. lra.
Defined.

(** ** The samples of a segment are apart *)

Section Apart.
Context {Sc : Scalar} {Co : Collaborators}.

Local Open Scope D_scope.

Local Abbreviation sm ss i := (nth i ss VCurveSample_init).
Local Abbreviation kn ks i := (nth i ks VCurveKnot_init).

(** Each sample but the first compares farther than [eps] from the one
    before it. *)
Fixpoint apart (ss : list VCurveSample) : Prop :=
  match ss with
  | [] => True
  | a :: t =>
    match t with
    | [] => True
    | b :: _ =>
      (dist (position a) (position b) >? eps) = true /\ apart t
    end
  end.

Lemma apart_snoc (l : list VCurveSample) (x : VCurveSample) :
  apart l ->
  l = []
  \/ (dist (position (last l VCurveSample_init)) (position x) >? eps)
     = true ->
  apart (l ++ [x]).
Proof.
  induction l as [|a [|b t] IH]; intros H1 H2.
  - exact I.
  - destruct H2 as [H2|H2]; [discriminate|]. split; [exact H2|exact I].
  - destruct H1 as [Hab H1].
    change ((a :: b :: t) ++ [x]) with (a :: b :: (t ++ [x])).
    split; [exact Hab|]. apply IH; [exact H1|].
    destruct H2 as [H2|H2]; [discriminate|]. right. exact H2.
Qed.

Lemma apart_firstn (n : nat) (l : list VCurveSample) :
  apart l -> apart (firstn n l).
Proof.
  revert l. induction n as [|n IH]; intros [|a l] H; simpl; auto.
  destruct l as [|b l]; [now destruct n|].
  destruct H as [Hab H].
  specialize (IH (b :: l) H). destruct n as [|n]; [exact I|].
  change (firstn (S n) (b :: l)) with (b :: firstn n l) in *.
  split; assumption.
Qed.

Lemma apart_ext (l l' : list VCurveSample) :
  map position l = map position l' -> apart l -> apart l'.
Proof.
  revert l'. induction l as [|a t IH]; intros [|a' t'] Hp H;
    try discriminate; [exact I|].
  simpl in Hp. injection Hp as Hp1 Hp2.
  destruct t as [|b t], t' as [|b' t']; try discriminate; [exact I|].
  destruct H as [Hab H].
  split; [|now apply IH].
  simpl in Hp2. injection Hp2 as Hp2 _. congruence.
Qed.

Lemma distinctSamples_apart (i : nat) (samples_ : list VCurveSample)
    (positions : list glm.dvec2) (widths : list D) :
  apart (distinctSamples i samples_ positions widths).
Proof.
  unfold distinctSamples.
  apply (fold_left_invariant (fun l => apart l)).
  - exact I.
  - intros l k Hl. unfold keepDistinct.
    destruct (dlt _ _) eqn:E; [|exact Hl].
    apply apart_snoc; [exact Hl|]. right. exact E.
Qed.

Lemma localSamples_apart (i : nat) (samples_ : list VCurveSample)
    (positions : list glm.dvec2) (widths : list D) :
  let loc := localSamples i samples_ positions widths in
  apart (firstn (length loc - 1) loc).
Proof.
  cbv zeta. unfold localSamples.
  pose proof (distinctSamples_apart i samples_ positions widths) as H.
  destruct (length (distinctSamples i samples_ positions widths) =? 1) eqn:E.
  - apply Nat.eqb_eq in E. rewrite length_app, E. simpl.
    destruct (distinctSamples i samples_ positions widths) as [|a [|b t]];
      simpl in *; try lia; exact I.
  - now apply apart_firstn.
Qed.


Lemma keepDistinct_head3 (positions : list glm.dvec2) (widths : list D)
    (l : list nat) (a b c : VCurveSample) (t : list VCurveSample) :
  exists t',
    fold_left (keepDistinct positions widths) l (a :: b :: c :: t)
    = a :: b :: c :: t'.
Proof.
  revert t; induction l as [|k l IH]; intros t; simpl; [eauto|].
  unfold keepDistinct at 2. destruct (dlt _ _); [|apply IH].
  change ((a :: b :: c :: t) ++ [?x]) with (a :: b :: c :: (t ++ [x])).
  apply IH.
Qed.

(** When the first two subdivided positions after C are kept, there are
    three local samples or more. *)
Lemma localSamples_three (i : nat) (samples_ : list VCurveSample)
    (positions : list glm.dvec2) (widths : list D) :
  (11 <= length positions)%nat ->
  (glm.length (glm.sub (nth 5 positions zero2) (nth 4 positions zero2))
   >? eps) = true ->
  (glm.length (glm.sub (nth 6 positions zero2) (nth 5 positions zero2))
   >? eps) = true ->
  (3 <= length (localSamples i samples_ positions widths))%nat.
Proof.
  intros Hl H5 H6.
  assert (E : exists a b c t',
             distinctSamples i samples_ positions widths
             = a :: b :: c :: t').
  { unfold distinctSamples.
    replace (length positions - 4 - 5)%nat
      with (S (S (length positions - 11))) by lia.
    cbn [seq fold_left]. unfold keepDistinct at 3.
    cbn [back last mkSample position]. rewrite H5. cbn [app].
    unfold keepDistinct at 2.
    cbn [back last mkSample position]. rewrite H6. cbn [app].
    match goal with
    | |- context [fold_left _ ?l (?a :: ?b :: ?c :: ?t)] =>
      destruct (keepDistinct_head3 positions widths l a b c t) as [t' ->]
    end.
    eexists _, _, _, t'. reflexivity. }
  destruct E as (a & b & c & t' & E). unfold localSamples. rewrite E.
  cbn [length Nat.eqb]. lia.
Qed.

Local Opaque subdivide.

Lemma segmentLocal_apart (A B C D_ E F : VCurveKnot) (i : nat)
    (samples_ : list VCurveSample) :
  let loc := segmentLocal A B C D_ E F i samples_ in
  apart (firstn (length loc - 1) loc).
Proof.
  cbv zeta. unfold segmentLocal.
  set (P := segmentPositions A B C D_ E F).
  set (W := segmentWidths A B C D_ E F).
  set (raw := localSamples i samples_ P W).
  apply (apart_ext (firstn (length raw - 1) raw)).
  - rewrite tangentSamples_length, <- !firstn_map.
    f_equal. symmetry. now apply tangentSamples_map.
  - apply localSamples_apart.
Qed.
End Apart.

(** X25.  "Remove duplicates": a segment appends to [samples_] the samples
    added at its corner, if any, and then its own samples but the last.
    There is at least one of these; the first one is at the knot C, with
    its width; the samples added at the corner are at the knot C too; and
    each of the segment's own samples but the first compares farther than
    [eps] from the one before it. *)
Theorem segment_samples_apart (Sc : Scalar) (Co : Collaborators)
    (params : VCurveParams) (knots : list VCurveKnot) (i : nat)
    (samples_ : list VCurveSample) :
  (i + 1 < length knots)%nat ->
  k_isCorner (nth 0 knots VCurveKnot_init) = true ->
  k_isCorner (nth (length knots - 1) knots VCurveKnot_init) = true ->
  i = 0%nat \/ samples_ <> [] ->
  exists (A B E F : VCurveKnot) (fan : list VCurveSample),
    let C := nth i knots VCurveKnot_init in
    let D_ := nth (i + 1) knots VCurveKnot_init in
    let loc := segmentLocal A B C D_ E F i samples_ in
    let body := firstn (length loc - 1) loc in
    controlKnots knots i = Ok (A, B, C, D_, E, F)
    /\ segment params knots i samples_ = Ok ((samples_ ++ fan) ++ body)
    /\ (1 <= length body)%nat
    /\ position (nth 0 body VCurveSample_init) = k_position C
    /\ width (nth 0 body VCurveSample_init) = k_width C
    /\ Forall (fun x => position x = k_position C) fan
    /\ apart body.
Proof.
  intros Hi H0 Hn Hs.
  destruct (segment_Ok params knots i samples_ Hi H0 Hn Hs)
    as (A & B & E & F & Hck & Hseg).
  set (C := nth i knots VCurveKnot_init) in *.
  set (D_ := nth (i + 1) knots VCurveKnot_init) in *.
  destruct (segmentLocal_first A B C D_ E F i samples_) as (Hl & Hp & Hw).
  pose proof (segmentLocal_apart A B C D_ E F i samples_) as Ha.
  cbv zeta in Ha.
  unfold segmentOut in Hseg. cbv zeta in Hseg.
  exists A, B, E, F,
    (segmentFan params C i samples_ (segmentLocal A B C D_ E F i samples_)).
  cbv zeta.
  split; [exact Hck|]. split; [exact Hseg|].
  clear Hseg Hck.
  assert (Hfan : Forall (fun x => position x = k_position C)
                   (segmentFan params C i samples_
                      (segmentLocal A B C D_ E F i samples_))).
  { unfold segmentFan. destruct (_ && _)%bool; [|constructor].
    eapply Forall_impl; [|apply cornerSamples_same].
    cbv beta. intros z (Hz & _). rewrite Hz. exact Hp. }
  revert Hl Hp Hw Ha Hfan.
  generalize (segmentFan params C i samples_
                (segmentLocal A B C D_ E F i samples_)).
  generalize (segmentLocal A B C D_ E F i samples_).
  intros loc fan Hl Hp Hw Ha Hfan.
  destruct loc as [|x [|y rest]]; cbn [length] in Hl; try lia.
  replace (length (x :: y :: rest) - 1)%nat with (S (length rest)) in *
    by (cbn [length]; lia).
  change (firstn (S (length rest)) (x :: y :: rest))
    with (x :: firstn (length rest) (y :: rest)) in *.
  split; [cbn [length]; lia|].
  split; [exact Hp|]. split; [exact Hw|]. split; [exact Hfan|exact Ha].
Qed.

(** On the quarter turn, the segment from (10, 0) to (10, 10) keeps the
    first two subdivided positions after the corner, (10, 1005/1024) and
    (10, 285/128): there are two samples or more to compare. *)
Lemma turn_third :
  nth 6 (@segmentPositions RealNum.scalar RealNum.collaborators
           (cornerKnotAt 10 0) (cornerKnotAt 10 0) (cornerKnotAt 10 0)
           (cornerKnotAt 10 10) (cornerKnotAt 10 10) (cornerKnotAt 10 10))
        zero2
  = @glm.vec2 RealNum.scalar 10%R (285 / 128)%R.
Proof.
  unfold segmentPositions.
  change (nth 6 (subdivide interpolateUsingDynLevin_vec zero2 _) zero2)
    with (let a := k_position (cornerKnotAt 10 0) in
          let d := k_position (cornerKnotAt 10 10) in
          let a' := @interpolateUsingDynLevin_vec RealNum.scalar
                      RealNum.collaborators a a a d tension in
          let b' := @interpolateUsingDynLevin_vec RealNum.scalar
                      RealNum.collaborators a a d d tension in
          @interpolateUsingDynLevin_vec RealNum.scalar
            RealNum.collaborators a' a b' d tension).
  cbv zeta.
  cbn [interpolateUsingDynLevin_vec RealNum.collaborators].
  unfold RealNum.stencil_vec, RealNum.stencil, tension, d1, cornerKnotAt.
  cbn [k_position glm.x glm.y ddiv d_of_nat RealNum.scalar].
  simpl INR. f_equal; field.
Qed.

Lemma segment_samples_apart_witness :
  exists (fan body : list (@VCurveSample RealNum.scalar)),
    @segment RealNum.scalar RealNum.collaborators turnParams turnKnots 1
             [sampleAt 0 0]
    = Ok (([sampleAt 0 0] ++ fan) ++ body)
    /\ (2 <= length body)%nat
    /\ position (nth 0 body VCurveSample_init)
       = @glm.vec2 RealNum.scalar 10%R 0%R
    /\ apart body.
Proof.
  destruct (segment_samples_apart RealNum.scalar RealNum.collaborators
              turnParams turnKnots 1 [sampleAt 0 0])
    as (A & B & E & F & fan & H).
  - simpl. lia.
  - reflexivity.
  - reflexivity.
  - right. discriminate.
  - cbv zeta in H. destruct H as (Hck & Hseg & _ & Hp & _ & _ & Ha).
    rewrite turn_control in Hck. injection Hck as <- <- <- <-.
    change (nth 1 turnKnots VCurveKnot_init) with (cornerKnotAt 10 0) in *.
    change (nth (1 + 1) turnKnots VCurveKnot_init)
      with (cornerKnotAt 10 10) in *.
    destruct turn_positions as (HL & H4 & H5).
    pose proof turn_third as H6.
    assert (H3 : (3 <= length
                    (@segmentLocal RealNum.scalar RealNum.collaborators
                       (cornerKnotAt 10 0) (cornerKnotAt 10 0)
                       (cornerKnotAt 10 0) (cornerKnotAt 10 10)
                       (cornerKnotAt 10 10) (cornerKnotAt 10 10)
                       1 [sampleAt 0 0]))%nat).
    { unfold segmentLocal. rewrite tangentSamples_length.
      set (P := segmentPositions _ _ _ _ _ _) in *.
      apply localSamples_three; [lia| |].
      - rewrite H4, H5. apply ltb_true.
        unfold eps, glm.length, glm.sub.
        cbn [glm.x glm.y dsqrt dadd dsub dmul lit_1em10 RealNum.scalar].
        replace ((10 - 10) * (10 - 10)
                 + (1005 / 1024 - 0) * (1005 / 1024 - 0))%R
          with ((1005 / 1024) * (1005 / 1024))%R by field.
        rewrite sqrt_square by lra. lra.
      - rewrite H5, H6. apply ltb_true.
        unfold eps, glm.length, glm.sub.
        cbn [glm.x glm.y dsqrt dadd dsub dmul lit_1em10 RealNum.scalar].
        replace ((10 - 10) * (10 - 10)
                 + (285 / 128 - 1005 / 1024) * (285 / 128 - 1005 / 1024))%R
          with ((1275 / 1024) * (1275 / 1024))%R by field.
        rewrite sqrt_square by lra. lra. }
    set (loc := segmentLocal _ _ _ _ _ _ 1 [sampleAt 0 0]) in *.
    exists fan, (firstn (length loc - 1) loc).
    split; [exact Hseg|].
    split; [rewrite length_firstn; lia|].
    split; [exact Hp|exact Ha].
Defined.
